(** * A shallow embedding of [src/state_vec.py] (MBQC state-vector core)

    Amplitudes are complex numbers over the real numbers of the Standard
    Library: arithmetic is exact, so a statement "up to floating tolerance" of
    the Python program is proved here as an identity of exact arithmetic.
    A tensor of shape [(2,)*n] is a rank together with its flat row-major
    buffer, the way NumPy stores it; an exception of the Python program is a
    [Raise] outcome, and whatever was mutated before it was raised stays
    mutated. *)

From Stdlib Require Import String.
From Stdlib Require Import Reals Lra Lia ZArith Bool Arith List Permutation.
Import ListNotations.

(* ===================================================================== *)
(** * Complex amplitudes ([np.complex128], with exact arithmetic) *)
(* ===================================================================== *)

Module Cx.
Local Open Scope R_scope.

Record C : Type := mkC { Re : R; Im : R }.

Definition C0 : C := mkC 0 0.
Definition C1 : C := mkC 1 0.
Definition Ci : C := mkC 0 1.
Definition RtoC (x : R) : C := mkC x 0.

Definition Cadd (a b : C) : C := mkC (Re a + Re b) (Im a + Im b).
Definition Copp (a : C) : C := mkC (- Re a) (- Im a).
Definition Cmul (a b : C) : C :=
  mkC (Re a * Re b - Im a * Im b) (Re a * Im b + Im a * Re b).
Definition Cconj (a : C) : C := mkC (Re a) (- Im a).
(** [x * a] for a real [x] *)
Definition Cscale (x : R) (a : C) : C := mkC (x * Re a) (x * Im a).
(** [a / x] for a real [x] *)
Definition Cdivr (a : C) (x : R) : C := mkC (Re a / x) (Im a / x).
(** [abs(a)] *)
Definition Cabs (a : C) : R := sqrt (Re a * Re a + Im a * Im a).
(** [|a|^2] *)
Definition Cnorm2 (a : C) : R := Re a * Re a + Im a * Im a.

(** [np.dot]'s running sum *)
Definition Csum (l : list C) : C := fold_right Cadd C0 l.

End Cx.
Import Cx.

(* ===================================================================== *)
(** * Python values: exceptions, integers as [Z], list methods *)
(* ===================================================================== *)

Module Py.
Local Open Scope Z_scope.

Inductive exn : Type :=
| ValueError | IndexError | AxisError | AssertionError | TypeError.

Inductive outcome (A : Type) : Type :=
| Ret (a : A)
| Raise (e : exn).
Arguments Ret {A} a.
Arguments Raise {A} e.

Definition obind {A B} (o : outcome A) (k : A -> outcome B) : outcome B :=
  match o with Ret a => k a | Raise e => Raise e end.

(** [l[i]] with Python's negative indices; [IndexError] out of range *)
Definition getitem {A} (l : list A) (i : Z) : outcome A :=
  let n := Z.of_nat (length l) in
  let j := if i <? 0 then i + n else i in
  if (0 <=? j) && (j <? n)
  then match nth_error l (Z.to_nat j) with Some x => Ret x | None => Raise IndexError end
  else Raise IndexError.

(** [l.index(x)]: position of the first occurrence; [ValueError] if absent *)
Fixpoint list_index (l : list Z) (x : Z) : outcome nat :=
  match l with
  | [] => Raise ValueError
  | y :: r => if y =? x then Ret 0%nat
              else obind (list_index r x) (fun k => Ret (S k))
  end.

(** [l.remove(x)]: drops the first occurrence; [ValueError] if absent *)
Fixpoint list_remove (l : list Z) (x : Z) : outcome (list Z) :=
  match l with
  | [] => Raise ValueError
  | y :: r => if y =? x then Ret r
              else obind (list_remove r x) (fun r' => Ret (y :: r'))
  end.

(** [sum(results[i] for i in domain)]: the builtin starts from [0] and adds
    the items from left to right; the first bad index raises *)
Fixpoint sum_at (results : list Z) (domain : list Z) (acc : Z) : outcome Z :=
  match domain with
  | [] => Ret acc
  | i :: r => obind (getitem results i) (fun v => sum_at results r (acc + v))
  end.

(** [list.insert(i, x)] for [0 <= i]: past the end it appends *)
Definition list_insert {A} (i : nat) (x : A) (l : list A) : list A :=
  firstn i l ++ x :: skipn i l.

End Py.
Import Py.

(* ===================================================================== *)
(** * NumPy arrays of shape [(2,)*n] and the functions the program calls *)
(* ===================================================================== *)

Module Np.

(** An array whose axes all have size 2: [ndim] axes, and the flat
    row-major buffer ([a.flatten()]). *)
Record ndarray : Type := mk_ndarray { ndim : nat; data : list C }.

Definition wf (a : ndarray) : Prop := length (data a) = 2 ^ ndim a.

(** A multi-index has one bit per axis. *)
Abbreviation index := (list bool).

Fixpoint offset (idx : index) : nat :=
  match idx with
  | [] => 0
  | b :: r => (if b then 2 ^ length r else 0) + offset r
  end.

(** All multi-indices of an [n]-axis array, in row-major order. *)
Fixpoint all_indices (n : nat) : list index :=
  match n with
  | 0 => [[]]
  | S m => map (cons false) (all_indices m) ++ map (cons true) (all_indices m)
  end.

Definition get (a : ndarray) (idx : index) : C := nth (offset idx) (data a) C0.

Definition of_fun (n : nat) (f : index -> C) : ndarray :=
  mk_ndarray n (map f (all_indices n)).

(** An axis argument may be negative; [e] is what the caller raises when it
    is out of range. *)
Definition norm_axis (e : exn) (nd : nat) (ax : Z) : outcome nat :=
  let n := Z.of_nat nd in
  if ((0 <=? ax) && (ax <? n))%Z then Ret (Z.to_nat ax)
  else if ((- n <=? ax) && (ax <? 0))%Z then Ret (Z.to_nat (ax + n))
  else Raise e.

Fixpoint norm_axes (e : exn) (nd : nat) (axes : list Z) : outcome (list nat) :=
  match axes with
  | [] => Ret []
  | ax :: r => obind (norm_axis e nd ax) (fun k =>
               obind (norm_axes e nd r) (fun ks => Ret (k :: ks)))
  end.

Definition mem (k : nat) (l : list nat) : bool := existsb (Nat.eqb k) l.

Fixpoint has_dup (l : list nat) : bool :=
  match l with
  | [] => false
  | x :: r => mem x r || has_dup r
  end.

(** [[k for k in range(nd) if k not in axes]] *)
Definition notin (nd : nat) (axes : list nat) : list nat :=
  filter (fun k => negb (mem k axes)) (seq 0 nd).

Fixpoint position (m : nat) (l : list nat) : nat :=
  match l with
  | [] => 0
  | x :: r => if x =? m then 0 else S (position m r)
  end.

Definition is_perm (nd : nat) (order : list nat) : bool :=
  (length order =? nd) && forallb (fun m => mem m order) (seq 0 nd).

(** The index [j] of the source with [j[order[k]] = idx[k]]. *)
Definition permute_index (nd : nat) (order : list nat) (idx : index) : index :=
  map (fun m => nth (position m order) idx false) (seq 0 nd).

(** [a.transpose(order)]: axis [k] of the result is axis [order[k]] of [a]. *)
Definition transpose (a : ndarray) (order : list nat) : outcome ndarray :=
  if is_perm (ndim a) order
  then Ret (of_fun (ndim a) (fun idx => get a (permute_index (ndim a) order idx)))
  else Raise ValueError.

Fixpoint insert_sorted (p : nat * nat) (l : list (nat * nat)) : list (nat * nat) :=
  match l with
  | [] => [p]
  | q :: r =>
      if (fst p <? fst q) || ((fst p =? fst q) && (snd p <=? snd q))
      then p :: q :: r
      else q :: insert_sorted p r
  end.

(** [sorted(zip(destination, source))] *)
Definition sorted_pairs (l : list (nat * nat)) : list (nat * nat) :=
  fold_right insert_sorted [] l.

(** [np.moveaxis(a, source, destination)] *)
Definition moveaxis (a : ndarray) (source destination : list Z) : outcome ndarray :=
  obind (norm_axes AxisError (ndim a) source) (fun src =>
  if has_dup src then Raise ValueError else
  obind (norm_axes AxisError (ndim a) destination) (fun dst =>
  if has_dup dst then Raise ValueError else
  if negb (length src =? length dst) then Raise ValueError else
  let order :=
    fold_left (fun o p => list_insert (fst p) (snd p) o)
              (sorted_pairs (combine dst src)) (notin (ndim a) src) in
  transpose a order)).

(** [np.tensordot(a, b, (axes_a, axes_b))]: the contracted axes of [a] go
    last, those of [b] first, and the two are multiplied as matrices. *)
Definition tensordot (a b : ndarray) (axes_a axes_b : list Z) : outcome ndarray :=
  if negb (length axes_a =? length axes_b) then Raise ValueError else
  obind (norm_axes IndexError (ndim a) axes_a) (fun xa =>
  obind (norm_axes IndexError (ndim b) axes_b) (fun xb =>
  let free_a := notin (ndim a) xa in
  let free_b := notin (ndim b) xb in
  obind (transpose a (free_a ++ xa)) (fun at_ =>
  obind (transpose b (xb ++ free_b)) (fun bt =>
  let na := length free_a in
  Ret (of_fun (na + length free_b) (fun idx =>
         Csum (map (fun s => Cmul (get at_ (firstn na idx ++ s))
                                  (get bt (s ++ skipn na idx)))
                   (all_indices (length xa))))))))).

(** [np.kron] of two flat vectors *)
Definition kron (x y : list C) : list C :=
  flat_map (fun a => map (Cmul a) y) x.

(** [v.reshape((2,)*n)] *)
Definition reshape (v : list C) (n : nat) : outcome ndarray :=
  if length v =? 2 ^ n then Ret (mk_ndarray n v) else Raise ValueError.

(** [np.ones((2,)*n)] *)
Definition ones (n : nat) : ndarray := mk_ndarray n (repeat C1 (2 ^ n)).

(** [a / x] for a real [x] *)
Definition divr (a : ndarray) (x : R) : ndarray :=
  mk_ndarray (ndim a) (map (fun z => Cdivr z x) (data a)).

(** [x * a] for a real [x], and [a + b] *)
Definition scale (x : R) (a : ndarray) : ndarray :=
  mk_ndarray (ndim a) (map (Cscale x) (data a)).

Definition add (a b : ndarray) : ndarray :=
  mk_ndarray (ndim a) (map (fun p => Cadd (fst p) (snd p)) (combine (data a) (data b))).

(** [a.take(indices=i, axis=axis)] for [i] in [{0, 1}] *)
Definition take (a : ndarray) (i : bool) (axis : Z) : outcome ndarray :=
  obind (norm_axis AxisError (ndim a) axis) (fun k =>
  Ret (of_fun (ndim a - 1) (fun idx => get a (list_insert k i idx)))).

(** [x * y] and [np.dot(x, y)] on flat vectors, [v.conj()] *)
Definition emul (x y : list C) : list C :=
  map (fun p => Cmul (fst p) (snd p)) (combine x y).

Definition dot (x y : list C) : outcome C :=
  if length x =? length y then Ret (Csum (emul x y)) else Raise ValueError.

Definition conj (v : list C) : list C := map Cconj v.

(** Python's builtin [sum] over a flat vector: from [0], left to right *)
Definition pysum (v : list C) : C := fold_left Cadd v C0.

(** [np.isclose(x, y)] with the default [rtol=1e-05], [atol=1e-08] *)
Definition isclose (x y : R) : bool :=
  if Rle_dec (Rabs (x - y)) (1 / 100000000 + 1 / 100000 * Rabs y) then true else false.

End Np.
Import Np.


(* ===================================================================== *)
(** * The module [state_vec]: constants and objects *)
(* ===================================================================== *)

Local Open Scope R_scope.

Definition CZ_TENSOR : ndarray :=
  mk_ndarray 4 [C1; C0; C0; C0;  C0; C1; C0; C0;
                C0; C0; C1; C0;  C0; C0; C0; Copp C1].

Definition SWAP_TENSOR : ndarray :=
  mk_ndarray 4 [C1; C0; C0; C0;  C0; C0; C1; C0;
                C0; C1; C0; C0;  C0; C0; C0; C1].

(** Modelled from the spec: [plus], imported from [.state], which is not
    among the sources: "a fresh |+> single-qubit state (amplitude 1/sqrt 2 on
    both basis values)". *)
Definition plus : ndarray := mk_ndarray 1 [RtoC (1 / sqrt 2); RtoC (1 / sqrt 2)].

(** Modelled from the spec: the matrices [X.matrix] and [Z.matrix] of
    [.clifford] and the table [clifford.CLIFFORD], which are not among the
    sources: "the corresponding fixed 2x2 Pauli operator" and "the three Pauli
    observables"; entry 0 of the table is the identity. *)
Definition eye2 : ndarray := mk_ndarray 2 [C1; C0; C0; C1].
Definition X_matrix : ndarray := mk_ndarray 2 [C0; C1; C1; C0].
Definition Y_matrix : ndarray := mk_ndarray 2 [C0; Copp Ci; Ci; C0].
Definition Z_matrix : ndarray := mk_ndarray 2 [C1; C0; C0; Copp C1].
Definition CLIFFORD : list ndarray := [eye2; X_matrix; Y_matrix; Z_matrix].

(** The three measurement planes of [.command] and [pauli]. *)
Inductive Plane : Type := XY | YZ | XZ.

(** What [pauli.MeasureUpdate.compute] returns. *)
Record MeasureUpdate : Type :=
  { new_plane : Plane; coeff : R; add_term : R }.

(** The parts of [pauli] and [.clifford] that [measure] calls and that are
    not among the sources, taken as parameters: the Clifford table [TABLE],
    [MeasureUpdate.compute] and [Plane.polar]. *)
Record pauli_env : Type :=
  { clifford_t : Type;
    TABLE : list clifford_t;
    compute : Plane -> bool -> bool -> clifford_t -> MeasureUpdate;
    polar : Plane -> R -> R * R * R }.

(** A list object lives in the heap and is named by its address, so that two
    names of one list see each other's [append] and [remove]. *)
Definition loc : Type := nat.

(** The attributes of a [StateVec] object.  [psi] is rebound to a freshly
    built array by every assignment of the class, so it is held by value;
    [node_index] is a reference to a list object. *)
Record statevec : Type := mk_statevec { psi : ndarray; node_index : loc }.

(** What outlives a call: the list objects, and the generator of the module
    [random], seen as the stream of the samples it will deliver and the number
    of samples already drawn. *)
Record world : Type := mk_world { heap : loc -> list Z; rng : nat -> R; cursor : nat }.

Definition heap_set (h : loc -> list Z) (l : loc) (v : list Z) : loc -> list Z :=
  fun l' => if l' =? l then v else h l'.

(** A method body: reads and updates [self] and the world, returns or raises. *)
Definition M (A : Type) : Type := statevec -> world -> outcome A * statevec * world.

Definition ret {A} (a : A) : M A := fun s w => (Ret a, s, w).

Definition bind {A B} (m : M A) (k : A -> M B) : M B :=
  fun s w =>
    match m s w with
    | (Ret a, s', w') => k a s' w'
    | (Raise e, s', w') => (Raise e, s', w')
    end.

Declare Scope py_scope.
Delimit Scope py_scope with py.
Notation "x <- m ;; k" := (bind m (fun x => k))
  (at level 61, m at next level, right associativity) : py_scope.
Notation "m ;;; k" := (bind m (fun _ => k))
  (at level 61, right associativity) : py_scope.

(** An expression that may raise and touches neither [self] nor the world *)
Definition lift {A} (o : outcome A) : M A := fun s w => (o, s, w).

(** [self.psi] and [self.psi = p] *)
Definition get_psi : M ndarray := fun s w => (Ret (psi s), s, w).
Definition set_psi (p : ndarray) : M unit :=
  fun s w => (Ret tt, mk_statevec p (node_index s), w).

(** the list [self.node_index] refers to, and its update in place *)
Definition read_nodes : M (list Z) := fun s w => (Ret (heap w (node_index s)), s, w).
Definition write_nodes (l : list Z) : M unit :=
  fun s w => (Ret tt, s, mk_world (heap_set (heap w) (node_index s) l) (rng w) (cursor w)).

(** [random.random()]: the next sample of the module-wide generator *)
Definition random_random : M R :=
  fun s w => (Ret (rng w (cursor w)), s, mk_world (heap w) (rng w) (S (cursor w))).

(** A Python value handed to a NumPy function. *)
Inductive pyobj : Type :=
| PyArray (a : ndarray)
| PyStateVec (s : statevec).

(** [np.tensordot(a, b, ...)] starts with [np.asarray(b)]: an array stays as
    it is; an object that is no array and no sequence becomes a 0-d array of
    dtype object, of shape [()], and its axes are looked up in that shape. *)
Definition tensordot_obj (a : ndarray) (b : pyobj) (axes_a axes_b : list Z)
  : outcome ndarray :=
  match b with
  | PyArray b' => tensordot a b' axes_a axes_b
  | PyStateVec _ =>
      if negb (length axes_a =? length axes_b)%nat then Raise ValueError else
      obind (norm_axes IndexError (ndim a) axes_a) (fun _ =>
      obind (norm_axes IndexError 0 axes_b) (fun _ => Raise TypeError))
  end.

(** [meas_op(vec, measurement)] *)
Definition vec_at (vec : R * R * R) (i : nat) : R :=
  match i with
  | 0%nat => fst (fst vec)
  | 1%nat => snd (fst vec)
  | _ => snd vec
  end.

Definition meas_op (vec : R * R * R) (measurement : Z) : ndarray :=
  let op_mat := divr eye2 2 in
  let sign := if Z.even measurement then 1 else -1 in
  fold_left
    (fun op_mat i =>
       let cliff := nth (i + 1) CLIFFORD eye2 in
       add op_mat (divr (scale (sign * vec_at vec i) cliff) 2))
    (seq 0 3) op_mat.

(** [_norm(psi)] *)
Definition _norm (psi : ndarray) : R :=
  sqrt (Cabs (pysum (emul (conj (data psi)) (data psi)))).

(** The function [single_qubit_evolution(psi, op, index)] of the module *)
Definition single_qubit_evolution (psi : pyobj) (op : ndarray) (index : Z)
  : outcome ndarray :=
  obind (tensordot_obj op psi [1%Z] [index]) (fun psi1 =>
  moveaxis psi1 [0%Z] [index]).

(* ===================================================================== *)
(** * The class [StateVec] *)
(* ===================================================================== *)

Module StateVec.
Local Open Scope py_scope.

Definition raise {A} (e : exn) : M A := lift (Raise e).

(** The list object built once, when [def __init__(self, input_nodes=[])] is
    executed; every call that omits the argument receives this same object. *)
Definition default_input_nodes : loc := 0%nat.

(** [__init__]: the object it builds ([None] when the argument is omitted) *)
Definition __init__ (input_nodes : option loc) (w : world) : statevec :=
  let input_nodes :=
    match input_nodes with Some l => l | None => default_input_nodes end in
  let nQubits := length (heap w input_nodes) in
  mk_statevec (divr (ones nQubits) (Rpower 2 (INR nQubits / 2))) input_nodes.

(** the property [norm] *)
Definition norm : M R := p <- get_psi ;; ret (_norm p).

Definition tensor (other : ndarray) : M unit :=
  p <- get_psi ;;
  let new_shape := (ndim p + ndim other)%nat in
  p' <- lift (reshape (kron (data p) (data other)) new_shape) ;;
  set_psi p'.

Definition get_state_vector : M ndarray := get_psi.

Definition prepare_state (target : Z) : M unit :=
  let new_qubit := plus in
  tensor new_qubit ;;;
  l <- read_nodes ;;
  write_nodes (l ++ [target]).

Definition entangle (control target : Z) : M unit :=
  l <- read_nodes ;;
  control <- lift (list_index l control) ;;
  l <- read_nodes ;;
  target <- lift (list_index l target) ;;
  p <- get_psi ;;
  p <- lift (tensordot CZ_TENSOR p [2%Z; 3%Z] [Z.of_nat control; Z.of_nat target]) ;;
  set_psi p ;;;
  p <- get_psi ;;
  p <- lift (moveaxis p [0%Z; 1%Z] [Z.of_nat control; Z.of_nat target]) ;;
  set_psi p.

Definition swap (qubits : Z * Z) : M unit :=
  p <- get_psi ;;
  p <- lift (tensordot SWAP_TENSOR p [2%Z; 3%Z] [fst qubits; snd qubits]) ;;
  set_psi p ;;;
  p <- get_psi ;;
  p <- lift (moveaxis p [0%Z; 1%Z] [fst qubits; snd qubits]) ;;
  set_psi p.

(** The method [single_qubit_evolution]: it hands [self], and not
    [self.psi], to the function of the module. *)
Definition single_qubit_evolution_method (op : ndarray) (index : Z) : M ndarray :=
  fun s w => (single_qubit_evolution (PyStateVec s) op index, s, w).

Definition normalize : M ndarray :=
  p <- get_psi ;;
  let norm := _norm p in
  ret (divr p norm).

Definition remove_qubit (index : Z) : M unit :=
  p <- get_psi ;;
  let norm := _norm p in
  if isclose norm 0 then raise AssertionError else
  psi0 <- lift (take p false index) ;;
  let psi_norm := _norm psi0 in
  p' <- (if negb (isclose psi_norm 0) then ret psi0
         else (p <- get_psi ;; lift (take p true index))) ;;
  set_psi p' ;;;
  p <- normalize ;;
  set_psi p.

Definition expectation_single (op : ndarray) (index : Z) : M C :=
  p <- normalize ;;
  evolved <- lift (single_qubit_evolution (PyArray p) op index) ;;
  lift (dot (conj (data p)) (data evolved)).

(** Lines 147 to 154 of [measure]: the projector of outcome 0, its
    probability, the draw, and the outcome with its projector. *)
Definition measure_sample (vec : R * R * R) (index : Z) : M (Z * ndarray * nat) :=
  let measurement := 0%Z in
  let op := meas_op vec measurement in
  l <- read_nodes ;;
  loc <- lift (list_index l index) ;;
  e <- expectation_single op (Z.of_nat loc) ;;
  let proba_Plus := Cabs e in
  u <- random_random ;;
  if Rgt_dec u proba_Plus
  then (let measurement := 1%Z in
        let op := meas_op vec measurement in
        ret (measurement, op, loc))
  else ret (measurement, op, loc).

(** Lines 159 to 162 of [measure]: the measured qubit leaves the tensor and
    its label leaves the list. *)
Definition measure_remove (loc : nat) (index : Z) : M unit :=
  remove_qubit (Z.of_nat loc) ;;;
  l <- read_nodes ;;
  l' <- lift (list_remove l index) ;;
  write_nodes l'.

Definition measure (E : pauli_env) (index : Z) (plane : Plane) (angle : R)
    (s_domain t_domain : list Z) (measurements : list Z) (vop : Z) : M Z :=
  s_signal <- lift (sum_at measurements s_domain 0) ;;
  t_signal <- lift (sum_at measurements t_domain 0) ;;
  cl <- lift (getitem (TABLE E) vop) ;;
  let measure_update :=
    compute E plane (s_signal mod 2 =? 1)%Z (t_signal mod 2 =? 1)%Z cl in
  let angle := angle * PI in
  let angle := angle * coeff measure_update in
  let angle := angle + add_term measure_update in
  let vec := polar E (new_plane measure_update) angle in
  r <- measure_sample vec index ;;
  let '(measurement, op, loc) := r in
  p <- single_qubit_evolution_method op (Z.of_nat loc) ;;
  set_psi p ;;;
  measure_remove loc index ;;;
  ret measurement.

Definition apply_correction (type : string) (index : Z) (domain : list Z)
    (measurement_results : list Z) : M unit :=
  parity <- lift (sum_at measurement_results domain 0) ;;
  if (parity mod 2 =? 1)%Z then
    l <- read_nodes ;;
    sv_index <- lift (list_index l index) ;;
    let cliff_gate := if String.eqb type "X" then X_matrix else Z_matrix in
    p <- single_qubit_evolution_method cliff_gate (Z.of_nat sv_index) ;;
    set_psi p
  else ret tt.

End StateVec.

(* ===================================================================== *)
(** * Definitions used to state the properties *)
(* ===================================================================== *)

(** The sum of the squared magnitudes of a flat vector. *)
Definition normsq (v : list C) : R := fold_right Rplus 0 (map Cnorm2 v).

Local Close Scope R_scope.

(** The order [moveaxis(a, (0, 1), (c, t))] transposes by. *)
Definition order2 (n c t : nat) : list nat :=
  fold_left (fun o p => list_insert (fst p) (snd p) o)
            (sorted_pairs (combine [c; t] [0; 1])) (notin n [0; 1]).

(** [idx] with the bit [s0] at axis [c] and the bit [s1] at axis [t]. *)
Definition set2 (c t : nat) (s0 s1 : bool) (idx : index) : index :=
  map (fun m => if m =? c then s0 else if m =? t then s1 else nth m idx false)
      (seq 0 (length idx)).

(** A 4-axis tensor [T] applied to the axes [c] and [t] of [psi]:
    amplitude [idx] of the result is the sum over [s] of
    [T[idx[c], idx[t], s0, s1] * psi[idx with s0 at c and s1 at t]]. *)
Definition apply2 (T psi : ndarray) (c t : nat) : ndarray :=
  of_fun (ndim psi) (fun idx =>
    Csum (map (fun s =>
                 Cmul (get T (nth c idx false :: nth t idx false :: s))
                      (get psi (set2 c t (nth 0 s false) (nth 1 s false) idx)))
              (all_indices 2))).

(** The controlled phase on the axes [c] and [t]: the amplitudes whose bits
    at [c] and [t] are both 1 change sign. *)
Definition cz_phase (c t : nat) (psi : ndarray) : ndarray :=
  of_fun (ndim psi) (fun idx =>
    if nth c idx false && nth t idx false then Copp (get psi idx) else get psi idx).

(** The exchange of the bits at [c] and [t], and of the axes [c] and [t]. *)
Definition swap_bits (c t : nat) (idx : index) : index :=
  set2 c t (nth t idx false) (nth c idx false) idx.

Definition swap_axes (c t : nat) (psi : ndarray) : ndarray :=
  of_fun (ndim psi) (fun idx => get psi (swap_bits c t idx)).

(** A session whose tensor has its full buffer and one axis per label. *)
Definition wf_state (s : statevec) (w : world) : Prop :=
  wf (psi s) /\ ndim (psi s) = length (heap w (node_index s)).

(** A call of the executor on a session. *)
Inductive call : Type :=
| Prepare (target : Z)
| Entangle (control target : Z)
| Swap (qubits : Z * Z)
| ApplyCorrection (type : string) (index : Z) (domain measurement_results : list Z)
| Measure (index : Z) (plane : Plane) (angle : R)
          (s_domain t_domain measurements : list Z) (vop : Z).

Definition lifecycle (c : call) : Prop :=
  match c with
  | Measure _ _ _ _ _ _ _ => False
  | _ => True
  end.

Definition do_call (E : pauli_env) (c : call) : M (option Z) :=
  match c with
  | Prepare target =>
      bind (StateVec.prepare_state target) (fun _ => ret None)
  | Entangle control target =>
      bind (StateVec.entangle control target) (fun _ => ret None)
  | Swap qubits =>
      bind (StateVec.swap qubits) (fun _ => ret None)
  | ApplyCorrection type index domain results =>
      bind (StateVec.apply_correction type index domain results) (fun _ => ret None)
  | Measure index plane angle s_domain t_domain measurements vop =>
      bind (StateVec.measure E index plane angle s_domain t_domain measurements vop)
           (fun m => ret (Some m))
  end.

(** The calls are issued one after the other; the first exception ends the
    run.  The result lists what each call returned. *)
Fixpoint run (E : pauli_env) (cs : list call) : M (list (option Z)) :=
  match cs with
  | [] => ret []
  | c :: r =>
      bind (do_call E c) (fun o =>
      bind (run E r) (fun os => ret (o :: os)))
  end.


(** What a lifecycle call may do to the tensor: leave it, or replace it by
    a tensor with a full buffer and the same sum of squared magnitudes. *)
Definition keeps_norm {A} (m : M A) : Prop :=
  forall s w, wf (psi s) ->
    wf (psi (snd (fst (m s w)))) /\
    (normsq (data (psi (snd (fst (m s w))))) = normsq (data (psi s)))%R.

(** The slice [psi.take(indices=b, axis=k)]. *)
Definition slice (psi : ndarray) (b : bool) (k : nat) : ndarray :=
  of_fun (ndim psi - 1) (fun idx => get psi (list_insert k b idx)).

(** [idx] without its bit at axis [k]. *)
Definition drop_axis (k : nat) (idx : index) : index :=
  firstn k idx ++ skipn (S k) idx.


(** ** Concrete sessions used as inputs *)

(** Two qubits labelled 0 and 1 in the state |00>; the list of labels is the
    object at address 1. *)
Definition w_two : world :=
  mk_world (fun l => if l =? 1 then [0%Z; 1%Z] else []) (fun _ => 0%R) 0.
Definition s_two : statevec := mk_statevec (mk_ndarray 2 [C1; C0; C0; C0]) 1.

(** [StateVec([10, 20])]: the list [[10, 20]] is the object at address 1. *)
Definition w_labels : world :=
  mk_world (fun l => if l =? 1 then [10%Z; 20%Z] else []) (fun _ => 0%R) 0.
Definition s_labels : statevec := StateVec.__init__ (Some 1) w_labels.

(** [a = StateVec()] and [b = StateVec()] in a fresh process. *)
Definition w_fresh : world := mk_world (fun _ => []) (fun _ => 0%R) 0.
Definition s_a : statevec := StateVec.__init__ None w_fresh.
Definition s_b : statevec := StateVec.__init__ None w_fresh.

(** A stand-in for the absent [pauli] module: one table entry, no update of
    the angle, and the direction X for every plane and angle. *)
Definition E0 : pauli_env :=
  {| clifford_t := unit;
     TABLE := [tt];
     compute := fun p _ _ _ => {| new_plane := p; coeff := 1; add_term := 0 |};
     polar := fun _ _ => (1, 0, 0)%R |}.

Definition calls_four : list call :=
  [Prepare 2; Entangle 0 2; Swap (0, 1)%Z; ApplyCorrection "X" 0 [0%Z] [1%Z]].

(** [StateVec([0])]: one qubit, labelled 0, in the state |+>; the list [[0]]
    is the object at address 1.  The generator will deliver 3/4. *)
Definition w_one : world :=
  mk_world (fun l => if l =? 1 then [0%Z] else []) (fun _ => (3 / 4)%R) 0.
Definition s_one : statevec := StateVec.__init__ (Some 1) w_one.



(** Two qubits labelled 0 and 1: the cluster state CZ |++> once the
    projector of outcome 0 along X has been applied to qubit 0.  Qubit 0 is
    left in |+> and qubit 1 in |0>; the tensor is not normalized, and its
    two slices along axis 0 are both [1/2, 0]. *)
Definition s_projected : statevec :=
  mk_statevec (mk_ndarray 2 [RtoC (1 / 2); C0; RtoC (1 / 2); C0]) 1.

(** One qubit, labelled 0, whose amplitude at index 0 is 1e-9: not zero,
    and numerically zero for [np.isclose]. *)
Definition s_tiny : statevec :=
  mk_statevec (mk_ndarray 1 [RtoC (1 / 1000000000); C1]) 1.

(** The order [moveaxis(a, 0, k)] transposes by. *)
Definition order1 (n k : nat) : list nat :=
  fold_left (fun o p => list_insert (fst p) (snd p) o)
            (sorted_pairs (combine [k] [0])) (notin n [0]).

(** [idx] with the bit [b] at axis [k]. *)
Definition set1 (k : nat) (b : bool) (idx : index) : index :=
  map (fun m => if m =? k then b else nth m idx false) (seq 0 (length idx)).

(** A 2x2 operator applied to the axis [k] of [psi]: amplitude [idx] of the
    result is the sum over [j] of [op[idx[k], j] * psi[idx with j at k]]. *)
Definition apply1 (op psi : ndarray) (k : nat) : ndarray :=
  of_fun (ndim psi) (fun idx =>
    Csum (map (fun s =>
                 Cmul (get op (nth k idx false :: s))
                      (get psi (set1 k (nth 0 s false) idx)))
              (all_indices 1))).

(** The bit flip and the phase flip on axis [k]. *)
Definition flip_axis (k : nat) (psi : ndarray) : ndarray :=
  of_fun (ndim psi) (fun idx => get psi (set1 k (negb (nth k idx false)) idx)).

Definition phase_axis (k : nat) (psi : ndarray) : ndarray :=
  of_fun (ndim psi) (fun idx =>
    if nth k idx false then Copp (get psi idx) else get psi idx).

(* ===================================================================== *)
(** * The remaining method: [multi_qubit_evolution] *)
(* ===================================================================== *)

(** An operator array of any shape, as far as [multi_qubit_evolution] looks
    at it: [len(op)], the size of its first axis, and its flat row-major
    buffer, which is all that [op.reshape] reads. *)
Record oparray : Type := mk_oparray { op_len : nat; op_flat : list C }.

(** The exceptions of the class, and the [OverflowError] of [int(-inf)]. *)
Inductive exn_ext : Type :=
| Exn (e : exn)
| OverflowError.

(** [multi_qubit_evolution(op, qargs)].  [np.log2(0)] is [-inf] and [int] of
    it raises; for a positive length [int(np.log2(len(op)))] is the integer
    logarithm: it is exact when the length is a power of two, and for any
    other length the size of [op] is no power of two and [reshape] raises
    whatever the rounding. *)
Definition multi_qubit_evolution (op : oparray) (qargs : list Z)
  : statevec -> world -> (exn_ext + unit) * statevec * world :=
  fun s w =>
    match op_len op with
    | 0 => (inl OverflowError, s, w)
    | S _ =>
        let op_dim := Nat.log2 (op_len op) in
        let body : M unit :=
          (op_tensor <- lift (reshape (op_flat op) (2 * op_dim)) ;;
           p <- get_psi ;;
           p <- lift (tensordot op_tensor p
                        (map (fun i => Z.of_nat (op_dim + i)) (seq 0 (length qargs)))
                        qargs) ;;
           set_psi p ;;;
           p <- get_psi ;;
           p <- lift (moveaxis p (map Z.of_nat (seq 0 (length qargs))) qargs) ;;
           set_psi p)%py in
        match body s w with
        | (Ret u, s', w') => (inr u, s', w')
        | (Raise e, s', w') => (inl (Exn e), s', w')
        end
    end.

(** ** Definitions used to state further properties *)

(** What [swap(qubits)] gives, case by case. *)
Definition swap_result (qubits : Z * Z) (s : statevec) (w : world)
  : outcome unit * statevec * world :=
  match norm_axis IndexError (ndim (psi s)) (fst qubits),
        norm_axis IndexError (ndim (psi s)) (snd qubits) with
  | Ret c, Ret t =>
      if c =? t then (Raise ValueError, s, w)
      else (Ret tt, mk_statevec (swap_axes c t (psi s)) (node_index s), w)
  | _, _ => (Raise IndexError, s, w)
  end.

(** The product of two 2x2 operators. *)
Definition matmul2 (a b : ndarray) : ndarray :=
  of_fun 2 (fun idx =>
    Csum (map (fun j => Cmul (get a [nth 0 idx false; j]) (get b [j; nth 1 idx false]))
              [false; true])).

(** An axis number [z] is in range for [n] axes when [-n <= z < n]; it then
    names the axis [z mod n]. *)
Definition in_range (n : nat) (z : Z) : Prop :=
  (- Z.of_nat n <= z < Z.of_nat n)%Z.

Definition axis_of (n : nat) (z : Z) : nat := Z.to_nat (z mod Z.of_nat n).

(** A method that keeps the invariant of a session: a full buffer and one
    axis per label, whether it returns or raises. *)
Definition keeps_wf_state {A} (m : M A) : Prop :=
  forall s w, wf_state s w -> wf_state (snd (fst (m s w))) (snd (m s w)).

(** An index that Python accepts for the list [l], and a domain all of whose
    entries are such indices. *)
Definition valid_index {A} (l : list A) (i : Z) : Prop :=
  (- Z.of_nat (length l) <= i < Z.of_nat (length l))%Z.

Definition valid_domain (results domain : list Z) : Prop :=
  Forall (valid_index results) domain.

(** The outcome of a method of the class as an outcome of
    [multi_qubit_evolution]. *)
Definition as_ext {A} (r : outcome A * statevec * world)
  : (exn_ext + A) * statevec * world :=
  match r with
  | (Ret a, s, w) => (inr a, s, w)
  | (Raise e, s, w) => (inl (Exn e), s, w)
  end.
(* ===================================================================== *)
(** * Facts on complex numbers and sums *)
(* ===================================================================== *)

Local Open Scope R_scope.

Ltac cx := intros;
  repeat match goal with z : C |- _ => destruct z end;
  unfold Cadd, Cmul, Copp, Cconj, Cscale, Cdivr, Cnorm2, RtoC, C0, C1, Ci;
  cbn [Re Im]; try ring; try (f_equal; ring).

Lemma Cadd_assoc (a b c : C) : Cadd a (Cadd b c) = Cadd (Cadd a b) c.
Proof. cx. Qed.

Lemma Cadd_0_l (a : C) : Cadd C0 a = a.
Proof. cx. Qed.

Lemma Cadd_0_r (a : C) : Cadd a C0 = a.
Proof. cx. Qed.

Lemma Cmul_1_l (a : C) : Cmul C1 a = a.
Proof. cx. Qed.

Lemma Cmul_0_l (a : C) : Cmul C0 a = C0.
Proof. cx. Qed.

Lemma Cmul_opp1_l (a : C) : Cmul (Copp C1) a = Copp a.
Proof. cx. Qed.

Lemma Copp_involutive (a : C) : Copp (Copp a) = a.
Proof. cx. Qed.

Lemma Cnorm2_opp (a : C) : Cnorm2 (Copp a) = Cnorm2 a.
Proof. cx. Qed.

Lemma Cnorm2_mul (a b : C) : Cnorm2 (Cmul a b) = Cnorm2 a * Cnorm2 b.
Proof. cx. Qed.

Lemma Cnorm2_nonneg (a : C) : 0 <= Cnorm2 a.
Proof. destruct a as [x y]. unfold Cnorm2. cbn [Re Im]. nra. Qed.

Lemma Cconj_mul_self (a : C) : Cmul (Cconj a) a = RtoC (Cnorm2 a).
Proof. cx. Qed.

Lemma Cabs_RtoC_nonneg (x : R) : 0 <= x -> Cabs (RtoC x) = x.
Proof.
  intros Hx. unfold Cabs, RtoC. cbn [Re Im].
  replace (x * x + 0 * 0) with (Rsqr x) by (unfold Rsqr; ring).
  now apply sqrt_Rsqr.
Qed.


Lemma normsq_nonneg (v : list C) : 0 <= normsq v.
Proof.
  induction v as [|a v IH]; unfold normsq in *; simpl; [lra|].
  pose proof (Cnorm2_nonneg a). lra.
Qed.

Lemma normsq_app (u v : list C) : normsq (u ++ v) = normsq u + normsq v.
Proof.
  induction u as [|a u IH]; unfold normsq in *; simpl; [ring|]. rewrite IH. ring.
Qed.

Lemma pysum_Csum (v : list C) : pysum v = Csum v.
Proof.
  unfold pysum, Csum.
  assert (H : forall l acc, fold_left Cadd l acc = Cadd acc (fold_right Cadd C0 l)).
  { induction l as [|a l IH]; intros acc; simpl.
    - now rewrite Cadd_0_r.
    - rewrite IH. now rewrite Cadd_assoc. }
  rewrite H. apply Cadd_0_l.
Qed.

Lemma emul_conj_self (v : list C) :
  emul (conj v) v = map (fun z => RtoC (Cnorm2 z)) v.
Proof.
  unfold emul, conj. induction v as [|a v IH]; simpl; [reflexivity|].
  rewrite IH. f_equal. apply Cconj_mul_self.
Qed.

Lemma Csum_RtoC (v : list C) :
  Csum (map (fun z => RtoC (Cnorm2 z)) v) = RtoC (normsq v).
Proof.
  unfold Csum, normsq. induction v as [|a v IH]; simpl; [reflexivity|].
  rewrite IH. cx.
Qed.

(** [_norm] is the square root of the sum of the squared magnitudes. *)
Lemma _norm_normsq (a : ndarray) : _norm a = sqrt (normsq (data a)).
Proof.
  unfold _norm. rewrite pysum_Csum, emul_conj_self, Csum_RtoC.
  now rewrite Cabs_RtoC_nonneg by apply normsq_nonneg.
Qed.

Lemma normsq_perm (u v : list C) : Permutation u v -> normsq u = normsq v.
Proof.
  induction 1; unfold normsq in *; simpl; try lra; congruence.
Qed.

(* ===================================================================== *)
(** * Facts on multi-indices and flat buffers *)
(* ===================================================================== *)

Local Close Scope R_scope.

Section NpExamples.
Variables a00 a01 a10 a11 : C.
Let m : ndarray := mk_ndarray 2 [a00; a01; a10; a11].

Example transpose_2x2 : transpose m [1; 0] = Ret (mk_ndarray 2 [a00; a10; a01; a11]).
Proof. reflexivity. Qed.

Example moveaxis_2x2 :
  moveaxis m [0%Z] [1%Z] = Ret (mk_ndarray 2 [a00; a10; a01; a11]).
Proof. reflexivity. Qed.

Example take_col : take m true 1%Z = Ret (mk_ndarray 1 [a01; a11]).
Proof. reflexivity. Qed.

Example take_row_neg : take m true (-2)%Z = Ret (mk_ndarray 1 [a10; a11]).
Proof. reflexivity. Qed.

Example tensordot_repeated_axes :
  tensordot m m [0%Z; 0%Z] [0%Z; 1%Z] = Raise ValueError.
Proof. reflexivity. Qed.

Example tensordot_out_of_range :
  tensordot m m [1%Z] [2%Z] = Raise IndexError.
Proof. reflexivity. Qed.
Variables b000 b001 b010 b011 b100 b101 b110 b111 : C.
Variables o00 o01 o10 o11 : C.
Let t : ndarray := mk_ndarray 3 [b000; b001; b010; b011; b100; b101; b110; b111].
Let op : ndarray := mk_ndarray 2 [o00; o01; o10; o11].

Example moveaxis_first_to_last :
  moveaxis t [0%Z] [(-1)%Z] =
  Ret (mk_ndarray 3 [b000; b100; b001; b101; b010; b110; b011; b111]).
Proof. reflexivity. Qed.

Example tensordot_matrix :
  tensordot op m [1%Z] [1%Z] =
  Ret (mk_ndarray 2 [Csum [Cmul o00 a00; Cmul o01 a01]; Csum [Cmul o00 a10; Cmul o01 a11];
                     Csum [Cmul o10 a00; Cmul o11 a01]; Csum [Cmul o10 a10; Cmul o11 a11]]).
Proof. reflexivity. Qed.

Example single_qubit_evolution_axis_1 :
  single_qubit_evolution (PyArray m) op 1 =
  Ret (mk_ndarray 2 [Csum [Cmul o00 a00; Cmul o01 a01]; Csum [Cmul o10 a00; Cmul o11 a01];
                     Csum [Cmul o00 a10; Cmul o01 a11]; Csum [Cmul o10 a10; Cmul o11 a11]]).
Proof. reflexivity. Qed.

Example kron_vectors :
  kron [a00; a01] [o00; o01] = [Cmul a00 o00; Cmul a00 o01; Cmul a01 o00; Cmul a01 o01].
Proof. reflexivity. Qed.
End NpExamples.


Lemma length_all_indices (n : nat) : length (all_indices n) = 2 ^ n.
Proof.
  induction n as [|n IH]; simpl; [reflexivity|].
  rewrite length_app, !length_map, IH. lia.
Qed.

Lemma in_all_indices (n : nat) (idx : index) :
  In idx (all_indices n) <-> length idx = n.
Proof.
  revert idx. induction n as [|n IH]; intros idx; simpl.
  - split; [intros [<-|[]]; reflexivity|]. destruct idx; [auto|discriminate].
  - rewrite in_app_iff, !in_map_iff. split.
    + intros [[r [<- Hr]]|[r [<- Hr]]]; simpl; f_equal; now apply IH.
    + destruct idx as [|[|] r]; [discriminate| |]; intros [= Hr].
      * right. exists r. split; [reflexivity|now apply IH].
      * left. exists r. split; [reflexivity|now apply IH].
Qed.

Lemma NoDup_all_indices (n : nat) : NoDup (all_indices n).
Proof.
  induction n as [|n IH]; simpl.
  - constructor; [intros []|constructor].
  - apply NoDup_app.
    + apply Finite.Injective_map_NoDup; [intros x y [= ->]; reflexivity|exact IH].
    + apply Finite.Injective_map_NoDup; [intros x y [= ->]; reflexivity|exact IH].
    + intros idx H1 H2. apply in_map_iff in H1 as [r1 [<- _]].
      apply in_map_iff in H2 as [r2 [[=] _]].
Qed.

Lemma offset_lt (idx : index) : offset idx < 2 ^ length idx.
Proof.
  induction idx as [|b r IH]; simpl; [lia|]. destruct b; lia.
Qed.

Lemma nth_offset_map (f : index -> C) (idx : index) :
  nth (offset idx) (map f (all_indices (length idx))) C0 = f idx.
Proof.
  revert f. induction idx as [|b r IH]; intros f; simpl; [reflexivity|].
  rewrite map_app, !map_map. pose proof (offset_lt r) as Hlt. destruct b.
  - rewrite app_nth2; rewrite length_map, length_all_indices; [|lia].
    replace (2 ^ length r + offset r - 2 ^ length r) with (offset r) by lia.
    apply (IH (fun x => f (true :: x))).
  - rewrite app_nth1; [|rewrite length_map, length_all_indices; simpl; lia].
    apply (IH (fun x => f (false :: x))).
Qed.

Lemma get_of_fun (n : nat) (f : index -> C) (idx : index) :
  length idx = n -> get (of_fun n f) idx = f idx.
Proof. intros <-. unfold get, of_fun. simpl. apply nth_offset_map. Qed.

Lemma map_nth_offset (n : nat) (l : list C) :
  length l = 2 ^ n -> map (fun idx => nth (offset idx) l C0) (all_indices n) = l.
Proof.
  revert l. induction n as [|n IH]; intros l Hl; simpl in *.
  - destruct l as [|a [|b l]]; try discriminate. reflexivity.
  - rewrite map_app, !map_map.
    etransitivity; [|apply (firstn_skipn (2 ^ n) l)].
    assert (H1 : length (firstn (2 ^ n) l) = 2 ^ n) by (rewrite length_firstn; lia).
    assert (H2 : length (skipn (2 ^ n) l) = 2 ^ n) by (rewrite length_skipn; lia).
    f_equal.
    + rewrite <- (IH _ H1). apply map_ext_in. intros idx Hin.
      apply in_all_indices in Hin. simpl.
      pose proof (offset_lt idx) as Hlt. rewrite Hin in Hlt.
      rewrite <- (firstn_skipn (2 ^ n) l) at 1. now rewrite app_nth1 by lia.
    + rewrite <- (IH _ H2). apply map_ext_in. intros idx Hin.
      apply in_all_indices in Hin. simpl. rewrite Hin.
      rewrite <- (firstn_skipn (2 ^ n) l) at 1.
      rewrite app_nth2 by lia. f_equal. lia.
Qed.

Lemma of_fun_get (a : ndarray) : wf a -> of_fun (ndim a) (get a) = a.
Proof.
  destruct a as [n l]. unfold wf, of_fun, get. simpl. intros H.
  now rewrite map_nth_offset.
Qed.

Lemma of_fun_ext (n : nat) (f g : index -> C) :
  (forall idx, length idx = n -> f idx = g idx) -> of_fun n f = of_fun n g.
Proof.
  intros H. unfold of_fun. f_equal. apply map_ext_in.
  intros idx Hin. apply H. now apply in_all_indices.
Qed.

Lemma wf_of_fun (n : nat) (f : index -> C) : wf (of_fun n f).
Proof. unfold wf, of_fun. simpl. now rewrite length_map, length_all_indices. Qed.

(* ===================================================================== *)
(** * Facts on axis lists: [notin], [position], and the order that
      [moveaxis] builds *)
(* ===================================================================== *)

Lemma mem_In (k : nat) (l : list nat) : mem k l = true <-> In k l.
Proof.
  unfold mem. rewrite existsb_exists. split.
  - intros [x [Hx E]]. apply Nat.eqb_eq in E. now subst.
  - intros H. exists k. split; [exact H|apply Nat.eqb_refl].
Qed.

Lemma mem_seq (m a k : nat) : mem m (seq a k) = (a <=? m) && (m <? a + k).
Proof.
  apply eq_true_iff_eq. rewrite mem_In, in_seq, andb_true_iff, Nat.leb_le, Nat.ltb_lt.
  reflexivity.
Qed.

Lemma mem_app (m : nat) (l1 l2 : list nat) : mem m (l1 ++ l2) = mem m l1 || mem m l2.
Proof. unfold mem. apply existsb_app. Qed.

Lemma mem_cons (m x : nat) (l : list nat) : mem m (x :: l) = (m =? x) || mem m l.
Proof. reflexivity. Qed.

Lemma position_app (m : nat) (l1 l2 : list nat) :
  position m (l1 ++ l2) =
  if mem m l1 then position m l1 else length l1 + position m l2.
Proof.
  induction l1 as [|x l1 IH]; simpl; [reflexivity|].
  rewrite (Nat.eqb_sym m x). destruct (x =? m); simpl; [reflexivity|].
  rewrite IH. fold (mem m l1). now destruct (mem m l1).
Qed.

Lemma position_cons (m x : nat) (l : list nat) :
  position m (x :: l) = if m =? x then 0 else S (position m l).
Proof. simpl. now rewrite (Nat.eqb_sym m x). Qed.

Lemma position_seq (m a k : nat) :
  position m (seq a k) = if (a <=? m) && (m <? a + k) then m - a else k.
Proof.
  revert a. induction k as [|k IH]; intros a; simpl.
  - destruct (a <=? m) eqn:E1; destruct (m <? a + 0) eqn:E2; simpl; try reflexivity.
    apply Nat.leb_le in E1. apply Nat.ltb_lt in E2. lia.
  - rewrite IH.
    destruct (Nat.eqb_spec a m) as [->|Hne].
    + rewrite Nat.leb_refl. simpl.
      destruct (Nat.ltb_spec m (m + S k)); [lia|lia].
    + destruct (Nat.leb_spec (S a) m), (Nat.ltb_spec m (S a + k)),
        (Nat.leb_spec a m), (Nat.ltb_spec m (a + S k)); simpl; lia.
Qed.

Lemma nth_app_if {A} (k : nat) (l1 l2 : list A) (d : A) :
  nth k (l1 ++ l2) d = if k <? length l1 then nth k l1 d else nth (k - length l1) l2 d.
Proof.
  destruct (Nat.ltb_spec k (length l1)); [now apply app_nth1|now apply app_nth2].
Qed.

Lemma nth_seq_if (k a m d : nat) :
  nth k (seq a m) d = if k <? m then a + k else d.
Proof.
  destruct (Nat.ltb_spec k m); [now apply seq_nth|].
  apply nth_overflow. now rewrite length_seq.
Qed.

Lemma filter_seq_all (P : nat -> bool) (a k : nat) :
  (forall x, a <= x < a + k -> P x = true) -> filter P (seq a k) = seq a k.
Proof.
  intros H. apply forallb_filter_id. apply forallb_forall.
  intros x Hx. apply in_seq in Hx. now apply H.
Qed.

Lemma seq_split (a k x : nat) :
  a <= x < a + k -> seq a k = seq a (x - a) ++ x :: seq (S x) (a + k - S x).
Proof.
  intros H. replace k with ((x - a) + S (a + k - S x)) at 1 by lia.
  rewrite seq_app. simpl. now replace (a + (x - a)) with x by lia.
Qed.

Lemma filter_cons_false {A} (P : A -> bool) (x : A) (l : list A) :
  P x = false -> filter P (x :: l) = filter P l.
Proof. intros H. simpl. now rewrite H. Qed.

Lemma notin_two_lt (n c t : nat) :
  c < t -> t < n ->
  notin n [c; t] = seq 0 c ++ seq (S c) (t - S c) ++ seq (S t) (n - S t).
Proof.
  intros Hct Htn. unfold notin.
  rewrite (seq_split 0 n c) by lia.
  rewrite (seq_split (S c) (0 + n - S c) t) by lia.
  rewrite filter_app, filter_cons_false, filter_app, filter_cons_false.
  - replace (c - 0) with c by lia. replace (S c + (0 + n - S c) - S t) with (n - S t) by lia.
    rewrite !filter_seq_all; [reflexivity| | |];
      intros x Hx; rewrite !mem_cons; simpl;
      destruct (Nat.eqb_spec x c), (Nat.eqb_spec x t); simpl; try reflexivity; lia.
  - rewrite !mem_cons, Nat.eqb_refl. simpl. now rewrite orb_true_r.
  - rewrite !mem_cons, Nat.eqb_refl. reflexivity.
Qed.

Lemma notin_comm (n c t : nat) : notin n [c; t] = notin n [t; c].
Proof.
  unfold notin. apply filter_ext. intros x. rewrite !mem_cons. simpl.
  now destruct (x =? c), (x =? t).
Qed.

Lemma length_notin_two (n c t : nat) :
  c < n -> t < n -> c <> t -> length (notin n [c; t]) = n - 2.
Proof.
  intros Hc Ht Hne. destruct (Nat.lt_ge_cases c t).
  - rewrite notin_two_lt by lia. rewrite !length_app, !length_seq. lia.
  - rewrite notin_comm, notin_two_lt by lia. rewrite !length_app, !length_seq. lia.
Qed.

Lemma list_insert_app {A} (k : nat) (x : A) (l1 l2 : list A) :
  length l1 = k -> list_insert k x (l1 ++ l2) = l1 ++ x :: l2.
Proof.
  intros <-. unfold list_insert.
  rewrite firstn_app, Nat.sub_diag, firstn_all, skipn_app, Nat.sub_diag, skipn_all.
  simpl. now rewrite app_nil_r.
Qed.


Lemma order2_lt (n c t : nat) :
  c < t -> t < n ->
  order2 n c t = seq 2 c ++ 0 :: seq (c + 2) (t - S c) ++ 1 :: seq (S t) (n - S t).
Proof.
  intros Hct Htn. unfold order2. rewrite notin_two_lt by lia. simpl.
  replace (c <? t) with true by (symmetry; apply Nat.ltb_lt; lia). simpl.
  replace (n - 2) with (c + ((t - S c) + (n - S t))) by lia.
  rewrite seq_app, seq_app.
  rewrite list_insert_app by apply length_seq.
  replace (2 + c + (t - S c)) with (S t) by lia. replace (2 + c) with (c + 2) by lia.
  change (seq 2 c ++ 0 :: seq (c + 2) (t - S c) ++ seq (S t) (n - S t))
    with (seq 2 c ++ (0 :: seq (c + 2) (t - S c)) ++ seq (S t) (n - S t)).
  rewrite app_assoc, list_insert_app.
  - now rewrite <- app_assoc.
  - rewrite length_app. simpl. rewrite !length_seq. lia.
Qed.

Lemma order2_gt (n c t : nat) :
  t < c -> c < n ->
  order2 n c t = seq 2 t ++ 1 :: seq (t + 2) (c - S t) ++ 0 :: seq (S c) (n - S c).
Proof.
  intros Htc Hcn. unfold order2. rewrite notin_two_lt by lia. simpl.
  replace (c <? t) with false by (symmetry; apply Nat.ltb_ge; lia).
  replace (c =? t) with false by (symmetry; apply Nat.eqb_neq; lia). simpl.
  replace (n - 2) with (t + ((c - S t) + (n - S c))) by lia.
  rewrite seq_app, seq_app.
  rewrite list_insert_app by apply length_seq.
  replace (2 + t + (c - S t)) with (S c) by lia. replace (2 + t) with (t + 2) by lia.
  change (seq 2 t ++ 1 :: seq (t + 2) (c - S t) ++ seq (S c) (n - S c))
    with (seq 2 t ++ (1 :: seq (t + 2) (c - S t)) ++ seq (S c) (n - S c)).
  rewrite app_assoc, list_insert_app.
  - now rewrite <- app_assoc.
  - rewrite length_app. simpl. rewrite !length_seq. lia.
Qed.

Ltac bcases :=
  repeat match goal with
  | |- context [?a <=? ?b] => destruct (Nat.leb_spec a b)
  | |- context [?a <? ?b] => destruct (Nat.ltb_spec a b)
  | |- context [?a =? ?b] => destruct (Nat.eqb_spec a b)
  end; cbn [andb orb negb]; try lia.

Ltac poslist :=
  repeat (rewrite ?position_app, ?position_cons, ?position_seq, ?mem_seq,
            ?mem_cons, ?mem_app, ?nth_app_if, ?nth_seq_if,
            ?length_seq, ?length_app; cbn [length nth]).

Lemma position_order2_0 (n c t : nat) :
  c < n -> t < n -> c <> t -> position 0 (order2 n c t) = c.
Proof.
  intros Hc Ht Hne. destruct (Nat.lt_ge_cases c t).
  - rewrite order2_lt by lia. poslist. bcases.
  - rewrite order2_gt by lia. poslist. bcases.
Qed.

Lemma position_order2_1 (n c t : nat) :
  c < n -> t < n -> c <> t -> position 1 (order2 n c t) = t.
Proof.
  intros Hc Ht Hne. destruct (Nat.lt_ge_cases c t).
  - rewrite order2_lt by lia. poslist. bcases.
  - rewrite order2_gt by lia. poslist. bcases.
Qed.

Lemma position_order2_rest (n c t k : nat) :
  c < n -> t < n -> c <> t -> k < n - 2 ->
  position (k + 2) (order2 n c t) = nth k (notin n [c; t]) 0.
Proof.
  intros Hc Ht Hne Hk. destruct (Nat.lt_ge_cases c t).
  - rewrite order2_lt, notin_two_lt by lia. poslist. bcases.
  - rewrite order2_gt, notin_comm, notin_two_lt by lia. poslist. bcases.
Qed.

Lemma is_perm_order2 (n c t : nat) :
  c < n -> t < n -> c <> t -> is_perm n (order2 n c t) = true.
Proof.
  intros Hc Ht Hne. unfold is_perm. apply andb_true_iff. split.
  - apply Nat.eqb_eq. destruct (Nat.lt_ge_cases c t).
    + rewrite order2_lt by lia. poslist. lia.
    + rewrite order2_gt by lia. poslist. lia.
  - apply forallb_forall. intros m Hm. apply in_seq in Hm.
    destruct (Nat.lt_ge_cases c t).
    + rewrite order2_lt by lia. poslist. bcases.
    + rewrite order2_gt by lia. poslist. bcases.
Qed.

Lemma in_notin (n m : nat) (axes : list nat) :
  In m (notin n axes) <-> m < n /\ mem m axes = false.
Proof.
  unfold notin. rewrite filter_In, in_seq, negb_true_iff. intuition lia.
Qed.

Lemma is_perm_axes2 (n c t : nat) :
  c < n -> t < n -> c <> t -> is_perm n (c :: t :: notin n [c; t]) = true.
Proof.
  intros Hc Ht Hne. unfold is_perm. apply andb_true_iff. split.
  - apply Nat.eqb_eq. simpl. rewrite length_notin_two by lia. lia.
  - apply forallb_forall. intros m Hm. apply in_seq in Hm.
    rewrite !mem_cons.
    destruct (Nat.eqb_spec m c); [reflexivity|].
    destruct (Nat.eqb_spec m t); [reflexivity|]. simpl.
    apply mem_In, in_notin. split; [lia|].
    rewrite !mem_cons. simpl.
    destruct (Nat.eqb_spec m c), (Nat.eqb_spec m t); try reflexivity; lia.
Qed.

Lemma nth_position (m : nat) (l : list nat) (d : nat) :
  In m l -> position m l < length l /\ nth (position m l) l d = m.
Proof.
  induction l as [|x l IH]; intros Hin; [destruct Hin|].
  simpl. destruct (Nat.eqb_spec x m) as [->|Hne].
  - split; [lia|reflexivity].
  - destruct Hin as [->|Hin]; [congruence|].
    destruct (IH Hin). split; [lia|assumption].
Qed.

Lemma permute_index_order2 (n c t : nat) (idx : index) :
  c < n -> t < n -> c <> t ->
  permute_index n (order2 n c t) idx =
  nth c idx false :: nth t idx false :: map (fun m => nth m idx false) (notin n [c; t]).
Proof.
  intros Hc Ht Hne. unfold permute_index.
  destruct n as [|[|n]]; try lia.
  cbn [seq map].
  rewrite position_order2_0, position_order2_1 by lia.
  f_equal. f_equal.
  apply nth_ext with (d := nth (position 0 (order2 (S (S n)) c t)) idx false)
                     (d' := nth 0 idx false).
  - rewrite !length_map, length_seq, length_notin_two by lia. lia.
  - intros k Hk. rewrite length_map, length_seq in Hk.
    rewrite (map_nth (fun m => nth (position m (order2 (S (S n)) c t)) idx false)).
    rewrite (map_nth (fun m => nth m idx false)).
    rewrite seq_nth by lia.
    replace (2 + k) with (k + 2) by lia.
    rewrite position_order2_rest by lia. reflexivity.
Qed.

Lemma permute_index_axes2 (n c t : nat) (s0 s1 : bool) (idx : index) :
  c < n -> t < n -> c <> t -> length idx = n ->
  permute_index n (c :: t :: notin n [c; t])
    (s0 :: s1 :: map (fun m => nth m idx false) (notin n [c; t]))
  = set2 c t s0 s1 idx.
Proof.
  intros Hc Ht Hne Hlen. unfold permute_index, set2. rewrite Hlen.
  apply map_ext_in. intros m Hm. apply in_seq in Hm.
  rewrite !position_cons.
  destruct (Nat.eqb_spec m c); [reflexivity|].
  destruct (Nat.eqb_spec m t); [reflexivity|].
  cbn [nth].
  assert (Hin : In m (notin n [c; t])).
  { apply in_notin. split; [lia|]. rewrite !mem_cons. simpl.
    destruct (Nat.eqb_spec m c), (Nat.eqb_spec m t); try reflexivity; lia. }
  destruct (nth_position m _ 0 Hin) as [Hlt Hnth].
  rewrite (nth_indep _ false (nth 0 idx false)) by now rewrite length_map.
  rewrite (map_nth (fun m => nth m idx false)). now rewrite Hnth.
Qed.

Lemma norm_axis_lt (e : exn) (n : nat) (z : Z) (k : nat) :
  norm_axis e n z = Ret k -> k < n.
Proof.
  unfold norm_axis.
  destruct ((0 <=? z)%Z && (z <? Z.of_nat n)%Z) eqn:E1.
  - intros [= <-]. apply andb_true_iff in E1 as [H1 H2]. lia.
  - destruct ((- Z.of_nat n <=? z)%Z && (z <? 0)%Z) eqn:E2; [|discriminate].
    intros [= <-]. apply andb_true_iff in E2 as [H1 H2]. lia.
Qed.

Lemma norm_axis_exn (e e' : exn) (n : nat) (z : Z) (k : nat) :
  norm_axis e n z = Ret k -> norm_axis e' n z = Ret k.
Proof.
  unfold norm_axis.
  destruct ((0 <=? z)%Z && (z <? Z.of_nat n)%Z); [auto|].
  destruct ((- Z.of_nat n <=? z)%Z && (z <? 0)%Z); [auto|discriminate].
Qed.

Lemma norm_axis_of_nat (e : exn) (n k : nat) :
  k < n -> norm_axis e n (Z.of_nat k) = Ret k.
Proof.
  intros H. unfold norm_axis.
  replace ((0 <=? Z.of_nat k)%Z && (Z.of_nat k <? Z.of_nat n)%Z) with true.
  - now rewrite Nat2Z.id.
  - symmetry. apply andb_true_iff. split; [apply Z.leb_le|apply Z.ltb_lt]; lia.
Qed.

Lemma has_dup_two (c t : nat) : c <> t -> has_dup [c; t] = false.
Proof.
  intros H. simpl. destruct (Nat.eqb_spec c t); [contradiction|reflexivity].
Qed.

(** [tensordot(T, psi, ((2, 3), (c, t)))] followed by
    [moveaxis(., (0, 1), (c, t))] applies [T] to the axes [c] and [t]. *)
Lemma tensordot_moveaxis2 (T psi : ndarray) (zc zt : Z) (c t : nat) :
  ndim T = 4 -> transpose T [0; 1; 2; 3] = Ret T ->
  norm_axis IndexError (ndim psi) zc = Ret c ->
  norm_axis IndexError (ndim psi) zt = Ret t ->
  c <> t ->
  exists p1,
    tensordot T psi [2%Z; 3%Z] [zc; zt] = Ret p1 /\
    moveaxis p1 [0%Z; 1%Z] [zc; zt] = Ret (apply2 T psi c t).
Proof.
  intros HT HTT Hzc Hzt Hne.
  pose proof (norm_axis_lt _ _ _ _ Hzc) as Hc.
  pose proof (norm_axis_lt _ _ _ _ Hzt) as Ht.
  set (n := ndim psi) in *.
  unfold tensordot. cbn [length Nat.eqb negb].
  rewrite HT.
  change (norm_axes IndexError 4 [2%Z; 3%Z]) with (Ret (A:=list nat) [2; 3]).
  cbn [obind norm_axes]. fold n. rewrite Hzc, Hzt. cbn [obind].
  change (notin 4 [2; 3] ++ [2; 3]) with [0; 1; 2; 3].
  rewrite HTT. cbn [obind].
  unfold transpose at 1. fold n. cbn [app].
  rewrite is_perm_axes2 by assumption. cbn [obind].
  eexists. split; [reflexivity|].
  unfold moveaxis. cbn [ndim of_fun].
  change (length (notin 4 [2; 3])) with 2.
  rewrite length_notin_two by assumption.
  replace (2 + (n - 2)) with n by lia.
  cbn [norm_axes].
  assert (H0 : norm_axis AxisError n 0%Z = Ret 0)
    by (apply (norm_axis_of_nat AxisError n 0); lia).
  assert (H1 : norm_axis AxisError n 1%Z = Ret 1)
    by (apply (norm_axis_of_nat AxisError n 1); lia).
  rewrite H0, H1.
  rewrite (norm_axis_exn _ AxisError _ _ _ Hzc), (norm_axis_exn _ AxisError _ _ _ Hzt).
  cbn [obind]. change (has_dup [0; 1]) with false. cbn iota.
  rewrite has_dup_two by assumption. cbn [length Nat.eqb negb].
  fold (order2 n c t). unfold transpose. cbn [ndim].
  rewrite is_perm_order2 by assumption.
  f_equal. unfold apply2. fold n. apply of_fun_ext. intros idx Hidx.
  rewrite permute_index_order2 by assumption.
  rewrite get_of_fun
    by (cbn [length]; rewrite length_map, length_notin_two by assumption; lia).
  f_equal. apply map_ext_in. intros s Hs. apply in_all_indices in Hs.
  destruct s as [|s0 [|s1 [|s2 s]]]; try discriminate.
  cbn [firstn skipn app nth].
  f_equal. rewrite get_of_fun
    by (cbn [length]; rewrite length_map, length_notin_two by assumption; lia).
  now rewrite permute_index_axes2.
Qed.

Lemma map_nth_seq (idx : index) :
  map (fun m => nth m idx false) (seq 0 (length idx)) = idx.
Proof.
  apply nth_ext with (d := nth 0 idx false) (d' := false).
  - now rewrite length_map, length_seq.
  - intros k Hk. rewrite length_map, length_seq in Hk.
    rewrite (map_nth (fun m => nth m idx false)). now rewrite seq_nth.
Qed.

Lemma set2_same (c t : nat) (idx : index) :
  set2 c t (nth c idx false) (nth t idx false) idx = idx.
Proof.
  unfold set2. etransitivity; [|apply map_nth_seq]. apply map_ext. intros m.
  destruct (Nat.eqb_spec m c) as [->|]; [reflexivity|].
  destruct (Nat.eqb_spec m t) as [->|]; reflexivity.
Qed.

Lemma length_set2 (c t : nat) (s0 s1 : bool) (idx : index) :
  length (set2 c t s0 s1 idx) = length idx.
Proof. unfold set2. now rewrite length_map, length_seq. Qed.

Lemma nth_set2 (c t m : nat) (s0 s1 : bool) (idx : index) :
  m < length idx ->
  nth m (set2 c t s0 s1 idx) false =
  if m =? c then s0 else if m =? t then s1 else nth m idx false.
Proof.
  intros Hm. unfold set2.
  rewrite (nth_indep _ false
             ((fun m => if m =? c then s0 else if m =? t then s1 else nth m idx false) 0))
    by now rewrite length_map, length_seq.
  rewrite (map_nth (fun m => if m =? c then s0 else if m =? t then s1 else nth m idx false)).
  now rewrite seq_nth.
Qed.

Lemma transpose_CZ : transpose CZ_TENSOR [0; 1; 2; 3] = Ret CZ_TENSOR.
Proof. reflexivity. Qed.

Lemma transpose_SWAP : transpose SWAP_TENSOR [0; 1; 2; 3] = Ret SWAP_TENSOR.
Proof. reflexivity. Qed.

Lemma apply2_CZ (psi : ndarray) (c t : nat) :
  apply2 CZ_TENSOR psi c t = cz_phase c t psi.
Proof.
  unfold apply2, cz_phase. apply of_fun_ext. intros idx Hidx.
  cbn [all_indices map app nth Csum fold_right].
  pose proof (set2_same c t idx) as E.
  destruct (nth c idx false) eqn:Ec, (nth t idx false) eqn:Et; cbn [andb];
    unfold get at 1 3 5 7; cbn [CZ_TENSOR data offset length nth Nat.pow Nat.mul Nat.add];
    rewrite ?Cmul_0_l, ?Cmul_1_l, ?Cmul_opp1_l, ?Cadd_0_l, ?Cadd_0_r, E; reflexivity.
Qed.

Lemma apply2_SWAP (psi : ndarray) (c t : nat) :
  apply2 SWAP_TENSOR psi c t = swap_axes c t psi.
Proof.
  unfold apply2, swap_axes, swap_bits. apply of_fun_ext. intros idx Hidx.
  cbn [all_indices map app nth Csum fold_right].
  destruct (nth c idx false), (nth t idx false);
    unfold get at 1 3 5 7; cbn [SWAP_TENSOR data offset length nth Nat.pow Nat.mul Nat.add];
    rewrite ?Cmul_0_l, ?Cmul_1_l, ?Cadd_0_l, ?Cadd_0_r; reflexivity.
Qed.

(* ===================================================================== *)
(** * Norms of the tensors the lifecycle calls build *)
(* ===================================================================== *)

Local Open Scope R_scope.

Lemma normsq_map_ext (f g : index -> C) (L : list index) :
  (forall x, In x L -> Cnorm2 (f x) = Cnorm2 (g x)) ->
  normsq (map f L) = normsq (map g L).
Proof.
  intros H. unfold normsq. rewrite !map_map. f_equal. now apply map_ext_in.
Qed.

Lemma data_wf (psi : ndarray) :
  wf psi -> data psi = map (get psi) (all_indices (ndim psi)).
Proof. intros H. rewrite <- (of_fun_get psi H) at 1. reflexivity. Qed.

Lemma normsq_cz_phase (c t : nat) (psi : ndarray) :
  wf psi -> normsq (data (cz_phase c t psi)) = normsq (data psi).
Proof.
  intros H. rewrite (data_wf psi H). unfold cz_phase. cbn [data of_fun].
  apply normsq_map_ext. intros idx _.
  destruct (nth c idx false && nth t idx false); [apply Cnorm2_opp|reflexivity].
Qed.

Lemma cz_phase_involutive (c t : nat) (psi : ndarray) :
  wf psi -> cz_phase c t (cz_phase c t psi) = psi.
Proof.
  intros H. rewrite <- (of_fun_get psi H) at 2.
  unfold cz_phase at 1. cbn [ndim cz_phase of_fun].
  apply of_fun_ext. intros idx Hidx. unfold cz_phase.
  rewrite get_of_fun by assumption.
  destruct (nth c idx false && nth t idx false); [apply Copp_involutive|reflexivity].
Qed.

Lemma swap_bits_length (c t : nat) (idx : index) :
  length (swap_bits c t idx) = length idx.
Proof. apply length_set2. Qed.

Lemma swap_bits_involutive (c t : nat) (idx : index) :
  (c < length idx)%nat -> (t < length idx)%nat ->
  swap_bits c t (swap_bits c t idx) = idx.
Proof.
  intros Hc Ht. unfold swap_bits at 1. unfold set2.
  rewrite swap_bits_length.
  etransitivity; [|apply map_nth_seq]. apply map_ext_in. intros m Hm.
  apply in_seq in Hm. unfold swap_bits.
  rewrite !nth_set2 by lia. rewrite !Nat.eqb_refl.
  destruct (Nat.eqb_spec m c) as [->|]; [now destruct (Nat.eqb_spec t c) as [->|]|].
  destruct (Nat.eqb_spec m t) as [->|]; reflexivity.
Qed.

Lemma swap_bits_perm (n c t : nat) :
  (c < n)%nat -> (t < n)%nat ->
  Permutation (map (swap_bits c t) (all_indices n)) (all_indices n).
Proof.
  intros Hc Ht. apply NoDup_Permutation.
  - apply Finite.Injective_map_NoDup_in; [|apply NoDup_all_indices].
    intros x y Hx Hy E. apply in_all_indices in Hx, Hy.
    rewrite <- (swap_bits_involutive c t x), <- (swap_bits_involutive c t y) by lia.
    now rewrite E.
  - apply NoDup_all_indices.
  - intros x. rewrite in_map_iff. split.
    + intros [y [<- Hy]]. apply in_all_indices. rewrite swap_bits_length.
      now apply in_all_indices.
    + intros Hx. apply in_all_indices in Hx. exists (swap_bits c t x). split.
      * apply swap_bits_involutive; lia.
      * apply in_all_indices. now rewrite swap_bits_length.
Qed.

Lemma normsq_swap_axes (c t : nat) (psi : ndarray) :
  wf psi -> (c < ndim psi)%nat -> (t < ndim psi)%nat ->
  normsq (data (swap_axes c t psi)) = normsq (data psi).
Proof.
  intros H Hc Ht. rewrite (data_wf psi H). unfold swap_axes. cbn [data of_fun].
  rewrite <- (map_map (swap_bits c t) (get psi)).
  apply normsq_perm, Permutation_map. now apply swap_bits_perm.
Qed.

Lemma normsq_scale_list (a : C) (y : list C) :
  normsq (map (Cmul a) y) = Cnorm2 a * normsq y.
Proof.
  unfold normsq. induction y as [|b y IH]; simpl; [ring|].
  rewrite IH, Cnorm2_mul. ring.
Qed.

Lemma normsq_kron (x y : list C) : normsq (kron x y) = normsq x * normsq y.
Proof.
  unfold kron. induction x as [|a x IH]; simpl.
  - unfold normsq. simpl. ring.
  - rewrite normsq_app, IH, normsq_scale_list.
    change (normsq (a :: x)) with (Cnorm2 a + normsq x). ring.
Qed.

Lemma length_kron (x y : list C) : length (kron x y) = (length x * length y)%nat.
Proof.
  unfold kron. apply flat_map_constant_length. intros a _. apply length_map.
Qed.

Lemma normsq_plus : normsq (data plus) = 1.
Proof.
  unfold normsq, plus. simpl. unfold Cnorm2, RtoC. cbn [Re Im].
  assert (H : sqrt 2 * sqrt 2 = 2) by (apply sqrt_sqrt; lra).
  assert (H0 : sqrt 2 <> 0) by (intros E; rewrite E in H; lra).
  field_simplify; [|assumption]. rewrite <- Rsqr_pow2. unfold Rsqr. rewrite H. field.
Qed.

Local Close Scope R_scope.

(* ===================================================================== *)
(** * Python lists *)
(* ===================================================================== *)

Lemma list_index_In (l : list Z) (x : Z) :
  In x l -> exists k, list_index l x = Ret k /\ k < length l.
Proof.
  induction l as [|y l IH]; intros Hin; [destruct Hin|]. simpl.
  destruct (Z.eqb_spec y x) as [->|Hne].
  - exists 0. split; [reflexivity|lia].
  - destruct Hin as [->|Hin]; [congruence|].
    destruct (IH Hin) as [k [-> Hk]]. exists (S k). split; [reflexivity|lia].
Qed.

Lemma list_index_nth (l : list Z) (x : Z) (k : nat) :
  list_index l x = Ret k -> k < length l /\ nth_error l k = Some x.
Proof.
  revert k. induction l as [|y l IH]; intros k; simpl; [discriminate|].
  destruct (Z.eqb_spec y x) as [->|Hne].
  - intros [= <-]. split; [lia|reflexivity].
  - destruct (list_index l x) as [j|e]; simpl; [|discriminate].
    intros [= <-]. destruct (IH j eq_refl). split; [lia|assumption].
Qed.

Lemma list_index_inj (l : list Z) (a b : Z) (k : nat) :
  list_index l a = Ret k -> list_index l b = Ret k -> a = b.
Proof.
  intros Ha Hb. apply list_index_nth in Ha as [_ Ha], Hb as [_ Hb]. congruence.
Qed.

Lemma list_remove_In (l : list Z) (x : Z) :
  In x l -> exists l', list_remove l x = Ret l' /\ S (length l') = length l.
Proof.
  induction l as [|y l IH]; intros Hin; [destruct Hin|]. simpl.
  destruct (Z.eqb_spec y x) as [->|Hne].
  - exists l. split; reflexivity.
  - destruct Hin as [->|Hin]; [congruence|].
    destruct (IH Hin) as [l' [-> Hl]]. exists (y :: l'). split; [reflexivity|simpl; lia].
Qed.

Lemma list_remove_NoDup (l l' : list Z) (x : Z) :
  NoDup l -> list_remove l x = Ret l' -> ~ In x l'.
Proof.
  revert l'. induction l as [|z l IH]; intros l' Hnd; simpl; [discriminate|].
  inversion Hnd as [|? ? Hz Hl]; subst.
  destruct (Z.eqb_spec z x) as [->|Hne].
  - now intros [= <-].
  - destruct (list_remove l x) as [r|e]; simpl; [|discriminate].
    intros [= <-] [E|Hin]; [congruence|]. now apply (IH r).
Qed.

(* ===================================================================== *)
(** * The two-axis contraction of [entangle] and [swap] *)
(* ===================================================================== *)

Lemma notin_one (n c : nat) :
  c < n -> notin n [c; c] = seq 0 c ++ seq (S c) (n - S c).
Proof.
  intros Hc. unfold notin. rewrite (seq_split 0 n c) by lia.
  rewrite filter_app, filter_cons_false.
  - replace (c - 0) with c by lia. replace (0 + n - S c) with (n - S c) by lia.
    rewrite !filter_seq_all; [reflexivity| |];
      intros x Hx; rewrite !mem_cons; simpl;
      destruct (Nat.eqb_spec x c); simpl; try reflexivity; lia.
  - rewrite !mem_cons, Nat.eqb_refl. reflexivity.
Qed.

Lemma is_perm_repeated (n c : nat) :
  c < n -> is_perm n (c :: c :: notin n [c; c]) = false.
Proof.
  intros Hc. unfold is_perm. apply andb_false_iff. left.
  apply Nat.eqb_neq. rewrite notin_one by assumption.
  cbn [length]. rewrite length_app, !length_seq. lia.
Qed.

(** Either the contraction raises, or both calls return and [T] has been
    applied to two distinct axes of the tensor. *)
Lemma two_axes_outcome (T psi : ndarray) (zc zt : Z) :
  ndim T = 4 -> transpose T [0; 1; 2; 3] = Ret T ->
  (exists e, tensordot T psi [2%Z; 3%Z] [zc; zt] = Raise e) \/
  (exists c t p1,
      c < ndim psi /\ t < ndim psi /\ c <> t /\
      norm_axis IndexError (ndim psi) zc = Ret c /\
      norm_axis IndexError (ndim psi) zt = Ret t /\
      tensordot T psi [2%Z; 3%Z] [zc; zt] = Ret p1 /\
      moveaxis p1 [0%Z; 1%Z] [zc; zt] = Ret (apply2 T psi c t)).
Proof.
  intros HT HTT.
  destruct (norm_axis IndexError (ndim psi) zc) as [c|e] eqn:Hzc.
  2:{ left. exists e. unfold tensordot. cbn [length Nat.eqb negb]. rewrite HT.
      change (norm_axes IndexError 4 [2%Z; 3%Z]) with (Ret (A:=list nat) [2; 3]).
      cbn [obind norm_axes]. now rewrite Hzc. }
  destruct (norm_axis IndexError (ndim psi) zt) as [t|e] eqn:Hzt.
  2:{ left. exists e. unfold tensordot. cbn [length Nat.eqb negb]. rewrite HT.
      change (norm_axes IndexError 4 [2%Z; 3%Z]) with (Ret (A:=list nat) [2; 3]).
      cbn [obind norm_axes]. now rewrite Hzc, Hzt. }
  pose proof (norm_axis_lt _ _ _ _ Hzc) as Hc.
  pose proof (norm_axis_lt _ _ _ _ Hzt) as Ht.
  destruct (Nat.eq_dec c t) as [->|Hne].
  - left. exists ValueError. unfold tensordot. cbn [length Nat.eqb negb]. rewrite HT.
    change (norm_axes IndexError 4 [2%Z; 3%Z]) with (Ret (A:=list nat) [2; 3]).
    cbn [obind norm_axes]. rewrite Hzc, Hzt. cbn [obind].
    change (notin 4 [2; 3] ++ [2; 3]) with [0; 1; 2; 3].
    rewrite HTT. cbn [obind]. unfold transpose. cbn [app].
    now rewrite is_perm_repeated.
  - right. destruct (tensordot_moveaxis2 T psi zc zt c t HT HTT Hzc Hzt Hne)
      as [p1 [H1 H2]].
    exists c, t, p1. repeat split; assumption.
Qed.

(* ===================================================================== *)
(** * The methods, one by one *)
(* ===================================================================== *)

Import StateVec.

Ltac munfold :=
  unfold bind, ret, lift, raise, get_psi, set_psi, read_nodes, write_nodes,
    random_random; cbn [psi node_index heap rng cursor].

Lemma prepare_state_spec (target : Z) (s : statevec) (w : world) :
  wf (psi s) ->
  prepare_state target s w =
  (Ret tt,
   mk_statevec (mk_ndarray (ndim (psi s) + 1) (kron (data (psi s)) (data plus)))
               (node_index s),
   mk_world (heap_set (heap w) (node_index s) (heap w (node_index s) ++ [target]))
            (rng w) (cursor w)).
Proof.
  intros H. unfold prepare_state, tensor, reshape. munfold.
  rewrite length_kron, H. cbn [plus data length ndim].
  replace (2 ^ ndim (psi s) * 2 =? 2 ^ (ndim (psi s) + 1)) with true.
  - reflexivity.
  - symmetry. apply Nat.eqb_eq. rewrite Nat.pow_add_r. simpl. lia.
Qed.

Lemma entangle_spec (a b : Z) (c t : nat) (s : statevec) (w : world) :
  wf_state s w ->
  list_index (heap w (node_index s)) a = Ret c ->
  list_index (heap w (node_index s)) b = Ret t ->
  c <> t ->
  entangle a b s w = (Ret tt, mk_statevec (cz_phase c t (psi s)) (node_index s), w).
Proof.
  intros [Hwf Hn] Ha Hb Hne.
  pose proof (list_index_nth _ _ _ Ha) as [Hc _].
  pose proof (list_index_nth _ _ _ Hb) as [Ht _].
  rewrite <- Hn in Hc, Ht.
  destruct (tensordot_moveaxis2 CZ_TENSOR (psi s) (Z.of_nat c) (Z.of_nat t) c t
              eq_refl transpose_CZ (norm_axis_of_nat _ _ _ Hc)
              (norm_axis_of_nat _ _ _ Ht) Hne) as [p1 [H1 H2]].
  unfold entangle. munfold. rewrite Ha, Hb, H1, H2, apply2_CZ. reflexivity.
Qed.

(** With the same label twice [entangle] raises and changes nothing. *)
Lemma entangle_same_label (a : Z) (s : statevec) (w : world) :
  In a (heap w (node_index s)) ->
  exists e, entangle a a s w = (Raise e, s, w).
Proof.
  intros Ha. destruct (list_index_In _ _ Ha) as [c [Hc _]].
  unfold entangle. munfold. rewrite Hc.
  destruct (two_axes_outcome CZ_TENSOR (psi s) (Z.of_nat c) (Z.of_nat c)
              eq_refl transpose_CZ)
    as [[e He]|[c' [t' [p1 [_ [_ [Hne [H1 [H2 _]]]]]]]]].
  - rewrite He. now exists e.
  - congruence.
Qed.

(** [swap] takes its two arguments for axis numbers: whatever the list of
    labels holds, it exchanges the axes [c] and [t] of the tensor. *)
Lemma swap_spec (c t : nat) (s : statevec) (w : world) :
  c < ndim (psi s) -> t < ndim (psi s) -> c <> t ->
  swap (Z.of_nat c, Z.of_nat t) s w =
  (Ret tt, mk_statevec (swap_axes c t (psi s)) (node_index s), w).
Proof.
  intros Hc Ht Hne.
  destruct (tensordot_moveaxis2 SWAP_TENSOR (psi s) (Z.of_nat c) (Z.of_nat t) c t
              eq_refl transpose_SWAP (norm_axis_of_nat _ _ _ Hc)
              (norm_axis_of_nat _ _ _ Ht) Hne) as [p1 [H1 H2]].
  unfold swap. munfold. cbn [fst snd]. rewrite H1, H2, apply2_SWAP. reflexivity.
Qed.

Lemma keeps_norm_prepare (target : Z) : keeps_norm (prepare_state target).
Proof.
  intros s w H. rewrite prepare_state_spec by assumption. cbn [fst snd psi data].
  split.
  - unfold wf. cbn [data ndim]. rewrite length_kron, H. cbn [plus data length].
    rewrite Nat.pow_add_r. simpl. lia.
  - rewrite normsq_kron, normsq_plus. apply Rmult_1_r.
Qed.

Lemma keeps_norm_entangle (a b : Z) : keeps_norm (entangle a b).
Proof.
  intros s w H. unfold entangle. munfold.
  destruct (list_index (heap w (node_index s)) a) as [c|e]; [|now split].
  destruct (list_index (heap w (node_index s)) b) as [t|e]; [|now split].
  destruct (two_axes_outcome CZ_TENSOR (psi s) (Z.of_nat c) (Z.of_nat t)
              eq_refl transpose_CZ)
    as [[e He]|[c' [t' [p1 [Hc [Ht [Hne [_ [_ [H1 H2]]]]]]]]]].
  - rewrite He. now split.
  - rewrite H1, H2, apply2_CZ. cbn [fst snd psi]. split.
    + apply wf_of_fun.
    + now apply normsq_cz_phase.
Qed.

Lemma keeps_norm_swap (qubits : Z * Z) : keeps_norm (swap qubits).
Proof.
  intros s w H. unfold swap. munfold.
  destruct (two_axes_outcome SWAP_TENSOR (psi s) (fst qubits) (snd qubits)
              eq_refl transpose_SWAP)
    as [[e He]|[c' [t' [p1 [Hc [Ht [Hne [_ [_ [H1 H2]]]]]]]]]].
  - rewrite He. now split.
  - rewrite H1, H2, apply2_SWAP. cbn [fst snd psi]. split.
    + apply wf_of_fun.
    + now apply normsq_swap_axes.
Qed.

(** The method [single_qubit_evolution] raises whatever it is given: the
    object [self] has no axis to contract. *)
Lemma norm_axis_zero (e : exn) (z : Z) : norm_axis e 0 z = Raise e.
Proof.
  unfold norm_axis. cbn [Z.of_nat Z.opp].
  destruct (Z.leb_spec 0 z), (Z.ltb_spec z 0); cbn [andb]; try reflexivity; lia.
Qed.

Lemma single_qubit_evolution_self (s : statevec) (op : ndarray) (index : Z) :
  single_qubit_evolution (PyStateVec s) op index = Raise IndexError.
Proof.
  unfold single_qubit_evolution, tensordot_obj. cbn [length Nat.eqb negb norm_axes].
  rewrite norm_axis_zero.
  destruct (norm_axis IndexError (ndim op) 1) as [k|e] eqn:E; cbn [obind].
  - reflexivity.
  - unfold norm_axis in E.
    destruct ((0 <=? 1)%Z && (1 <? Z.of_nat (ndim op))%Z); [discriminate|].
    destruct ((- Z.of_nat (ndim op) <=? 1)%Z && (1 <? 0)%Z); [discriminate|].
    now injection E as <-.
Qed.

Lemma single_qubit_evolution_method_raises (op : ndarray) (index : Z)
    (s : statevec) (w : world) :
  single_qubit_evolution_method op index s w = (Raise IndexError, s, w).
Proof.
  unfold single_qubit_evolution_method. now rewrite single_qubit_evolution_self.
Qed.

Lemma keeps_norm_apply_correction (type : string) (index : Z) (domain results : list Z) :
  keeps_norm (apply_correction type index domain results).
Proof.
  intros s w H. unfold apply_correction. munfold.
  destruct (sum_at results domain 0) as [parity|e]; [|now split].
  destruct (parity mod 2 =? 1)%Z; [|now split].
  destruct (list_index (heap w (node_index s)) index) as [k|e]; [|now split].
  rewrite single_qubit_evolution_method_raises. now split.
Qed.

Lemma keeps_norm_ret {A} (a : A) : keeps_norm (ret a).
Proof. intros s w H. now split. Qed.

Lemma keeps_norm_bind {A B} (m : M A) (k : A -> M B) :
  keeps_norm m -> (forall a, keeps_norm (k a)) -> keeps_norm (bind m k).
Proof.
  intros Hm Hk s w H. specialize (Hm s w H). unfold bind.
  destruct (m s w) as [[o s'] w']. cbn [fst snd] in Hm. destruct Hm as [Hwf Hn].
  destruct o as [a|e]; [|now split].
  destruct (Hk a s' w' Hwf) as [Hwf' Hn']. split; [assumption|congruence].
Qed.

Lemma keeps_norm_do_call (E : pauli_env) (c : call) :
  lifecycle c -> keeps_norm (do_call E c).
Proof.
  destruct c; intros Hc; try destruct Hc; cbn [do_call];
    apply keeps_norm_bind; try (intros; apply keeps_norm_ret).
  - apply keeps_norm_prepare.
  - apply keeps_norm_entangle.
  - apply keeps_norm_swap.
  - apply keeps_norm_apply_correction.
Qed.

Lemma Forall_prefix {A} (P : A -> Prop) (k : nat) (l : list A) :
  Forall P l -> Forall P (firstn k l).
Proof.
  intros H. revert k. induction H as [|x l Hx Hl IH]; intros [|k]; simpl;
    constructor; auto.
Qed.

Lemma keeps_norm_run (E : pauli_env) (cs : list call) :
  Forall lifecycle cs -> keeps_norm (run E cs).
Proof.
  induction 1 as [|c cs Hc Hcs IH]; cbn [run].
  - apply keeps_norm_ret.
  - apply keeps_norm_bind; [now apply keeps_norm_do_call|].
    intros o. apply keeps_norm_bind; [exact IH|]. intros. apply keeps_norm_ret.
Qed.

(* ===================================================================== *)
(** * Slices along one axis *)
(* ===================================================================== *)

Lemma length_list_insert (k : nat) (b : bool) (idx : index) :
  length (list_insert k b idx) = S (length idx).
Proof.
  unfold list_insert. rewrite length_app. cbn [length].
  rewrite length_firstn, length_skipn. lia.
Qed.

Lemma drop_axis_insert (k : nat) (b : bool) (idx : index) :
  k <= length idx -> drop_axis k (list_insert k b idx) = idx.
Proof.
  intros Hk. unfold drop_axis, list_insert.
  assert (Hl : length (firstn k idx) = k) by (rewrite length_firstn; lia).
  rewrite firstn_app, Hl, Nat.sub_diag, firstn_O, app_nil_r.
  rewrite firstn_firstn, Nat.min_id.
  rewrite skipn_app, Hl.
  rewrite (skipn_all2 (n := S k) (firstn k idx)) by lia.
  replace (S k - k) with 1 by lia. cbn [skipn app].
  apply firstn_skipn.
Qed.

Lemma nth_list_insert (k : nat) (b : bool) (idx : index) :
  k <= length idx -> nth k (list_insert k b idx) false = b.
Proof.
  intros Hk. unfold list_insert.
  rewrite app_nth2; rewrite length_firstn; [|lia].
  replace (k - Nat.min k (length idx)) with 0 by lia. reflexivity.
Qed.

Lemma skipn_cons_nth (k : nat) (idx : index) :
  k < length idx -> skipn k idx = nth k idx false :: skipn (S k) idx.
Proof.
  revert k. induction idx as [|x idx IH]; intros k Hk; [simpl in Hk; lia|].
  destruct k as [|k]; [reflexivity|]. simpl in Hk.
  change (skipn k idx = nth k idx false :: skipn (S k) idx). apply IH. lia.
Qed.

Lemma insert_drop_axis (k : nat) (idx : index) :
  k < length idx -> list_insert k (nth k idx false) (drop_axis k idx) = idx.
Proof.
  intros Hk. unfold drop_axis, list_insert.
  assert (Hl : length (firstn k idx) = k) by (rewrite length_firstn; lia).
  rewrite firstn_app, Hl, Nat.sub_diag, firstn_O, app_nil_r.
  rewrite firstn_firstn, Nat.min_id.
  rewrite skipn_app, Hl, Nat.sub_diag.
  rewrite (skipn_all2 (n := k) (firstn k idx)) by lia.
  rewrite skipn_O, app_nil_l, <- skipn_cons_nth by assumption.
  apply firstn_skipn.
Qed.

Lemma length_drop_axis (k : nat) (idx : index) :
  k < length idx -> length (drop_axis k idx) = length idx - 1.
Proof.
  intros Hk. unfold drop_axis. rewrite length_app, length_firstn, length_skipn. lia.
Qed.

Lemma slices_perm (n k : nat) :
  k < n ->
  Permutation (all_indices n)
    (map (list_insert k false) (all_indices (n - 1)) ++
     map (list_insert k true) (all_indices (n - 1))).
Proof.
  intros Hk.
  assert (Hinj : forall b x y,
             In x (all_indices (n - 1)) -> In y (all_indices (n - 1)) ->
             list_insert k b x = list_insert k b y -> x = y).
  { intros b x y Hx Hy E. apply in_all_indices in Hx, Hy.
    rewrite <- (drop_axis_insert k b x), <- (drop_axis_insert k b y) by lia.
    now rewrite E. }
  apply NoDup_Permutation.
  - apply NoDup_all_indices.
  - apply NoDup_app.
    + apply Finite.Injective_map_NoDup_in; [apply Hinj|apply NoDup_all_indices].
    + apply Finite.Injective_map_NoDup_in; [apply Hinj|apply NoDup_all_indices].
    + intros x H1 H2.
      apply in_map_iff in H1 as [y1 [<- Hy1]]. apply in_map_iff in H2 as [y2 [E Hy2]].
      apply in_all_indices in Hy1, Hy2.
      apply (f_equal (fun l => nth k l false)) in E.
      rewrite !nth_list_insert in E by lia. discriminate.
  - intros x. rewrite in_all_indices, in_app_iff, !in_map_iff. split.
    + intros Hx.
      assert (Hd : In (drop_axis k x) (all_indices (n - 1))).
      { apply in_all_indices. rewrite length_drop_axis; lia. }
      pose proof (insert_drop_axis k x ltac:(lia)) as E.
      destruct (nth k x false); [right|left]; exists (drop_axis k x); now split.
    + intros [[y [<- Hy]]|[y [<- Hy]]]; apply in_all_indices in Hy;
        rewrite length_list_insert; lia.
Qed.

Local Open Scope R_scope.

Lemma normsq_slices (psi : ndarray) (k : nat) :
  wf psi -> (k < ndim psi)%nat ->
  normsq (data psi) = normsq (data (slice psi false k)) + normsq (data (slice psi true k)).
Proof.
  intros H Hk. rewrite (data_wf psi H) at 1.
  rewrite (normsq_perm _ _ (Permutation_map (get psi) (slices_perm (ndim psi) k Hk))).
  rewrite map_app, normsq_app, !map_map. reflexivity.
Qed.

Lemma normsq_zero (f : index -> C) (L : list index) :
  (forall x, In x L -> f x = C0) -> normsq (map f L) = 0.
Proof.
  intros H. unfold normsq. induction L as [|x L IH]; simpl; [reflexivity|].
  rewrite IH by (intros; apply H; now right).
  rewrite (H x) by now left. unfold Cnorm2, C0. cbn [Re Im]. ring.
Qed.

Lemma normsq_divr (a : ndarray) (x : R) :
  x <> 0 -> normsq (data (divr a x)) = normsq (data a) / (x * x).
Proof.
  intros Hx. unfold divr. cbn [data]. unfold normsq.
  induction (data a) as [|z l IH]; simpl; [field; assumption|].
  rewrite IH. destruct z as [u v]. unfold Cnorm2, Cdivr. cbn [Re Im]. field. assumption.
Qed.

(** Dividing a tensor by its norm gives a tensor of norm 1. *)
Lemma _norm_normalized (a : ndarray) :
  _norm a <> 0 -> _norm (divr a (_norm a)) = 1.
Proof.
  intros Hn. rewrite (_norm_normsq (divr a (_norm a))).
  rewrite normsq_divr by assumption.
  rewrite _norm_normsq in *. rewrite sqrt_sqrt by apply normsq_nonneg.
  replace (normsq (data a) / normsq (data a)) with 1; [apply sqrt_1|].
  field. intros E. apply Hn. rewrite E. apply sqrt_0.
Qed.

Local Close Scope R_scope.

(* ===================================================================== *)
(** * Removing a measured qubit *)
(* ===================================================================== *)

Lemma list_remove_index (l : list Z) (x : Z) (k : nat) :
  list_index l x = Ret k -> list_remove l x = Ret (firstn k l ++ skipn (S k) l).
Proof.
  revert k. induction l as [|y l IH]; intros k; simpl; [discriminate|].
  destruct (Z.eqb_spec y x) as [->|Hne].
  - now intros [= <-].
  - destruct (list_index l x) as [j|e]; simpl; [|discriminate].
    intros [= <-]. now rewrite (IH j eq_refl).
Qed.

Lemma take_spec (psi : ndarray) (b : bool) (k : nat) :
  k < ndim psi -> take psi b (Z.of_nat k) = Ret (slice psi b k).
Proof. intros Hk. unfold take. now rewrite norm_axis_of_nat. Qed.

Lemma remove_qubit_spec (k : nat) (s : statevec) (w : world) :
  k < ndim (psi s) -> isclose (_norm (psi s)) 0 = false ->
  remove_qubit (Z.of_nat k) s w =
  (Ret tt,
   mk_statevec
     (let chosen := if isclose (_norm (slice (psi s) false k)) 0
                    then slice (psi s) true k else slice (psi s) false k in
      divr chosen (_norm chosen))
     (node_index s),
   w).
Proof.
  intros Hk Hn. unfold remove_qubit, normalize. munfold. rewrite Hn. munfold.
  rewrite take_spec by assumption.
  destruct (isclose (_norm (slice (psi s) false k)) 0); cbn [negb]; munfold.
  - now rewrite take_spec.
  - reflexivity.
Qed.

Local Open Scope R_scope.

Lemma isclose_zero_true : isclose 0 0 = true.
Proof.
  unfold isclose. destruct (Rle_dec _ _) as [|H]; [reflexivity|].
  exfalso. apply H. rewrite Rminus_0_r, Rabs_R0. lra.
Qed.

Lemma isclose_false_nonzero (x : R) : isclose x 0 = false -> x <> 0.
Proof. intros H E. rewrite E, isclose_zero_true in H. discriminate. Qed.

Local Close Scope R_scope.

(* ===================================================================== *)
(** * The one-axis contraction of the function [single_qubit_evolution] *)
(* ===================================================================== *)

Lemma notin_single (n k : nat) :
  k < n -> notin n [k] = seq 0 k ++ seq (S k) (n - S k).
Proof.
  intros Hk. rewrite <- (notin_one n k Hk). unfold notin. apply filter_ext.
  intros x. rewrite !mem_cons. now destruct (x =? k).
Qed.

Lemma order1_eq (n k : nat) :
  k < n -> order1 n k = seq 1 k ++ 0 :: seq (S k) (n - S k).
Proof.
  intros Hk. unfold order1. rewrite notin_single by lia. simpl.
  replace (n - 1) with (k + (n - S k)) by lia.
  rewrite seq_app. now rewrite list_insert_app by apply length_seq.
Qed.

Lemma is_perm_order1 (n k : nat) : k < n -> is_perm n (order1 n k) = true.
Proof.
  intros Hk. unfold is_perm. rewrite order1_eq by assumption.
  apply andb_true_iff. split.
  - apply Nat.eqb_eq. poslist. lia.
  - apply forallb_forall. intros m Hm. apply in_seq in Hm. poslist. bcases.
Qed.

Lemma is_perm_axes1 (n k : nat) : k < n -> is_perm n (k :: notin n [k]) = true.
Proof.
  intros Hk. unfold is_perm. rewrite notin_single by assumption.
  apply andb_true_iff. split.
  - apply Nat.eqb_eq. poslist. lia.
  - apply forallb_forall. intros m Hm. apply in_seq in Hm. poslist. bcases.
Qed.

Lemma permute_index_order1 (n k : nat) (idx : index) :
  k < n ->
  permute_index n (order1 n k) idx =
  nth k idx false :: map (fun m => nth m idx false) (notin n [k]).
Proof.
  intros Hk. unfold permute_index. destruct n as [|n]; [lia|].
  cbn [seq map]. f_equal.
  - f_equal. rewrite order1_eq by assumption. poslist. bcases.
  - apply nth_ext with (d := nth (position 0 (order1 (S n) k)) idx false)
                       (d' := nth 0 idx false).
    + rewrite !length_map, length_seq, notin_single by assumption. poslist. lia.
    + intros j Hj. rewrite length_map, length_seq in Hj.
      rewrite (map_nth (fun m => nth (position m (order1 (S n) k)) idx false)).
      rewrite (map_nth (fun m => nth m idx false)).
      rewrite seq_nth by lia. f_equal.
      rewrite order1_eq, notin_single by assumption. poslist. bcases.
Qed.

Lemma permute_index_axes1 (n k : nat) (s0 : bool) (idx : index) :
  k < n -> length idx = n ->
  permute_index n (k :: notin n [k])
    (s0 :: map (fun m => nth m idx false) (notin n [k]))
  = set1 k s0 idx.
Proof.
  intros Hk Hlen. unfold permute_index, set1. rewrite Hlen.
  apply map_ext_in. intros m Hm. apply in_seq in Hm.
  rewrite position_cons.
  destruct (Nat.eqb_spec m k); [reflexivity|]. cbn [nth].
  assert (Hin : In m (notin n [k])).
  { apply in_notin. split; [lia|]. rewrite mem_cons. simpl.
    destruct (Nat.eqb_spec m k); [lia|reflexivity]. }
  destruct (nth_position m _ 0 Hin) as [Hlt Hnth].
  rewrite (nth_indep _ false (nth 0 idx false)) by now rewrite length_map.
  rewrite (map_nth (fun m => nth m idx false)). now rewrite Hnth.
Qed.

(** [tensordot(op, psi, (1, k))] followed by [moveaxis(., 0, k)] applies the
    2x2 operator [op] to the axis [k]. *)
Lemma single_qubit_evolution_array (op psi : ndarray) (k : nat) :
  ndim op = 2 -> transpose op [0; 1] = Ret op -> k < ndim psi ->
  single_qubit_evolution (PyArray psi) op (Z.of_nat k) = Ret (apply1 op psi k).
Proof.
  intros Hop Hopt Hk. set (n := ndim psi) in *.
  unfold single_qubit_evolution, tensordot_obj, tensordot.
  cbn [length Nat.eqb negb]. rewrite Hop.
  change (norm_axes IndexError 2 [1%Z]) with (Ret (A:=list nat) [1]).
  cbn [obind norm_axes]. fold n. rewrite (norm_axis_of_nat IndexError n k Hk).
  cbn [obind]. change (notin 2 [1] ++ [1]) with [0; 1]. rewrite Hopt. cbn [obind].
  unfold transpose at 1. fold n. cbn [app].
  rewrite is_perm_axes1 by assumption. cbn [obind].
  unfold moveaxis. cbn [ndim of_fun].
  change (length (notin 2 [1])) with 1.
  assert (Hlen : length (notin n [k]) = n - 1).
  { rewrite notin_single by assumption. poslist. lia. }
  rewrite Hlen. replace (1 + (n - 1)) with n by lia.
  cbn [norm_axes].
  assert (H0 : norm_axis AxisError n 0%Z = Ret 0)
    by (apply (norm_axis_of_nat AxisError n 0); lia).
  rewrite H0, (norm_axis_of_nat AxisError n k Hk). cbn [obind has_dup mem existsb orb].
  cbn [length Nat.eqb negb]. fold (order1 n k). unfold transpose. cbn [ndim].
  rewrite is_perm_order1 by assumption.
  f_equal. unfold apply1. fold n. apply of_fun_ext. intros idx Hidx.
  rewrite permute_index_order1 by assumption.
  rewrite get_of_fun by (cbn [length]; rewrite length_map, Hlen; lia).
  f_equal. apply map_ext_in. intros s Hs. apply in_all_indices in Hs.
  destruct s as [|s0 [|s1 s]]; try discriminate.
  cbn [firstn skipn app nth].
  f_equal. rewrite get_of_fun by (cbn [length]; rewrite length_map, Hlen; lia).
  now rewrite permute_index_axes1.
Qed.

Lemma set1_same (k : nat) (idx : index) : set1 k (nth k idx false) idx = idx.
Proof.
  unfold set1. etransitivity; [|apply map_nth_seq]. apply map_ext. intros m.
  now destruct (Nat.eqb_spec m k) as [->|].
Qed.

Lemma length_set1 (k : nat) (b : bool) (idx : index) :
  length (set1 k b idx) = length idx.
Proof. unfold set1. now rewrite length_map, length_seq. Qed.

Lemma nth_set1 (k m : nat) (b : bool) (idx : index) :
  m < length idx ->
  nth m (set1 k b idx) false = if m =? k then b else nth m idx false.
Proof.
  intros Hm. unfold set1.
  rewrite (nth_indep _ false
             ((fun m => if m =? k then b else nth m idx false) 0))
    by now rewrite length_map, length_seq.
  rewrite (map_nth (fun m => if m =? k then b else nth m idx false)).
  now rewrite seq_nth.
Qed.

Lemma set1_set1 (k : nat) (b b' : bool) (idx : index) :
  k < length idx -> set1 k b (set1 k b' idx) = set1 k b idx.
Proof.
  intros Hk. unfold set1 at 1 3. rewrite length_set1.
  apply map_ext_in. intros m Hm. apply in_seq in Hm.
  destruct (Nat.eqb_spec m k); [reflexivity|].
  rewrite nth_set1 by lia. now destruct (Nat.eqb_spec m k).
Qed.

Lemma apply1_X (psi : ndarray) (k : nat) : apply1 X_matrix psi k = flip_axis k psi.
Proof.
  unfold apply1, flip_axis. apply of_fun_ext. intros idx Hidx.
  cbn [all_indices map app nth Csum fold_right].
  destruct (nth k idx false);
    unfold get at 1 3; cbn [X_matrix data offset length nth Nat.pow Nat.mul Nat.add negb];
    rewrite ?Cmul_0_l, ?Cmul_1_l, ?Cadd_0_l, ?Cadd_0_r; reflexivity.
Qed.

Lemma apply1_Z (psi : ndarray) (k : nat) : apply1 Z_matrix psi k = phase_axis k psi.
Proof.
  unfold apply1, phase_axis. apply of_fun_ext. intros idx Hidx.
  cbn [all_indices map app nth Csum fold_right].
  pose proof (set1_same k idx) as E.
  destruct (nth k idx false);
    unfold get at 1 3; cbn [Z_matrix data offset length nth Nat.pow Nat.mul Nat.add];
    rewrite ?Cmul_0_l, ?Cmul_1_l, ?Cmul_opp1_l, ?Cadd_0_l, ?Cadd_0_r, E; reflexivity.
Qed.

Lemma flip_axis_involutive (k : nat) (psi : ndarray) :
  wf psi -> k < ndim psi -> flip_axis k (flip_axis k psi) = psi.
Proof.
  intros H Hk. rewrite <- (of_fun_get psi H) at 2.
  unfold flip_axis at 1. cbn [ndim flip_axis of_fun].
  apply of_fun_ext. intros idx Hidx. unfold flip_axis.
  rewrite get_of_fun by now rewrite length_set1.
  rewrite nth_set1, Nat.eqb_refl, negb_involutive by lia.
  rewrite set1_set1 by lia. now rewrite set1_same.
Qed.

Lemma phase_axis_involutive (k : nat) (psi : ndarray) :
  wf psi -> phase_axis k (phase_axis k psi) = psi.
Proof.
  intros H. rewrite <- (of_fun_get psi H) at 2.
  unfold phase_axis at 1. cbn [ndim phase_axis of_fun].
  apply of_fun_ext. intros idx Hidx. unfold phase_axis.
  rewrite get_of_fun by assumption.
  destruct (nth k idx false); [apply Copp_involutive|reflexivity].
Qed.

(** Handed the array, the function of the module applies X or Z to the axis
    [k], and applying it twice gives back the array. *)
Lemma single_qubit_evolution_X_twice (psi : ndarray) (k : nat) :
  wf psi -> k < ndim psi ->
  single_qubit_evolution (PyArray psi) X_matrix (Z.of_nat k) = Ret (flip_axis k psi) /\
  single_qubit_evolution (PyArray (flip_axis k psi)) X_matrix (Z.of_nat k) = Ret psi.
Proof.
  intros H Hk. split.
  - rewrite single_qubit_evolution_array by (try reflexivity; assumption).
    now rewrite apply1_X.
  - rewrite single_qubit_evolution_array by (try reflexivity; assumption).
    now rewrite apply1_X, flip_axis_involutive.
Qed.

Lemma single_qubit_evolution_Z_twice (psi : ndarray) (k : nat) :
  wf psi -> k < ndim psi ->
  single_qubit_evolution (PyArray psi) Z_matrix (Z.of_nat k) = Ret (phase_axis k psi) /\
  single_qubit_evolution (PyArray (phase_axis k psi)) Z_matrix (Z.of_nat k) = Ret psi.
Proof.
  intros H Hk. split.
  - rewrite single_qubit_evolution_array by (try reflexivity; assumption).
    now rewrite apply1_Z.
  - rewrite single_qubit_evolution_array by (try reflexivity; assumption).
    now rewrite apply1_Z, phase_axis_involutive.
Qed.

(* ===================================================================== *)
(** * [measure] and [apply_correction] up to the projection *)
(* ===================================================================== *)

Local Open Scope R_scope.


Lemma list4_eq {A} (a b c d a' b' c' d' : A) :
  a = a' -> b = b' -> c = c' -> d = d' -> [a; b; c; d] = [a'; b'; c'; d'].
Proof. congruence. Qed.




(** The sampling rule of [measure]: the outcome is 1, with the projector of
    outcome 1, exactly when the sample exceeds the probability of outcome 0;
    one sample is drawn. *)
Lemma measure_sample_spec (vec : R * R * R) (index : Z) (s : statevec) (w : world)
    (loc : nat) (e : C) :
  list_index (heap w (node_index s)) index = Ret loc ->
  expectation_single (meas_op vec 0) (Z.of_nat loc) s w = (Ret e, s, w) ->
  measure_sample vec index s w =
  (Ret (if Rgt_dec (rng w (cursor w)) (Cabs e)
        then (1%Z, meas_op vec 1, loc) else (0%Z, meas_op vec 0, loc)),
   s, mk_world (heap w) (rng w) (S (cursor w))).
Proof.
  intros Hloc He. unfold measure_sample. cbv zeta.
  unfold bind at 1. unfold read_nodes at 1. rewrite Hloc.
  unfold bind at 1. unfold lift at 1.
  unfold bind at 1. rewrite He.
  unfold bind, random_random, ret.
  now destruct (Rgt_dec (rng w (cursor w)) (Cabs e)).
Qed.

Lemma transpose_meas_op (vec : R * R * R) (m : Z) :
  transpose (meas_op vec m) [0%nat; 1%nat] = Ret (meas_op vec m).
Proof. reflexivity. Qed.

(** The expectation value is computed on every session with a full buffer:
    there the function of the module is handed an array. *)
Lemma expectation_single_returns (op : ndarray) (k : nat) (s : statevec) (w : world) :
  wf (psi s) -> (k < ndim (psi s))%nat ->
  ndim op = 2%nat -> transpose op [0%nat; 1%nat] = Ret op ->
  exists e, expectation_single op (Z.of_nat k) s w = (Ret e, s, w).
Proof.
  intros Hwf Hk Hop Hopt. unfold expectation_single, normalize. munfold.
  rewrite single_qubit_evolution_array by assumption.
  unfold dot, conj. cbn [divr apply1 of_fun data ndim].
  rewrite !length_map, length_all_indices, Hwf, Nat.eqb_refl.
  eexists. reflexivity.
Qed.

(** Whatever [measure] is given, it does not return. *)
Lemma measure_after_sample (E : pauli_env) (index : Z) (plane : Plane) (angle : R)
    (s_domain t_domain measurements : list Z) (vop : Z) (s : statevec) (w : world)
    (ss ts : Z) (cl : clifford_t E) (r : Z * ndarray * nat)
    (s1 : statevec) (w1 : world) :
  sum_at measurements s_domain 0 = Ret ss ->
  sum_at measurements t_domain 0 = Ret ts ->
  getitem (TABLE E) vop = Ret cl ->
  (let mu := compute E plane (ss mod 2 =? 1)%Z (ts mod 2 =? 1)%Z cl in
   measure_sample (polar E (new_plane mu) (angle * PI * coeff mu + add_term mu))
     index s w = (Ret r, s1, w1)) ->
  measure E index plane angle s_domain t_domain measurements vop s w =
  (Raise IndexError, s1, w1).
Proof.
  intros Hs Ht Hcl Hr. cbv zeta in Hr. unfold measure.
  unfold bind at 1. unfold lift at 1. rewrite Hs.
  unfold bind at 1. unfold lift at 1. rewrite Ht.
  unfold bind at 1. unfold lift at 1. rewrite Hcl.
  cbv zeta. unfold bind at 1. rewrite Hr.
  destruct r as [[m op] loc].
  unfold bind at 1. now rewrite single_qubit_evolution_method_raises.
Qed.

Lemma measure_never_returns (E : pauli_env) (index : Z) (plane : Plane) (angle : R)
    (s_domain t_domain measurements : list Z) (vop : Z) (s : statevec) (w : world) :
  exists e,
    fst (fst (measure E index plane angle s_domain t_domain measurements vop s w))
    = Raise e.
Proof.
  unfold measure.
  unfold bind at 1. unfold lift at 1.
  destruct (sum_at measurements s_domain 0) as [ss|e]; [|now exists e].
  unfold bind at 1. unfold lift at 1.
  destruct (sum_at measurements t_domain 0) as [ts|e]; [|now exists e].
  unfold bind at 1. unfold lift at 1.
  destruct (getitem (TABLE E) vop) as [cl|e]; [|now exists e].
  cbv zeta. unfold bind at 1.
  destruct (measure_sample _ index s w) as [[[[[m op] loc]|e] s1] w1]; [|now exists e].
  unfold bind at 1. rewrite single_qubit_evolution_method_raises.
  now exists IndexError.
Qed.

(** On a session with one axis per label and a live label, [measure] draws
    its sample, decides the outcome by the sampling rule, and raises. *)
Lemma measure_raises_after_draw (E : pauli_env) (index : Z) (plane : Plane)
    (angle : R) (s_domain t_domain measurements : list Z) (vop : Z)
    (s : statevec) (w : world) (ss ts : Z) (cl : clifford_t E) :
  wf_state s w -> In index (heap w (node_index s)) ->
  sum_at measurements s_domain 0 = Ret ss ->
  sum_at measurements t_domain 0 = Ret ts ->
  getitem (TABLE E) vop = Ret cl ->
  measure E index plane angle s_domain t_domain measurements vop s w =
  (Raise IndexError, s, mk_world (heap w) (rng w) (S (cursor w))).
Proof.
  intros [Hwf Hn] Hin Hs Ht Hcl.
  destruct (list_index_In _ _ Hin) as [loc [Hloc Hlt]]. rewrite <- Hn in Hlt.
  set (mu := compute E plane (ss mod 2 =? 1)%Z (ts mod 2 =? 1)%Z cl).
  set (vec := polar E (new_plane mu) (angle * PI * coeff mu + add_term mu)).
  destruct (expectation_single_returns (meas_op vec 0) loc s w Hwf Hlt eq_refl
              (transpose_meas_op vec 0)) as [e He].
  pose proof (measure_sample_spec vec index s w loc e Hloc He) as S1.
  exact (measure_after_sample E index plane angle s_domain t_domain measurements
           vop s w ss ts cl _ _ _ Hs Ht Hcl S1).
Qed.

(** [apply_correction] reads no sample and touches no list: the world it
    leaves is the world it found. *)
Lemma apply_correction_world (type : string) (index : Z) (domain results : list Z)
    (s : statevec) (w : world) :
  snd (apply_correction type index domain results s w) = w.
Proof.
  unfold apply_correction. munfold.
  destruct (sum_at results domain 0) as [parity|e]; [|reflexivity].
  destruct (parity mod 2 =? 1)%Z; [|reflexivity].
  destruct (list_index (heap w (node_index s)) index) as [k|e]; [|reflexivity].
  now rewrite single_qubit_evolution_method_raises.
Qed.

(** With an even parity [apply_correction] returns and changes nothing. *)
Lemma apply_correction_even (type : string) (index : Z) (domain results : list Z)
    (s : statevec) (w : world) (parity : Z) :
  sum_at results domain 0 = Ret parity -> (parity mod 2 =? 1)%Z = false ->
  apply_correction type index domain results s w = (Ret tt, s, w).
Proof.
  intros Hp He. unfold apply_correction. munfold. now rewrite Hp, He.
Qed.

(** With an odd parity and a live label [apply_correction] raises, whatever
    the kind, and changes nothing. *)
Lemma apply_correction_odd (type : string) (index : Z) (domain results : list Z)
    (s : statevec) (w : world) (parity : Z) (k : nat) :
  sum_at results domain 0 = Ret parity -> (parity mod 2 =? 1)%Z = true ->
  list_index (heap w (node_index s)) index = Ret k ->
  apply_correction type index domain results s w = (Raise IndexError, s, w).
Proof.
  intros Hp He Hk. unfold apply_correction. munfold. rewrite Hp, He, Hk.
  now rewrite single_qubit_evolution_method_raises.
Qed.

(** No kind is rejected: every kind other than "X" is treated as "Z". *)
Lemma apply_correction_kind (type : string) (index : Z) (domain results : list Z)
    (s : statevec) (w : world) :
  String.eqb type "X" = false ->
  apply_correction type index domain results s w =
  apply_correction "Z" index domain results s w.
Proof. intros H. unfold apply_correction. now rewrite H. Qed.

Local Close Scope R_scope.

(* ===================================================================== *)
(** * The properties of the specification *)
(* ===================================================================== *)

Lemma _norm_eq (a b : ndarray) :
  normsq (data a) = normsq (data b) -> _norm a = _norm b.
Proof. intros H. now rewrite !_norm_normsq, H. Qed.

Lemma wf_s_two : wf_state s_two w_two.
Proof. split; reflexivity. Qed.

Lemma _norm_s_two : _norm (psi s_two) = 1%R.
Proof.
  rewrite _norm_normsq. unfold normsq, s_two. cbn [psi data map fold_right].
  unfold Cnorm2, C1, C0. cbn [Re Im].
  replace (1 * 1 + 0 * 0 + (0 * 0 + 0 * 0 + (0 * 0 + 0 * 0 + (0 * 0 + 0 * 0 + 0))))%R
    with 1%R by ring.
  apply sqrt_1.
Qed.

(** C8. For a session with one axis per label and two distinct live labels
    [a] and [b], [entangle(a, b)] returns, leaves the norm of the tensor as it
    was, and a second [entangle(a, b)] gives back the tensor the first call
    started from. *)
Theorem entangle_norm_involution (a b : Z) (s : statevec) (w : world) :
  wf_state s w ->
  In a (heap w (node_index s)) -> In b (heap w (node_index s)) -> a <> b ->
  exists s1 s2,
    entangle a b s w = (Ret tt, s1, w) /\
    entangle a b s1 w = (Ret tt, s2, w) /\
    _norm (psi s1) = _norm (psi s) /\
    psi s2 = psi s /\ node_index s2 = node_index s.
Proof.
  intros Hwf Ha Hb Hab.
  destruct (list_index_In _ _ Ha) as [c [Hc _]].
  destruct (list_index_In _ _ Hb) as [t [Ht _]].
  assert (Hne : c <> t).
  { intros ->. apply Hab. eapply list_index_inj; eassumption. }
  pose proof (entangle_spec a b c t s w Hwf Hc Ht Hne) as E1.
  set (s1 := mk_statevec (cz_phase c t (psi s)) (node_index s)) in *.
  assert (Hwf1 : wf_state s1 w).
  { destruct Hwf as [H1 H2]. split; [apply wf_of_fun|exact H2]. }
  pose proof (entangle_spec a b c t s1 w Hwf1 Hc Ht Hne) as E2.
  destruct Hwf as [H1 H2].
  exists s1, (mk_statevec (cz_phase c t (psi s1)) (node_index s1)).
  repeat split; try assumption.
  - apply _norm_eq. now apply normsq_cz_phase.
  - cbn [psi s1]. now apply cz_phase_involutive.
Qed.

Lemma entangle_norm_involution_witness :
  wf_state s_two w_two /\ In 0%Z (heap w_two (node_index s_two)) /\
  In 1%Z (heap w_two (node_index s_two)) /\ 0%Z <> 1%Z /\
  exists s1 s2,
    entangle 0 1 s_two w_two = (Ret tt, s1, w_two) /\
    entangle 0 1 s1 w_two = (Ret tt, s2, w_two) /\
    _norm (psi s1) = _norm (psi s_two) /\
    psi s2 = psi s_two /\ node_index s2 = node_index s_two.
Proof.
  assert (H1 : wf_state s_two w_two) by exact wf_s_two.
  assert (H2 : In 0%Z (heap w_two (node_index s_two))) by (simpl; auto).
  assert (H3 : In 1%Z (heap w_two (node_index s_two))) by (simpl; auto).
  assert (H4 : 0%Z <> 1%Z) by discriminate.
  repeat split; try assumption.
  exact (entangle_norm_involution 0 1 s_two w_two H1 H2 H3 H4).
Defined.

(** C6. Starting from a tensor whose norm is within [eps] of 1, after each
    call of a sequence of [prepare_state], [entangle], [swap] and
    [apply_correction] calls, whatever their arguments and whether or not a
    call raised, the norm of the tensor is within [eps] of 1. *)
Theorem norm_invariant (E : pauli_env) (cs : list call) (k : nat)
    (s : statevec) (w : world) (eps : R) :
  Forall lifecycle cs -> wf (psi s) ->
  (Rabs (_norm (psi s) - 1) <= eps)%R ->
  (Rabs (_norm (psi (snd (fst (run E (firstn k cs) s w)))) - 1) <= eps)%R.
Proof.
  intros Hcs Hwf Heps.
  assert (Hk : Forall lifecycle (firstn k cs)) by now apply Forall_prefix.
  destruct (keeps_norm_run E _ Hk s w Hwf) as [_ Hn].
  now rewrite (_norm_eq _ _ Hn).
Qed.

Lemma norm_invariant_witness :
  Forall lifecycle calls_four /\ wf (psi s_two) /\
  (Rabs (_norm (psi s_two) - 1) <= 1 / 1000)%R /\
  (Rabs (_norm (psi (snd (fst (run E0 (firstn 4 calls_four) s_two w_two)))) - 1)
   <= 1 / 1000)%R.
Proof.
  assert (H1 : Forall lifecycle calls_four) by (repeat constructor).
  assert (H2 : wf (psi s_two)) by reflexivity.
  assert (H3 : (Rabs (_norm (psi s_two) - 1) <= 1 / 1000)%R).
  { rewrite _norm_s_two, Rminus_diag, Rabs_R0. lra. }
  repeat split; try assumption.
  exact (norm_invariant E0 calls_four 4 s_two w_two (1 / 1000)%R H1 H2 H3).
Defined.




(** C9, at the failing input: two sessions built without an argument hold
    the same list object, so [a.prepare_state(0)] makes label 0 appear in the
    list of [b], whose tensor still has no axis. *)
Theorem default_argument_is_shared :
  node_index s_a = node_index s_b /\
  heap w_fresh (node_index s_b) = [] /\
  exists a' w',
    prepare_state 0 s_a w_fresh = (Ret tt, a', w') /\
    heap w' (node_index s_b) = [0%Z] /\
    ndim (psi s_b) = 0.
Proof.
  split; [reflexivity|]. split; [reflexivity|].
  rewrite prepare_state_spec by reflexivity.
  eexists. eexists. split; [reflexivity|]. split; reflexivity.
Qed.

(** C1, at the failing input: in [StateVec([10, 20])] both labels are live
    and [entangle(10, 20)] returns, but [swap((10, 20))] takes 10 and 20 for
    axes of a two-axis tensor and raises. *)
Theorem swap_ignores_labels :
  In 10%Z (heap w_labels (node_index s_labels)) /\
  In 20%Z (heap w_labels (node_index s_labels)) /\
  (exists s', entangle 10 20 s_labels w_labels = (Ret tt, s', w_labels)) /\
  swap (10, 20)%Z s_labels w_labels = (Raise IndexError, s_labels, w_labels).
Proof.
  split; [simpl; auto|]. split; [simpl; auto|]. split.
  - eexists. apply (entangle_spec 10 20 0 1); [split; reflexivity| | |]; try reflexivity.
    discriminate.
  - reflexivity.
Qed.

Lemma isclose_one_false : isclose 1 0 = false.
Proof.
  unfold isclose. destruct (Rle_dec _ _) as [H|]; [|reflexivity].
  exfalso. rewrite Rminus_0_r, Rabs_R1, Rabs_R0 in H. lra.
Qed.

(* ===================================================================== *)
(** * Replaying calls: only the future samples of the generator matter *)
(* ===================================================================== *)

















Local Open Scope R_scope.






(** C5, at the failing input: on [StateVec([0])], for a measurement of
    label 0 in the plane XY at angle 0, the probability of outcome 0 is
    computed and the sample is drawn, and then [measure] raises at the
    projection instead of returning the outcome. *)
Theorem measure_raises_at_projection :
  (exists e, expectation_single (meas_op (1, 0, 0) 0) 0 s_one w_one
             = (Ret e, s_one, w_one)) /\
  measure E0 0 XY 0 [] [] [] 0 s_one w_one =
  (Raise IndexError, s_one, mk_world (heap w_one) (rng w_one) 1).
Proof.
  assert (He : exists e, expectation_single (meas_op (1, 0, 0) 0) 0 s_one w_one
                         = (Ret e, s_one, w_one)) by (eexists; reflexivity).
  split; [exact He|]. destruct He as [e He].
  pose proof (measure_sample_spec (1, 0, 0) 0 s_one w_one 0 e eq_refl He) as S1.
  exact (measure_after_sample E0 0 XY 0 [] [] [] 0 s_one w_one 0 0 tt _ _ _
           eq_refl eq_refl eq_refl S1).
Qed.

(** C7, at the failing input: on [StateVec([0])], with the record [[1]] and
    the domain [[0]] the parity is odd, and [apply_correction("Z", 0, ...)]
    raises and leaves the tensor as it was, where Z should have been applied;
    with the empty domain it returns and changes nothing. *)
Theorem apply_correction_raises_on_odd_parity :
  apply_correction "Z" 0 [0%Z] [1%Z] s_one w_one = (Raise IndexError, s_one, w_one) /\
  apply_correction "X" 0 [0%Z] [1%Z] s_one w_one = (Raise IndexError, s_one, w_one) /\
  apply_correction "Z" 0 [] [1%Z] s_one w_one = (Ret tt, s_one, w_one).
Proof. repeat split; reflexivity. Qed.

(** C10, at the failing input: on [StateVec([0])] with an odd parity, the
    kind "Y" and the empty kind are not rejected, and the call raises at the
    contraction, as it does for "Z", instead of applying Z. *)
Theorem apply_correction_unknown_kind_raises :
  apply_correction "Y" 0 [0%Z] [1%Z] s_one w_one = (Raise IndexError, s_one, w_one) /\
  apply_correction EmptyString 0 [0%Z] [1%Z] s_one w_one = (Raise IndexError, s_one, w_one) /\
  apply_correction "Y" 0 [0%Z] [1%Z] s_one w_one
    = apply_correction "Z" 0 [0%Z] [1%Z] s_one w_one.
Proof. repeat split; reflexivity. Qed.

Local Close Scope R_scope.

(* ===================================================================== *)
(** * Further properties of the code *)
(* ===================================================================== *)

(** ** [swap] *)

Lemma norm_axis_raise_exn (e x : exn) (n : nat) (z : Z) :
  norm_axis e n z = Raise x -> x = e.
Proof.
  unfold norm_axis.
  destruct ((0 <=? z)%Z && (z <? Z.of_nat n)%Z); [discriminate|].
  destruct ((- Z.of_nat n <=? z)%Z && (z <? 0)%Z); [discriminate|].
  now intros [= <-].
Qed.

Lemma tensordot_two_raise_first (T psi : ndarray) (zc zt : Z) (e : exn) :
  ndim T = 4 ->
  norm_axis IndexError (ndim psi) zc = Raise e ->
  tensordot T psi [2%Z; 3%Z] [zc; zt] = Raise IndexError.
Proof.
  intros HT Hzc. rewrite (norm_axis_raise_exn _ _ _ _ Hzc) in Hzc.
  unfold tensordot. cbn [length Nat.eqb negb]. rewrite HT.
  change (norm_axes IndexError 4 [2%Z; 3%Z]) with (Ret (A:=list nat) [2; 3]).
  cbn [obind norm_axes]. now rewrite Hzc.
Qed.

Lemma tensordot_two_raise_second (T psi : ndarray) (zc zt : Z) (c : nat) (e : exn) :
  ndim T = 4 ->
  norm_axis IndexError (ndim psi) zc = Ret c ->
  norm_axis IndexError (ndim psi) zt = Raise e ->
  tensordot T psi [2%Z; 3%Z] [zc; zt] = Raise IndexError.
Proof.
  intros HT Hzc Hzt. rewrite (norm_axis_raise_exn _ _ _ _ Hzt) in Hzt.
  unfold tensordot. cbn [length Nat.eqb negb]. rewrite HT.
  change (norm_axes IndexError 4 [2%Z; 3%Z]) with (Ret (A:=list nat) [2; 3]).
  cbn [obind norm_axes]. now rewrite Hzc, Hzt.
Qed.

Lemma tensordot_two_raise_same (T psi : ndarray) (zc zt : Z) (c : nat) :
  ndim T = 4 -> transpose T [0; 1; 2; 3] = Ret T ->
  norm_axis IndexError (ndim psi) zc = Ret c ->
  norm_axis IndexError (ndim psi) zt = Ret c ->
  tensordot T psi [2%Z; 3%Z] [zc; zt] = Raise ValueError.
Proof.
  intros HT HTT Hzc Hzt. pose proof (norm_axis_lt _ _ _ _ Hzc) as Hc.
  unfold tensordot. cbn [length Nat.eqb negb]. rewrite HT.
  change (norm_axes IndexError 4 [2%Z; 3%Z]) with (Ret (A:=list nat) [2; 3]).
  cbn [obind norm_axes]. rewrite Hzc, Hzt. cbn [obind].
  change (notin 4 [2; 3] ++ [2; 3]) with [0; 1; 2; 3].
  rewrite HTT. cbn [obind]. unfold transpose. cbn [app].
  now rewrite is_perm_repeated.
Qed.

Lemma swap_outcome (qubits : Z * Z) (s : statevec) (w : world) :
  swap qubits s w = swap_result qubits s w.
Proof.
  unfold swap_result, swap. munfold.
  destruct (norm_axis IndexError (ndim (psi s)) (fst qubits)) as [c|e] eqn:Hc.
  2:{ now rewrite (tensordot_two_raise_first SWAP_TENSOR _ _ _ e eq_refl Hc). }
  destruct (norm_axis IndexError (ndim (psi s)) (snd qubits)) as [t|e] eqn:Ht.
  2:{ now rewrite (tensordot_two_raise_second SWAP_TENSOR _ _ _ c e eq_refl Hc Ht). }
  destruct (Nat.eqb_spec c t) as [->|Hne].
  - now rewrite (tensordot_two_raise_same SWAP_TENSOR _ _ _ t eq_refl transpose_SWAP Hc Ht).
  - destruct (tensordot_moveaxis2 SWAP_TENSOR (psi s) _ _ c t eq_refl
                transpose_SWAP Hc Ht Hne) as [p1 [H1 H2]].
    cbn [fst snd]. rewrite H1, H2, apply2_SWAP. reflexivity.
Qed.

Lemma norm_axis_Ret_iff (e : exn) (n : nat) (z : Z) (k : nat) :
  norm_axis e n z = Ret k <-> in_range n z /\ k = axis_of n z.
Proof.
  unfold norm_axis, in_range, axis_of.
  destruct (Z.leb_spec 0 z), (Z.ltb_spec z (Z.of_nat n)); cbn [andb].
  - split.
    + intros [= <-]. split; [lia|]. now rewrite Z.mod_small by lia.
    + intros [_ ->]. now rewrite Z.mod_small by lia.
  - destruct (Z.leb_spec (- Z.of_nat n) z), (Z.ltb_spec z 0); cbn [andb];
      try lia; (split; [discriminate|intros [? _]; lia]).
  - destruct (Z.leb_spec (- Z.of_nat n) z), (Z.ltb_spec z 0); cbn [andb]; try lia.
    + split.
      * intros [= <-]. split; [lia|].
        rewrite <- (Z.mod_add z 1 (Z.of_nat n)) by lia.
        rewrite Z.mod_small by lia. f_equal. lia.
      * intros [_ ->]. rewrite <- (Z.mod_add z 1 (Z.of_nat n)) by lia.
        rewrite Z.mod_small by lia. do 2 f_equal. lia.
    + split; [discriminate|intros [? _]; lia].
  - lia.
Qed.

Lemma norm_axis_in_range (e : exn) (n : nat) (z : Z) :
  in_range n z -> norm_axis e n z = Ret (axis_of n z).
Proof. intros H. now apply norm_axis_Ret_iff. Qed.

Lemma norm_axis_out_of_range (e : exn) (n : nat) (z : Z) :
  ~ in_range n z -> norm_axis e n z = Raise e.
Proof.
  intros H. destruct (norm_axis e n z) as [k|x] eqn:E.
  - exfalso. apply H. now apply (norm_axis_Ret_iff e n z k).
  - now rewrite (norm_axis_raise_exn _ _ _ _ E).
Qed.

Lemma axis_of_lt (n : nat) (z : Z) : in_range n z -> axis_of n z < n.
Proof.
  intros H. apply (norm_axis_lt IndexError n z). now apply norm_axis_in_range.
Qed.

Lemma swap_bits_comm (c t : nat) (idx : index) :
  c <> t -> swap_bits c t idx = swap_bits t c idx.
Proof.
  intros Hne. unfold swap_bits, set2. apply map_ext. intros m.
  destruct (Nat.eqb_spec m c), (Nat.eqb_spec m t); try reflexivity. lia.
Qed.

Lemma swap_axes_comm (c t : nat) (psi : ndarray) :
  c <> t -> swap_axes c t psi = swap_axes t c psi.
Proof.
  intros Hne. unfold swap_axes. apply of_fun_ext. intros idx _.
  now rewrite swap_bits_comm.
Qed.

Lemma swap_axes_involutive (c t : nat) (psi : ndarray) :
  wf psi -> c < ndim psi -> t < ndim psi ->
  swap_axes c t (swap_axes c t psi) = psi.
Proof.
  intros H Hc Ht. rewrite <- (of_fun_get psi H) at 2.
  unfold swap_axes at 1. cbn [ndim swap_axes of_fun].
  apply of_fun_ext. intros idx Hidx. unfold swap_axes.
  rewrite get_of_fun by now rewrite swap_bits_length.
  now rewrite swap_bits_involutive by lia.
Qed.

(** X1. When both axis numbers of [swap] are in range (negative ones count
    from the last axis) and name different axes, [swap] returns, touches
    neither the list of labels nor the world, and the amplitude at each index
    of the new tensor is the old amplitude at the index with the bits of the
    two axes exchanged. *)
Theorem swap_exchanges_axes (a b : Z) (s : statevec) (w : world) :
  let n := ndim (psi s) in
  in_range n a -> in_range n b -> axis_of n a <> axis_of n b ->
  exists s',
    swap (a, b) s w = (Ret tt, s', w) /\
    node_index s' = node_index s /\
    ndim (psi s') = n /\ wf (psi s') /\
    forall idx, length idx = n ->
      get (psi s') idx = get (psi s) (swap_bits (axis_of n a) (axis_of n b) idx).
Proof.
  intros n Ha Hb Hne. rewrite swap_outcome. unfold swap_result. cbn [fst snd].
  fold n. rewrite !norm_axis_in_range by assumption.
  destruct (Nat.eqb_spec (axis_of n a) (axis_of n b)); [contradiction|].
  eexists. split; [reflexivity|]. cbn [psi node_index].
  repeat split; try apply wf_of_fun.
  intros idx Hidx. unfold swap_axes. now rewrite get_of_fun.
Qed.

Lemma swap_exchanges_axes_witness :
  in_range (ndim (psi s_two)) (-1) /\ in_range (ndim (psi s_two)) 0 /\
  axis_of (ndim (psi s_two)) (-1) <> axis_of (ndim (psi s_two)) 0 /\
  exists s',
    swap (-1, 0)%Z s_two w_two = (Ret tt, s', w_two) /\
    node_index s' = node_index s_two /\
    ndim (psi s') = ndim (psi s_two) /\ wf (psi s') /\
    forall idx, length idx = ndim (psi s_two) ->
      get (psi s') idx
      = get (psi s_two)
          (swap_bits (axis_of (ndim (psi s_two)) (-1)) (axis_of (ndim (psi s_two)) 0) idx).
Proof.
  assert (H1 : in_range (ndim (psi s_two)) (-1)) by (unfold in_range; simpl; lia).
  assert (H2 : in_range (ndim (psi s_two)) 0) by (unfold in_range; simpl; lia).
  assert (H3 : axis_of (ndim (psi s_two)) (-1) <> axis_of (ndim (psi s_two)) 0)
    by (vm_compute; lia).
  split; [exact H1|]. split; [exact H2|]. split; [exact H3|].
  exact (swap_exchanges_axes (-1) 0 s_two w_two H1 H2 H3).
Defined.

(** X2. Under the same conditions and for a tensor with its full buffer, a
    second [swap] of the same two axes gives back the session the first one
    started from. *)
Theorem swap_twice (a b : Z) (s : statevec) (w : world) :
  let n := ndim (psi s) in
  wf (psi s) -> in_range n a -> in_range n b -> axis_of n a <> axis_of n b ->
  exists s1, swap (a, b) s w = (Ret tt, s1, w) /\ swap (a, b) s1 w = (Ret tt, s, w).
Proof.
  intros n Hwf Ha Hb Hne. destruct s as [p l]. cbn [psi] in *.
  rewrite !swap_outcome. unfold swap_result. cbn [fst snd psi node_index]. fold n.
  rewrite !norm_axis_in_range by assumption.
  destruct (Nat.eqb_spec (axis_of n a) (axis_of n b)); [contradiction|].
  eexists. split; [reflexivity|]. rewrite swap_outcome. unfold swap_result.
  cbn [fst snd psi node_index swap_axes of_fun ndim]. fold n.
  rewrite !norm_axis_in_range by assumption.
  destruct (Nat.eqb_spec (axis_of n a) (axis_of n b)); [contradiction|].
  do 3 f_equal.
  apply swap_axes_involutive; [assumption| |]; now apply axis_of_lt.
Qed.

Lemma swap_twice_witness :
  wf (psi s_two) /\
  in_range (ndim (psi s_two)) 0 /\ in_range (ndim (psi s_two)) 1 /\
  axis_of (ndim (psi s_two)) 0 <> axis_of (ndim (psi s_two)) 1 /\
  exists s1,
    swap (0, 1)%Z s_two w_two = (Ret tt, s1, w_two) /\
    swap (0, 1)%Z s1 w_two = (Ret tt, s_two, w_two).
Proof.
  assert (H0 : wf (psi s_two)) by reflexivity.
  assert (H1 : in_range (ndim (psi s_two)) 0) by (unfold in_range; simpl; lia).
  assert (H2 : in_range (ndim (psi s_two)) 1) by (unfold in_range; simpl; lia).
  assert (H3 : axis_of (ndim (psi s_two)) 0 <> axis_of (ndim (psi s_two)) 1)
    by (vm_compute; lia).
  split; [exact H0|]. split; [exact H1|]. split; [exact H2|]. split; [exact H3|].
  exact (swap_twice 0 1 s_two w_two H0 H1 H2 H3).
Defined.

(** X3. [swap] does not depend on the order of its two axis numbers: on every
    session and for all arguments, [swap((a, b))] and [swap((b, a))] give the
    same outcome and the same session. *)
Theorem swap_symmetric (a b : Z) (s : statevec) (w : world) :
  swap (a, b) s w = swap (b, a) s w.
Proof.
  rewrite !swap_outcome. unfold swap_result. cbn [fst snd].
  destruct (norm_axis IndexError (ndim (psi s)) a) as [c|e],
           (norm_axis IndexError (ndim (psi s)) b) as [t|e']; try reflexivity.
  rewrite (Nat.eqb_sym t c).
  destruct (Nat.eqb_spec c t); [reflexivity|]. now rewrite swap_axes_comm.
Qed.

(** X4. [swap] returns exactly when both axis numbers are in range and name
    different axes; with a number out of range it raises [IndexError], with
    two numbers of one axis [ValueError], and in both cases the session and
    the world are as before the call. *)
Theorem swap_error_cases (a b : Z) (s : statevec) (w : world) :
  let n := ndim (psi s) in
  (in_range n a /\ in_range n b /\ axis_of n a <> axis_of n b ->
     fst (fst (swap (a, b) s w)) = Ret tt) /\
  (~ in_range n a \/ ~ in_range n b ->
     swap (a, b) s w = (Raise IndexError, s, w)) /\
  (in_range n a /\ in_range n b /\ axis_of n a = axis_of n b ->
     swap (a, b) s w = (Raise ValueError, s, w)).
Proof.
  intros n. rewrite swap_outcome. unfold swap_result. cbn [fst snd]. fold n.
  repeat split.
  - intros [Ha [Hb Hne]]. rewrite !norm_axis_in_range by assumption.
    now destruct (Nat.eqb_spec (axis_of n a) (axis_of n b)).
  - intros [Ha|Hb].
    + now rewrite (norm_axis_out_of_range _ _ _ Ha).
    + rewrite (norm_axis_out_of_range _ _ _ Hb).
      now destruct (norm_axis IndexError n a).
  - intros [Ha [Hb He]]. rewrite !norm_axis_in_range by assumption.
    now rewrite He, Nat.eqb_refl.
Qed.

Lemma swap_error_cases_witness :
  fst (fst (swap (0, 1)%Z s_two w_two)) = Ret tt /\
  swap (0, 2)%Z s_two w_two = (Raise IndexError, s_two, w_two) /\
  swap (1, -1)%Z s_two w_two = (Raise ValueError, s_two, w_two).
Proof.
  destruct (swap_error_cases 0 1 s_two w_two) as [H1 _].
  destruct (swap_error_cases 0 2 s_two w_two) as [_ [H2 _]].
  destruct (swap_error_cases 1 (-1) s_two w_two) as [_ [_ H3]].
  split; [|split].
  - apply H1. unfold in_range. simpl. repeat split; try lia. vm_compute. lia.
  - apply H2. right. unfold in_range. simpl. lia.
  - apply H3. unfold in_range. simpl. repeat split; lia.
Defined.

(** ** [entangle] *)

Lemma list_index_raise (l : list Z) (x : Z) (e : exn) :
  list_index l x = Raise e -> e = ValueError /\ ~ In x l.
Proof.
  induction l as [|y l IH]; simpl.
  - intros [= <-]. split; [reflexivity|intros []].
  - destruct (Z.eqb_spec y x) as [->|Hne]; [discriminate|].
    destruct (list_index l x) as [k|e']; simpl; [discriminate|].
    intros [= <-]. destruct (IH eq_refl) as [-> Hn]. split; [reflexivity|].
    intros [E|Hin]; [congruence|contradiction].
Qed.

Lemma list_index_not_In (l : list Z) (x : Z) :
  ~ In x l -> list_index l x = Raise ValueError.
Proof.
  intros H. destruct (list_index l x) as [k|e] eqn:E.
  - exfalso. apply H. apply list_index_nth in E as [_ E].
    now apply nth_error_In in E.
  - now destruct (list_index_raise _ _ _ E) as [-> _].
Qed.

Lemma cz_phase_comm_axes (c t : nat) (psi : ndarray) :
  cz_phase c t psi = cz_phase t c psi.
Proof.
  unfold cz_phase. apply of_fun_ext. intros idx _. now rewrite andb_comm.
Qed.

Lemma cz_phase_cz_phase (c t c' t' : nat) (psi : ndarray) :
  cz_phase c t (cz_phase c' t' psi) = cz_phase c' t' (cz_phase c t psi).
Proof.
  unfold cz_phase at 1 3. cbn [ndim cz_phase of_fun].
  apply of_fun_ext. intros idx Hidx. unfold cz_phase.
  rewrite !get_of_fun by assumption.
  now destruct (nth c idx false && nth t idx false),
               (nth c' idx false && nth t' idx false).
Qed.

(** What [entangle] gives once both labels have been looked up. *)
Lemma entangle_after_lookup (a b : Z) (c t : nat) (s : statevec) (w : world) :
  list_index (heap w (node_index s)) a = Ret c ->
  list_index (heap w (node_index s)) b = Ret t ->
  entangle a b s w =
  if (c <? ndim (psi s)) && (t <? ndim (psi s)) then
    if c =? t then (Raise ValueError, s, w)
    else (Ret tt, mk_statevec (cz_phase c t (psi s)) (node_index s), w)
  else (Raise IndexError, s, w).
Proof.
  intros Ha Hb. unfold entangle. munfold. rewrite Ha, Hb.
  destruct (Nat.ltb_spec c (ndim (psi s))) as [Hc|Hc]; cbn [andb].
  - pose proof (norm_axis_of_nat IndexError _ _ Hc) as Nc.
    destruct (Nat.ltb_spec t (ndim (psi s))) as [Ht|Ht].
    + pose proof (norm_axis_of_nat IndexError _ _ Ht) as Nt.
      destruct (Nat.eqb_spec c t) as [->|Hne].
      * now rewrite (tensordot_two_raise_same CZ_TENSOR _ _ _ t eq_refl transpose_CZ Nc Nt).
      * destruct (tensordot_moveaxis2 CZ_TENSOR (psi s) _ _ c t eq_refl
                    transpose_CZ Nc Nt Hne) as [p1 [H1 H2]].
        rewrite H1, H2, apply2_CZ. reflexivity.
    + assert (Nt : norm_axis IndexError (ndim (psi s)) (Z.of_nat t) = Raise IndexError).
      { apply norm_axis_out_of_range. unfold in_range. lia. }
      now rewrite (tensordot_two_raise_second CZ_TENSOR _ _ _ c _ eq_refl Nc Nt).
  - assert (Nc : norm_axis IndexError (ndim (psi s)) (Z.of_nat c) = Raise IndexError).
    { apply norm_axis_out_of_range. unfold in_range. lia. }
    now rewrite (tensordot_two_raise_first CZ_TENSOR _ _ _ _ eq_refl Nc).
Qed.

(** X5. In a session with one axis per label, for two different live
    labels whose first occurrences are at the positions [c] and [t],
    [entangle] returns, keeps the list of labels and the world, and the new
    amplitude at each index is the old one, with its sign changed exactly
    when the bits of the index at [c] and at [t] are both 1. *)
Theorem entangle_flips_sign (a b : Z) (s : statevec) (w : world) :
  wf_state s w ->
  In a (heap w (node_index s)) -> In b (heap w (node_index s)) -> a <> b ->
  exists c t s',
    list_index (heap w (node_index s)) a = Ret c /\
    list_index (heap w (node_index s)) b = Ret t /\
    entangle a b s w = (Ret tt, s', w) /\
    node_index s' = node_index s /\ wf_state s' w /\
    forall idx, length idx = ndim (psi s) ->
      get (psi s') idx =
      if nth c idx false && nth t idx false
      then Copp (get (psi s) idx) else get (psi s) idx.
Proof.
  intros Hwf Ha Hb Hab.
  destruct (list_index_In _ _ Ha) as [c [Hc _]].
  destruct (list_index_In _ _ Hb) as [t [Ht _]].
  assert (Hne : c <> t).
  { intros ->. apply Hab. eapply list_index_inj; eassumption. }
  exists c, t, (mk_statevec (cz_phase c t (psi s)) (node_index s)).
  split; [exact Hc|]. split; [exact Ht|].
  split; [exact (entangle_spec a b c t s w Hwf Hc Ht Hne)|]. cbn [psi node_index].
  destruct Hwf as [H1 H2]. repeat split.
  - apply wf_of_fun.
  - exact H2.
  - intros idx Hidx. unfold cz_phase. now rewrite get_of_fun.
Qed.

Lemma entangle_flips_sign_witness :
  wf_state s_two w_two /\
  In 0%Z (heap w_two (node_index s_two)) /\ In 1%Z (heap w_two (node_index s_two)) /\
  0%Z <> 1%Z /\
  exists c t s',
    list_index (heap w_two (node_index s_two)) 0 = Ret c /\
    list_index (heap w_two (node_index s_two)) 1 = Ret t /\
    entangle 0 1 s_two w_two = (Ret tt, s', w_two) /\
    node_index s' = node_index s_two /\ wf_state s' w_two /\
    forall idx, length idx = ndim (psi s_two) ->
      get (psi s') idx =
      if nth c idx false && nth t idx false
      then Copp (get (psi s_two) idx) else get (psi s_two) idx.
Proof.
  assert (H1 : wf_state s_two w_two) by exact wf_s_two.
  assert (H2 : In 0%Z (heap w_two (node_index s_two))) by (simpl; auto).
  assert (H3 : In 1%Z (heap w_two (node_index s_two))) by (simpl; auto).
  assert (H4 : 0%Z <> 1%Z) by discriminate.
  split; [exact H1|]. split; [exact H2|]. split; [exact H3|]. split; [exact H4|].
  exact (entangle_flips_sign 0 1 s_two w_two H1 H2 H3 H4).
Defined.

(** X6. [entangle] does not depend on which label is the control: on every
    session and for all arguments, [entangle(a, b)] and [entangle(b, a)] give
    the same outcome and the same session. *)
Theorem entangle_symmetric (a b : Z) (s : statevec) (w : world) :
  entangle a b s w = entangle b a s w.
Proof.
  destruct (list_index (heap w (node_index s)) a) as [c|e] eqn:Ha;
    destruct (list_index (heap w (node_index s)) b) as [t|e'] eqn:Hb.
  - rewrite (entangle_after_lookup a b c t s w Ha Hb).
    rewrite (entangle_after_lookup b a t c s w Hb Ha).
    rewrite (andb_comm (t <? _)), (Nat.eqb_sym t c).
    destruct ((c <? ndim (psi s)) && (t <? ndim (psi s))); [|reflexivity].
    destruct (c =? t); [reflexivity|]. now rewrite cz_phase_comm_axes.
  - destruct (list_index_raise _ _ _ Hb) as [-> _].
    unfold entangle. munfold. now rewrite Ha, Hb.
  - destruct (list_index_raise _ _ _ Ha) as [-> _].
    unfold entangle. munfold. now rewrite Ha, Hb.
  - destruct (list_index_raise _ _ _ Ha) as [-> _].
    destruct (list_index_raise _ _ _ Hb) as [-> _].
    unfold entangle. munfold. now rewrite Ha, Hb.
Qed.

(** X7. In a session with one axis per label, [entangle] returns exactly
    when both labels are live and different; when a label is not live, or
    both are the same label, it raises [ValueError] and the session and the
    world are as before the call. *)
Theorem entangle_error_cases (a b : Z) (s : statevec) (w : world) :
  wf_state s w ->
  let l := heap w (node_index s) in
  (In a l /\ In b l /\ a <> b -> fst (fst (entangle a b s w)) = Ret tt) /\
  (~ In a l \/ ~ In b l \/ a = b -> entangle a b s w = (Raise ValueError, s, w)).
Proof.
  intros [Hwf Hn] l. split.
  - intros [Ha [Hb Hab]].
    destruct (list_index_In _ _ Ha) as [c [Hc _]].
    destruct (list_index_In _ _ Hb) as [t [Ht _]].
    assert (Hne : c <> t).
    { intros ->. apply Hab. eapply list_index_inj; eassumption. }
    now rewrite (entangle_spec a b c t s w (Logic.conj Hwf Hn) Hc Ht Hne).
  - intros H.
    destruct (list_index l a) as [c|e] eqn:Ha.
    2:{ destruct (list_index_raise _ _ _ Ha) as [-> _].
        unfold entangle. munfold. fold l. now rewrite Ha. }
    destruct (list_index l b) as [t|e] eqn:Hb.
    2:{ destruct (list_index_raise _ _ _ Hb) as [-> _].
        unfold entangle. munfold. fold l. now rewrite Ha, Hb. }
    pose proof (list_index_nth _ _ _ Ha) as [Hc Hca].
    pose proof (list_index_nth _ _ _ Hb) as [Ht Htb].
    destruct H as [H|[H|H]].
    + exfalso. apply H. now apply nth_error_In in Hca.
    + exfalso. apply H. now apply nth_error_In in Htb.
    + subst b. rewrite Ha in Hb. injection Hb as <-.
      rewrite (entangle_after_lookup a a c c s w Ha Ha).
      unfold l in Hc. rewrite <- Hn in Hc.
      replace (c <? ndim (psi s)) with true by (symmetry; now apply Nat.ltb_lt).
      cbn [andb]. now rewrite Nat.eqb_refl.
Qed.

Lemma entangle_error_cases_witness :
  wf_state s_two w_two /\
  fst (fst (entangle 0 1 s_two w_two)) = Ret tt /\
  entangle 0 7 s_two w_two = (Raise ValueError, s_two, w_two) /\
  entangle 1 1 s_two w_two = (Raise ValueError, s_two, w_two).
Proof.
  assert (H : wf_state s_two w_two) by exact wf_s_two.
  split; [exact H|].
  destruct (entangle_error_cases 0 1 s_two w_two H) as [H1 _].
  destruct (entangle_error_cases 0 7 s_two w_two H) as [_ H2].
  destruct (entangle_error_cases 1 1 s_two w_two H) as [_ H3].
  split; [|split].
  - apply H1. simpl. repeat split; auto. discriminate.
  - apply H2. right. left. simpl. intros [E|[E|[]]]; discriminate.
  - apply H3. right. right. reflexivity.
Defined.

(** X8. In a session with one axis per label, two [entangle] calls on two
    pairs of different live labels can be issued in either order: both orders
    return and end in the same session. *)
Theorem entangle_commute (a b c d : Z) (s : statevec) (w : world) :
  wf_state s w ->
  let l := heap w (node_index s) in
  In a l -> In b l -> a <> b -> In c l -> In d l -> c <> d ->
  exists s1 s2 s',
    entangle a b s w = (Ret tt, s1, w) /\ entangle c d s1 w = (Ret tt, s', w) /\
    entangle c d s w = (Ret tt, s2, w) /\ entangle a b s2 w = (Ret tt, s', w).
Proof.
  intros Hwf l Ha Hb Hab Hc Hd Hcd.
  destruct (list_index_In _ _ Ha) as [ka [Hka _]].
  destruct (list_index_In _ _ Hb) as [kb [Hkb _]].
  destruct (list_index_In _ _ Hc) as [kc [Hkc _]].
  destruct (list_index_In _ _ Hd) as [kd [Hkd _]].
  assert (N1 : ka <> kb) by (intros ->; apply Hab; eapply list_index_inj; eassumption).
  assert (N2 : kc <> kd) by (intros ->; apply Hcd; eapply list_index_inj; eassumption).
  pose proof (entangle_spec a b ka kb s w Hwf Hka Hkb N1) as E1.
  pose proof (entangle_spec c d kc kd s w Hwf Hkc Hkd N2) as E2.
  set (s1 := mk_statevec (cz_phase ka kb (psi s)) (node_index s)) in *.
  set (s2 := mk_statevec (cz_phase kc kd (psi s)) (node_index s)) in *.
  assert (W1 : wf_state s1 w) by (destruct Hwf; split; [apply wf_of_fun|assumption]).
  assert (W2 : wf_state s2 w) by (destruct Hwf; split; [apply wf_of_fun|assumption]).
  pose proof (entangle_spec c d kc kd s1 w W1 Hkc Hkd N2) as E3.
  pose proof (entangle_spec a b ka kb s2 w W2 Hka Hkb N1) as E4.
  exists s1, s2, (mk_statevec (cz_phase kc kd (psi s1)) (node_index s1)).
  repeat split; try assumption.
  rewrite E4. cbn [psi node_index s1 s2]. now rewrite cz_phase_cz_phase.
Qed.

Lemma entangle_commute_witness :
  wf_state s_two w_two /\
  exists s1 s2 s',
    entangle 0 1 s_two w_two = (Ret tt, s1, w_two) /\
    entangle 1 0 s1 w_two = (Ret tt, s', w_two) /\
    entangle 1 0 s_two w_two = (Ret tt, s2, w_two) /\
    entangle 0 1 s2 w_two = (Ret tt, s', w_two).
Proof.
  assert (H : wf_state s_two w_two) by exact wf_s_two.
  split; [exact H|].
  apply (entangle_commute 0 1 1 0 s_two w_two H); simpl; auto; discriminate.
Defined.

(** ** [__init__], [tensor] and [prepare_state] *)

Local Open Scope R_scope.

Lemma Rpower_2_half (n : nat) : Rpower 2 (INR n / 2) = sqrt 2 ^ n.
Proof.
  replace (INR n / 2) with (/ 2 * INR n) by (unfold Rdiv; ring).
  rewrite <- Rpower_mult, Rpower_sqrt by lra.
  apply Rpower_pow. apply sqrt_lt_R0. lra.
Qed.

Lemma sqrt2_pow_pos (n : nat) : 0 < sqrt 2 ^ n.
Proof. apply pow_lt. apply sqrt_lt_R0. lra. Qed.

Lemma sqrt2_pow_sqr (n : nat) : sqrt 2 ^ n * sqrt 2 ^ n = INR (2 ^ n).
Proof.
  rewrite <- Rpow_mult_distr, sqrt_sqrt by lra.
  rewrite pow_INR. reflexivity.
Qed.

Lemma init_data (o : option loc) (w : world) :
  let s := __init__ o w in
  data (psi s) = repeat (RtoC (/ sqrt 2 ^ ndim (psi s))) (2 ^ ndim (psi s)).
Proof.
  unfold __init__. cbv zeta. cbn [psi divr ones data ndim].
  rewrite map_repeat, Rpower_2_half. f_equal.
  unfold Cdivr, C1, RtoC. cbn [Re Im]. f_equal; unfold Rdiv; ring.
Qed.

Lemma normsq_repeat (a : C) (m : nat) : normsq (repeat a m) = INR m * Cnorm2 a.
Proof.
  induction m as [|m IH].
  - unfold normsq. simpl. ring.
  - change (repeat a (S m)) with (a :: repeat a m).
    change (normsq (a :: repeat a m)) with (Cnorm2 a + normsq (repeat a m)).
    rewrite IH, S_INR. ring.
Qed.

Lemma init_wf_state (o : option loc) (w : world) : wf_state (__init__ o w) w.
Proof.
  pose proof (init_data o w) as Hd. cbv zeta in Hd.
  split; [|reflexivity]. unfold wf. now rewrite Hd, repeat_length.
Qed.

(** X9. Whatever list it is given, the constructor builds a session with
    one axis per entry of the list and a full buffer, all of whose amplitudes
    are [1 / sqrt 2 ^ n], and whose norm is 1. *)
Theorem init_normalized (o : option loc) (w : world) :
  let s := __init__ o w in
  wf_state s w /\
  (forall idx, length idx = ndim (psi s) ->
     get (psi s) idx = RtoC (/ sqrt 2 ^ ndim (psi s))) /\
  _norm (psi s) = 1.
Proof.
  intros s. pose proof (init_data o w) as Hd. cbv zeta in Hd. fold s in Hd.
  split; [exact (init_wf_state o w)|]. split.
  - intros idx Hidx. unfold get. rewrite Hd.
    pose proof (offset_lt idx) as Hlt. rewrite Hidx in Hlt.
    apply nth_repeat_lt. exact Hlt.
  - rewrite _norm_normsq, Hd, normsq_repeat.
    unfold Cnorm2, RtoC. cbn [Re Im].
    pose proof (sqrt2_pow_pos (ndim (psi s))) as Hp.
    rewrite <- sqrt2_pow_sqr.
    replace (_ * _) with 1; [apply sqrt_1|]. field. lra.
Qed.

Lemma init_normalized_witness :
  wf_state s_labels w_labels /\
  get (psi s_labels) [false; true] = RtoC (/ sqrt 2 ^ ndim (psi s_labels)) /\
  _norm (psi s_labels) = 1.
Proof.
  destruct (init_normalized (Some 1%nat) w_labels) as [H1 [H2 H3]].
  split; [exact H1|]. split; [exact (H2 [false; true] eq_refl)|exact H3].
Defined.

Lemma ndarray_eq (a b : ndarray) : ndim a = ndim b -> data a = data b -> a = b.
Proof. destruct a, b. cbn. now intros -> ->. Qed.

Lemma kron_repeat_pair (a h : C) (m : nat) :
  kron (repeat a m) [h; h] = repeat (Cmul a h) (2 * m).
Proof.
  induction m as [|m IH]; [reflexivity|].
  replace (2 * S m)%nat with (S (S (2 * m))) by lia.
  change (kron (repeat a (S m)) [h; h])
    with (Cmul a h :: Cmul a h :: kron (repeat a m) [h; h]).
  now rewrite IH.
Qed.

(** X10. Preparing a qubit on a session that has just been built gives
    exactly the session the constructor builds from the list with the new
    label at its end: the same tensor, of amplitudes [1 / sqrt 2 ^ (n + 1)]. *)
Theorem prepare_on_fresh_session (o : option loc) (w : world) (target : Z) :
  let s := __init__ o w in
  exists w',
    prepare_state target s w = (Ret tt, __init__ o w', w') /\
    heap w' (node_index s) = heap w (node_index s) ++ [target].
Proof.
  intros s. destruct (init_wf_state o w) as [Hwf Hn]. fold s in Hwf, Hn.
  rewrite prepare_state_spec by exact Hwf.
  set (w' := mk_world (heap_set (heap w) (node_index s)
                         (heap w (node_index s) ++ [target])) (rng w) (cursor w)).
  assert (Hh : heap w' (node_index s) = heap w (node_index s) ++ [target]).
  { unfold w', heap_set. cbn [heap]. now rewrite Nat.eqb_refl. }
  exists w'. split; [|exact Hh]. do 2 f_equal.
  assert (Hni : node_index (__init__ o w') = node_index s) by reflexivity.
  assert (Hnd : ndim (psi (__init__ o w')) = (ndim (psi s) + 1)%nat).
  { change (ndim (psi (__init__ o w'))) with (length (heap w' (node_index s))).
    rewrite Hh, length_app, <- Hn. reflexivity. }
  destruct (__init__ o w') as [p' l'] eqn:E. cbn [psi node_index] in Hni, Hnd.
  subst l'. f_equal. apply ndarray_eq; cbn [ndim data]; [now rewrite Hnd|].
  pose proof (init_data o w') as Hd'. cbv zeta in Hd'. rewrite E in Hd'.
  cbn [psi] in Hd'. rewrite Hd', Hnd.
  pose proof (init_data o w) as Hd. cbv zeta in Hd. fold s in Hd. rewrite Hd.
  cbn [plus data]. rewrite kron_repeat_pair.
  replace (2 ^ (ndim (psi s) + 1))%nat with (2 * 2 ^ ndim (psi s))%nat
    by (rewrite Nat.add_1_r; reflexivity).
  f_equal. rewrite Nat.add_1_r.
  pose proof (sqrt2_pow_pos (ndim (psi s))) as Hp.
  assert (H2 : 0 < sqrt 2) by (apply sqrt_lt_R0; lra).
  unfold Cmul, RtoC. cbn [Re Im]. f_equal; [|ring].
  cbn [pow]. field. lra.
Qed.

Local Close Scope R_scope.

Lemma offset_app (i1 i2 : index) :
  offset (i1 ++ i2) = offset i1 * 2 ^ length i2 + offset i2.
Proof.
  induction i1 as [|b r IH]; [reflexivity|].
  cbn [app offset]. rewrite IH, length_app, Nat.pow_add_r. destruct b; lia.
Qed.

Lemma nth_kron (x y : list C) (i j : nat) :
  i < length x -> j < length y ->
  nth (i * length y + j) (kron x y) C0 = Cmul (nth i x C0) (nth j y C0).
Proof.
  revert i. induction x as [|a x IH]; intros i Hi Hj; [simpl in Hi; lia|].
  change (kron (a :: x) y) with (map (Cmul a) y ++ kron x y).
  destruct i as [|i].
  - rewrite app_nth1 by (rewrite length_map; lia). cbn [nth Nat.mul Nat.add].
    rewrite (nth_indep _ C0 (Cmul a C0)) by (rewrite length_map; lia).
    apply map_nth.
  - rewrite app_nth2 by (rewrite length_map; lia). rewrite length_map.
    replace (S i * length y + j - length y) with (i * length y + j) by lia.
    cbn [nth]. apply IH; [simpl in Hi; lia|assumption].
Qed.

Local Open Scope R_scope.

(** X11. [tensor(other)] on two arrays with full buffers returns, keeps the
    labels and the world, and builds the tensor product: its axes are those of
    [self.psi] followed by those of [other], the amplitude at an index is the
    product of the amplitudes of the two parts of the index, and its norm is
    the product of the two norms. *)
Theorem tensor_product (other : ndarray) (s : statevec) (w : world) :
  wf (psi s) -> wf other ->
  exists s',
    tensor other s w = (Ret tt, s', w) /\
    node_index s' = node_index s /\
    wf (psi s') /\
    ndim (psi s') = (ndim (psi s) + ndim other)%nat /\
    _norm (psi s') = _norm (psi s) * _norm other /\
    forall i1 i2, length i1 = ndim (psi s) -> length i2 = ndim other ->
      get (psi s') (i1 ++ i2) = Cmul (get (psi s) i1) (get other i2).
Proof.
  intros Hs Ho. unfold tensor, reshape. munfold.
  rewrite length_kron, Hs, Ho, <- Nat.pow_add_r, Nat.eqb_refl.
  eexists. split; [reflexivity|]. cbn [psi node_index ndim data].
  repeat split.
  - unfold wf. cbn [data ndim]. now rewrite length_kron, Hs, Ho, Nat.pow_add_r.
  - rewrite !_norm_normsq. cbn [data]. rewrite normsq_kron.
    apply sqrt_mult; apply normsq_nonneg.
  - intros i1 i2 H1 H2. unfold get. cbn [data].
    rewrite offset_app, H2, <- Ho.
    pose proof (offset_lt i1) as L1. pose proof (offset_lt i2) as L2.
    rewrite H1, <- Hs in L1. rewrite H2, <- Ho in L2.
    now apply nth_kron.
Qed.

Lemma tensor_product_witness :
  wf (psi s_two) /\ wf plus /\
  exists s',
    tensor plus s_two w_two = (Ret tt, s', w_two) /\
    node_index s' = node_index s_two /\
    wf (psi s') /\
    ndim (psi s') = (ndim (psi s_two) + ndim plus)%nat /\
    _norm (psi s') = _norm (psi s_two) * _norm plus /\
    forall i1 i2, length i1 = ndim (psi s_two) -> length i2 = ndim plus ->
      get (psi s') (i1 ++ i2) = Cmul (get (psi s_two) i1) (get plus i2).
Proof.
  assert (H1 : wf (psi s_two)) by reflexivity.
  assert (H2 : wf plus) by reflexivity.
  split; [exact H1|]. split; [exact H2|].
  exact (tensor_product plus s_two w_two H1 H2).
Defined.

Local Close Scope R_scope.

Lemma list_index_app (l r : list Z) (x : Z) (k : nat) :
  list_index l x = Ret k -> list_index (l ++ r) x = Ret k.
Proof.
  revert k. induction l as [|y l IH]; intros k; simpl; [discriminate|].
  destruct (y =? x)%Z; [auto|].
  destruct (list_index l x) as [j|e]; simpl; [|discriminate].
  intros [= <-]. now rewrite (IH j eq_refl).
Qed.

Lemma list_index_app_new (l : list Z) (x : Z) :
  ~ In x l -> list_index (l ++ [x]) x = Ret (length l).
Proof.
  induction l as [|y l IH]; intros Hn; simpl.
  - now rewrite Z.eqb_refl.
  - destruct (Z.eqb_spec y x) as [->|Hne]; [exfalso; apply Hn; now left|].
    rewrite IH; [reflexivity|]. intros H. apply Hn. now right.
Qed.

Lemma prepare_state_wf_state (target : Z) (s : statevec) (w : world) :
  wf_state s w ->
  wf_state (snd (fst (prepare_state target s w))) (snd (prepare_state target s w)).
Proof.
  intros [Hwf Hn]. rewrite prepare_state_spec by assumption. unfold wf_state.
  cbn [fst snd psi node_index heap]. unfold heap_set. rewrite Nat.eqb_refl. split.
  - unfold wf. cbn [data ndim]. rewrite length_kron, Hwf. cbn [plus data length].
    rewrite Nat.pow_add_r. simpl. lia.
  - cbn [ndim]. rewrite length_app, Hn. reflexivity.
Qed.

(** X12. In a session with one axis per label, after [prepare_state(target)]
    the session again has one axis per label; a label that was not live now
    names the new, last axis; and every label that was live, [target]
    included, still names the axis it named before, so that the axis added
    for a label that was already live cannot be reached through the label. *)
Theorem prepare_then_lookup (target : Z) (s : statevec) (w : world) :
  wf_state s w ->
  exists s' w',
    prepare_state target s w = (Ret tt, s', w') /\
    wf_state s' w' /\
    (~ In target (heap w (node_index s)) ->
       list_index (heap w' (node_index s')) target = Ret (ndim (psi s))) /\
    (forall x k, list_index (heap w (node_index s)) x = Ret k ->
       list_index (heap w' (node_index s')) x = Ret k).
Proof.
  intros Hs. pose proof (prepare_state_wf_state target s w Hs) as Hs'.
  destruct Hs as [Hwf Hn]. rewrite prepare_state_spec in Hs' |- * by assumption.
  cbn [fst snd] in Hs'.
  eexists. eexists. split; [reflexivity|]. split; [exact Hs'|].
  cbn [psi node_index heap]. unfold heap_set. rewrite Nat.eqb_refl. split.
  - intros H. rewrite Hn. now apply list_index_app_new.
  - intros x k H. now apply list_index_app.
Qed.

Lemma prepare_then_lookup_witness :
  wf_state s_two w_two /\
  exists s' w',
    prepare_state 5 s_two w_two = (Ret tt, s', w') /\
    wf_state s' w' /\
    (~ In 5%Z (heap w_two (node_index s_two)) ->
       list_index (heap w' (node_index s')) 5 = Ret (ndim (psi s_two))) /\
    (forall x k, list_index (heap w_two (node_index s_two)) x = Ret k ->
       list_index (heap w' (node_index s')) x = Ret k).
Proof.
  assert (H : wf_state s_two w_two) by exact wf_s_two.
  split; [exact H|]. exact (prepare_then_lookup 5 s_two w_two H).
Defined.

Lemma keeps_wf_state_ret {A} (a : A) : keeps_wf_state (ret a).
Proof. intros s w H. exact H. Qed.

Lemma keeps_wf_state_bind {A B} (m : M A) (k : A -> M B) :
  keeps_wf_state m -> (forall a, keeps_wf_state (k a)) -> keeps_wf_state (bind m k).
Proof.
  intros Hm Hk s w H. specialize (Hm s w H). unfold bind.
  destruct (m s w) as [[o s'] w']. cbn [fst snd] in Hm.
  destruct o as [a|e]; [now apply Hk|exact Hm].
Qed.

Lemma keeps_wf_state_prepare (target : Z) : keeps_wf_state (prepare_state target).
Proof.
  intros s w H. now apply prepare_state_wf_state.
Qed.

Lemma keeps_wf_state_entangle (a b : Z) : keeps_wf_state (entangle a b).
Proof.
  intros s w H.
  destruct (list_index (heap w (node_index s)) a) as [c|e] eqn:Ha.
  2:{ unfold entangle. munfold. now rewrite Ha. }
  destruct (list_index (heap w (node_index s)) b) as [t|e] eqn:Hb.
  2:{ unfold entangle. munfold. now rewrite Ha, Hb. }
  rewrite (entangle_after_lookup a b c t s w Ha Hb).
  destruct ((c <? ndim (psi s)) && (t <? ndim (psi s))); [|exact H].
  destruct (c =? t); [exact H|]. cbn [fst snd].
  destruct H as [H1 H2]. split; [apply wf_of_fun|exact H2].
Qed.

Lemma keeps_wf_state_swap (q : Z * Z) : keeps_wf_state (swap q).
Proof.
  intros s w H. rewrite swap_outcome. unfold swap_result.
  destruct (norm_axis IndexError (ndim (psi s)) (fst q)); [|exact H].
  destruct (norm_axis IndexError (ndim (psi s)) (snd q)); [|exact H].
  destruct (_ =? _); [exact H|]. cbn [fst snd].
  destruct H as [H1 H2]. split; [apply wf_of_fun|exact H2].
Qed.

Lemma keeps_wf_state_apply_correction (type : string) (index : Z)
    (domain results : list Z) :
  keeps_wf_state (apply_correction type index domain results).
Proof.
  intros s w H. unfold apply_correction. munfold.
  destruct (sum_at results domain 0) as [parity|e]; [|exact H].
  destruct (parity mod 2 =? 1)%Z; [|exact H].
  destruct (list_index (heap w (node_index s)) index) as [k|e]; [|exact H].
  now rewrite single_qubit_evolution_method_raises.
Qed.

(** X13. The invariant of a session, a full buffer and one axis per label,
    is kept by every sequence of [prepare_state], [entangle], [swap] and
    [apply_correction] calls, whatever their arguments and whether the
    sequence ends normally or with an exception. *)
Theorem lifecycle_keeps_wf_state (E : pauli_env) (cs : list call)
    (s : statevec) (w : world) :
  Forall lifecycle cs -> wf_state s w ->
  wf_state (snd (fst (run E cs s w))) (snd (run E cs s w)).
Proof.
  intros Hcs. revert s w. change (keeps_wf_state (run E cs)).
  induction Hcs as [|c cs Hc Hcs IH]; cbn [run]; [apply keeps_wf_state_ret|].
  apply keeps_wf_state_bind.
  - destruct c; try destruct Hc; cbn [do_call];
      (apply keeps_wf_state_bind; [|intros; apply keeps_wf_state_ret]).
    + apply keeps_wf_state_prepare.
    + apply keeps_wf_state_entangle.
    + apply keeps_wf_state_swap.
    + apply keeps_wf_state_apply_correction.
  - intros o. apply keeps_wf_state_bind; [exact IH|].
    intros. apply keeps_wf_state_ret.
Qed.

Lemma lifecycle_keeps_wf_state_witness :
  Forall lifecycle calls_four /\ wf_state s_two w_two /\
  wf_state (snd (fst (run E0 calls_four s_two w_two))) (snd (run E0 calls_four s_two w_two)).
Proof.
  assert (H1 : Forall lifecycle calls_four) by (repeat constructor).
  assert (H2 : wf_state s_two w_two) by exact wf_s_two.
  split; [exact H1|]. split; [exact H2|].
  exact (lifecycle_keeps_wf_state E0 calls_four s_two w_two H1 H2).
Defined.

(** ** [normalize] and [remove_qubit] *)

Local Open Scope R_scope.

Lemma Cdivr_C0 (x : R) : Cdivr C0 x = C0.
Proof. unfold Cdivr, C0. cbn [Re Im]. f_equal; unfold Rdiv; ring. Qed.

Lemma Cdivr_1 (z : C) : Cdivr z 1 = z.
Proof. destruct z. unfold Cdivr. cbn [Re Im]. f_equal; field. Qed.

Lemma get_divr (a : ndarray) (x : R) (idx : index) :
  get (divr a x) idx = Cdivr (get a idx) x.
Proof.
  unfold get, divr. cbn [data]. rewrite <- (Cdivr_C0 x) at 1.
  apply (map_nth (fun z => Cdivr z x)).
Qed.

Lemma divr_1 (a : ndarray) : divr a 1 = a.
Proof.
  destruct a as [n l]. unfold divr. cbn [ndim data]. f_equal.
  rewrite <- (map_id l) at 2. apply map_ext. intros z. apply Cdivr_1.
Qed.

(** X14. On a tensor whose norm is not zero, [normalize] returns a tensor of
    the same shape and of norm 1, each of whose amplitudes is the old one
    divided by the old norm, and leaves the session and the world as they
    are; normalizing the result again gives the result itself. *)
Theorem normalize_unit_norm (s : statevec) (w : world) :
  _norm (psi s) <> 0 ->
  exists p,
    normalize s w = (Ret p, s, w) /\
    ndim p = ndim (psi s) /\
    _norm p = 1 /\
    (forall idx, get p idx = Cdivr (get (psi s) idx) (_norm (psi s))) /\
    normalize (mk_statevec p (node_index s)) w = (Ret p, mk_statevec p (node_index s), w).
Proof.
  intros Hn. exists (divr (psi s) (_norm (psi s))).
  pose proof (_norm_normalized (psi s) Hn) as H1.
  repeat split.
  - exact H1.
  - intros idx. apply get_divr.
  - unfold normalize. munfold. now rewrite H1, divr_1.
Qed.

Lemma normalize_unit_norm_witness :
  _norm (psi s_two) <> 0 /\
  exists p,
    normalize s_two w_two = (Ret p, s_two, w_two) /\
    ndim p = ndim (psi s_two) /\
    _norm p = 1 /\
    (forall idx, get p idx = Cdivr (get (psi s_two) idx) (_norm (psi s_two))) /\
    normalize (mk_statevec p (node_index s_two)) w_two
      = (Ret p, mk_statevec p (node_index s_two), w_two).
Proof.
  assert (H : _norm (psi s_two) <> 0) by (rewrite _norm_s_two; lra).
  split; [exact H|]. exact (normalize_unit_norm s_two w_two H).
Defined.

Lemma take_in_range (psi : ndarray) (b : bool) (z : Z) :
  in_range (ndim psi) z -> take psi b z = Ret (slice psi b (axis_of (ndim psi) z)).
Proof. intros H. unfold take. now rewrite norm_axis_in_range. Qed.

(** X15. [remove_qubit] does not check that the qubit is collapsed.  For an
    axis number in range (negative ones count from the last axis), on a
    tensor whose norm and whose slice at index 0 of that axis are not
    numerically zero, it returns the slice at index 0 divided by its norm,
    whatever the slice at index 1 holds: the new tensor has one axis less
    and norm 1, and its amplitude at an index is the old amplitude at the
    index with a 0 inserted at the axis, divided by the norm of the slice. *)
Theorem remove_qubit_keeps_branch_0 (z : Z) (s : statevec) (w : world) :
  let n := ndim (psi s) in
  let k := axis_of n z in
  let N := _norm (slice (psi s) false k) in
  in_range n z ->
  isclose (_norm (psi s)) 0 = false ->
  isclose N 0 = false ->
  exists s',
    remove_qubit z s w = (Ret tt, s', w) /\
    node_index s' = node_index s /\
    S (ndim (psi s')) = n /\
    _norm (psi s') = 1 /\
    forall idx, length idx = (n - 1)%nat ->
      get (psi s') idx = Cdivr (get (psi s) (list_insert k false idx)) N.
Proof.
  intros n k N Hz Hn H0. unfold remove_qubit, normalize. munfold.
  rewrite Hn. munfold. rewrite take_in_range by exact Hz. fold n k N.
  rewrite H0. cbn [negb]. munfold.
  eexists. split; [reflexivity|]. cbn [psi node_index]. repeat split.
  - cbn [divr slice of_fun ndim]. fold n. pose proof (axis_of_lt n z Hz). lia.
  - apply _norm_normalized. now apply isclose_false_nonzero.
  - intros idx Hidx. rewrite get_divr. f_equal. unfold slice.
    now rewrite get_of_fun.
Qed.

Lemma remove_qubit_keeps_branch_0_witness :
  in_range (ndim (psi s_two)) (-1) /\
  isclose (_norm (psi s_two)) 0 = false /\
  isclose (_norm (slice (psi s_two) false (axis_of (ndim (psi s_two)) (-1)))) 0 = false /\
  exists s',
    remove_qubit (-1) s_two w_two = (Ret tt, s', w_two) /\
    node_index s' = node_index s_two /\
    S (ndim (psi s')) = ndim (psi s_two) /\
    _norm (psi s') = 1 /\
    forall idx, length idx = (ndim (psi s_two) - 1)%nat ->
      get (psi s') idx
      = Cdivr (get (psi s_two) (list_insert (axis_of (ndim (psi s_two)) (-1)) false idx))
              (_norm (slice (psi s_two) false (axis_of (ndim (psi s_two)) (-1)))).
Proof.
  assert (H1 : in_range (ndim (psi s_two)) (-1)) by (unfold in_range; simpl; lia).
  assert (H2 : isclose (_norm (psi s_two)) 0 = false).
  { rewrite _norm_s_two. exact isclose_one_false. }
  assert (H3 : isclose (_norm (slice (psi s_two) false (axis_of (ndim (psi s_two)) (-1)))) 0
               = false).
  { replace (_norm _) with 1; [exact isclose_one_false|].
    symmetry. rewrite _norm_normsq.
    change (data (slice (psi s_two) false (axis_of (ndim (psi s_two)) (-1))))
      with [C1; C0].
    unfold normsq. cbn [map fold_right]. unfold Cnorm2, C1, C0. cbn [Re Im].
    replace (1 * 1 + 0 * 0 + (0 * 0 + 0 * 0 + 0)) with 1 by ring. apply sqrt_1. }
  split; [exact H1|]. split; [exact H2|]. split; [exact H3|].
  exact (remove_qubit_keeps_branch_0 (-1) s_two w_two H1 H2 H3).
Defined.



(** *** Which slice [remove_qubit] keeps, and what it leaves alone *)

Lemma _norm_nonneg (a : ndarray) : 0 <= _norm a.
Proof. rewrite _norm_normsq. apply sqrt_pos. Qed.

Lemma isclose_0_true (x : R) : 0 <= x -> isclose x 0 = true -> x <= 1 / 100000000.
Proof.
  intros Hx. unfold isclose. rewrite Rminus_0_r, Rabs_R0, (Rabs_pos_eq x Hx).
  destruct (Rle_dec _ _) as [H|H]; [lra|discriminate].
Qed.

Lemma isclose_0_false (x : R) : 0 <= x -> isclose x 0 = false -> 1 / 100000000 < x.
Proof.
  intros Hx. unfold isclose. rewrite Rminus_0_r, Rabs_R0, (Rabs_pos_eq x Hx).
  destruct (Rle_dec _ _) as [H|H]; [discriminate|lra].
Qed.

(** The slice [remove_qubit] keeps has a norm that is not zero: either the
    slice at index 0 is not numerically zero, or the slice at index 1 carries
    what the slice at index 0 lacks of the norm of the tensor. *)
Lemma chosen_slice_norm (psi : ndarray) (k : nat) :
  wf psi -> (k < ndim psi)%nat -> isclose (_norm psi) 0 = false ->
  _norm (if isclose (_norm (slice psi false k)) 0
         then slice psi true k else slice psi false k) <> 0.
Proof.
  intros Hwf Hk Hn.
  destruct (isclose (_norm (slice psi false k)) 0) eqn:H0.
  - pose proof (isclose_0_true _ (_norm_nonneg _) H0) as Hle.
    pose proof (isclose_0_false _ (_norm_nonneg _) Hn) as Hlt.
    pose proof (normsq_slices psi k Hwf Hk) as Hsum.
    rewrite !_norm_normsq in *. intros E.
    apply sqrt_eq_0 in E; [|apply normsq_nonneg].
    rewrite E, Rplus_0_r in Hsum. rewrite Hsum in Hlt. lra.
  - now apply isclose_false_nonzero.
Qed.

Lemma remove_qubit_in_range (z : Z) (s : statevec) (w : world) :
  in_range (ndim (psi s)) z -> isclose (_norm (psi s)) 0 = false ->
  let k := axis_of (ndim (psi s)) z in
  let chosen := if isclose (_norm (slice (psi s) false k)) 0
                then slice (psi s) true k else slice (psi s) false k in
  remove_qubit z s w
  = (Ret tt, mk_statevec (divr chosen (_norm chosen)) (node_index s), w).
Proof.
  intros Hz Hn k chosen. unfold remove_qubit, normalize. munfold.
  rewrite Hn. munfold. rewrite take_in_range by exact Hz. fold k.
  unfold chosen.
  destruct (isclose (_norm (slice (psi s) false k)) 0); cbn [negb]; munfold.
  - rewrite take_in_range by exact Hz. reflexivity.
  - reflexivity.
Qed.

(** C4, the claim as stated fails.  Take the session of two qubits labelled
    0 and 1 in the state |00>: the axis of label 0 holds the basis state |0>.
    [remove_qubit] called on that axis returns and leaves a tensor with one
    axis, but the list of labels is still [[0; 1]]: the label is not
    deleted, and there are two labels for one axis.  A [measure] of label 0
    on the same session does not delete the label either. *)
Lemma remove_qubit_keeps_label :
  psi s_two = mk_ndarray 2 [C1; C0; C0; C0] /\
  heap w_two (node_index s_two) = [0; 1]%Z /\
  list_index (heap w_two (node_index s_two)) 0 = Ret 0%nat /\
  (exists s',
     remove_qubit 0 s_two w_two = (Ret tt, s', w_two) /\
     ndim (psi s') = 1%nat /\
     heap w_two (node_index s') = [0; 1]%Z) /\
  (exists e w',
     measure E0 0 XY 0 [] [] [] 0 s_two w_two = (Raise e, s_two, w') /\
     heap w' (node_index s_two) = [0; 1]%Z).
Proof.
  split; [reflexivity|]. split; [reflexivity|]. split; [reflexivity|]. split.
  - assert (Hz : in_range (ndim (psi s_two)) 0) by (unfold in_range; simpl; lia).
    assert (Hn : isclose (_norm (psi s_two)) 0 = false).
    { rewrite _norm_s_two. exact isclose_one_false. }
    eexists. split; [exact (remove_qubit_in_range 0 s_two w_two Hz Hn)|].
    cbn [psi node_index]. split; [|reflexivity].
    unfold divr. cbn [ndim].
    match goal with |- context [if ?c then _ else _] => destruct c end;
      reflexivity.
  - exists IndexError. eexists. split.
    + apply (measure_raises_after_draw E0 0 XY 0 [] [] [] 0 s_two w_two 0 0 tt);
        try reflexivity; [exact wf_s_two|simpl; auto].
    + reflexivity.
Qed.

(** C4, amended.  On a tensor with its full buffer and a norm that is not
    numerically zero, whatever its axis holds (a collapsed state of any
    basis in particular), [remove_qubit] called with an axis number in range
    returns; it keeps the slice at index 0 of the axis, and the slice at
    index 1 exactly when the norm of the slice at index 0 is numerically
    zero, which leaves a slice whose norm is not zero; it divides the slice
    by its norm, so the new tensor has norm 1, a full buffer and one axis
    less, its amplitude at an index being the old amplitude at the index with
    the kept bit inserted at the axis, over the norm of the slice; and it
    leaves the world, so the list of labels, as it was. *)
Theorem remove_qubit_selects_slice (index : Z) (s : statevec) (w : world) :
  let n := ndim (psi s) in
  let k := axis_of n index in
  let fallback := isclose (_norm (slice (psi s) false k)) 0 in
  let chosen := if fallback then slice (psi s) true k else slice (psi s) false k in
  wf (psi s) -> in_range n index -> isclose (_norm (psi s)) 0 = false ->
  exists psi' : ndarray,
    remove_qubit index s w = (Ret tt, mk_statevec psi' (node_index s), w) /\
    psi' = divr chosen (_norm chosen) /\
    _norm chosen <> 0 /\
    wf psi' /\ S (ndim psi') = n /\ _norm psi' = 1 /\
    (forall idx, length idx = ndim psi' ->
       get psi' idx
       = Cdivr (get (psi s) (list_insert k fallback idx)) (_norm chosen)) /\
    heap (snd (remove_qubit index s w)) (node_index s) = heap w (node_index s).
Proof.
  intros n k fallback chosen Hwf Hz Hn.
  pose proof (axis_of_lt n index Hz) as Hk. fold k in Hk.
  pose proof (chosen_slice_norm (psi s) k Hwf Hk Hn) as Hc.
  fold fallback in Hc. fold chosen in Hc.
  pose proof (remove_qubit_in_range index s w Hz Hn) as E. cbv zeta in E.
  fold n k fallback chosen in E.
  assert (Hd : ndim chosen = (n - 1)%nat) by (unfold chosen; now destruct fallback).
  assert (Hwc : wf chosen) by (unfold chosen; destruct fallback; apply wf_of_fun).
  exists (divr chosen (_norm chosen)). split; [exact E|]. split; [reflexivity|].
  split; [exact Hc|]. split.
  { unfold wf, divr in *. cbn [data ndim]. now rewrite length_map. }
  split.
  { change (ndim (divr chosen (_norm chosen))) with (ndim chosen). rewrite Hd.
    unfold n in *. lia. }
  split; [now apply _norm_normalized|]. split.
  - intros idx Hidx. rewrite get_divr. f_equal.
    change (ndim (divr chosen (_norm chosen))) with (ndim chosen) in Hidx.
    rewrite Hd in Hidx. unfold chosen, slice.
    destruct fallback; now rewrite get_of_fun.
  - now rewrite E.
Qed.


Lemma isclose_0_gt (x : R) : 1 / 100000000 < x -> isclose x 0 = false.
Proof.
  intros Hx. unfold isclose. rewrite Rminus_0_r, Rabs_R0, Rabs_pos_eq by lra.
  destruct (Rle_dec _ _) as [H|H]; [lra|reflexivity].
Qed.

Lemma isclose_0_le (x : R) : 0 <= x -> x <= 1 / 100000000 -> isclose x 0 = true.
Proof.
  intros H0 Hx. unfold isclose. rewrite Rminus_0_r, Rabs_R0, Rabs_pos_eq by lra.
  destruct (Rle_dec _ _) as [H|H]; [reflexivity|lra].
Qed.

Lemma _norm_s_projected : 1 / 2 <= _norm (psi s_projected).
Proof.
  rewrite _norm_normsq. unfold normsq, s_projected. cbn [psi data map fold_right].
  unfold Cnorm2, RtoC, C0. cbn [Re Im].
  rewrite <- (sqrt_square (1 / 2)) at 1 by lra. apply sqrt_le_1_alt. lra.
Qed.

Lemma _norm_slice_projected (b : bool) : _norm (slice (psi s_projected) b 0) = 1 / 2.
Proof.
  rewrite _norm_normsq.
  replace (data (slice (psi s_projected) b 0)) with [RtoC (1 / 2); C0]
    by now destruct b.
  unfold normsq. cbn [map fold_right]. unfold Cnorm2, RtoC, C0. cbn [Re Im].
  transitivity (sqrt (1 / 2 * (1 / 2))); [f_equal; lra|apply sqrt_square; lra].
Qed.

Lemma _norm_s_tiny : 1 <= _norm (psi s_tiny).
Proof.
  rewrite _norm_normsq. unfold normsq, s_tiny. cbn [psi data map fold_right].
  unfold Cnorm2, RtoC, C1. cbn [Re Im].
  rewrite <- sqrt_1 at 1. apply sqrt_le_1_alt. nra.
Qed.

Lemma _norm_slice0_tiny : _norm (slice (psi s_tiny) false 0) = 1 / 1000000000.
Proof.
  rewrite _norm_normsq.
  change (data (slice (psi s_tiny) false 0)) with [RtoC (1 / 1000000000)].
  unfold normsq. cbn [map fold_right]. unfold Cnorm2, RtoC. cbn [Re Im].
  transitivity (sqrt (1 / 1000000000 * (1 / 1000000000)));
    [f_equal; lra|apply sqrt_square; lra].
Qed.

Lemma _norm_slice1_tiny : _norm (slice (psi s_tiny) true 0) = 1.
Proof.
  rewrite _norm_normsq.
  change (data (slice (psi s_tiny) true 0)) with [C1].
  unfold normsq. cbn [map fold_right]. unfold Cnorm2, C1. cbn [Re Im].
  transitivity (sqrt 1); [f_equal; lra|apply sqrt_1].
Qed.

Lemma remove_qubit_selects_slice_witness :
  (wf (psi s_projected) /\ in_range (ndim (psi s_projected)) 0 /\
   isclose (_norm (psi s_projected)) 0 = false /\
   isclose (_norm (slice (psi s_projected) false 0)) 0 = false /\
   exists psi' : ndarray,
     remove_qubit 0 s_projected w_two
     = (Ret tt, mk_statevec psi' (node_index s_projected), w_two) /\
     psi' = divr (slice (psi s_projected) false 0) (1 / 2) /\
     S (ndim psi') = 2%nat /\ _norm psi' = 1 /\
     get psi' [false] = C1 /\ get psi' [true] = C0) /\
  (wf (psi s_tiny) /\ in_range (ndim (psi s_tiny)) (-1) /\
   isclose (_norm (psi s_tiny)) 0 = false /\
   _norm (slice (psi s_tiny) false 0) <> 0 /\
   isclose (_norm (slice (psi s_tiny) false 0)) 0 = true /\
   exists psi' : ndarray,
     remove_qubit (-1) s_tiny w_one
     = (Ret tt, mk_statevec psi' (node_index s_tiny), w_one) /\
     psi' = divr (slice (psi s_tiny) true 0) 1 /\
     S (ndim psi') = 1%nat /\ _norm psi' = 1 /\ get psi' [] = C1).
Proof.
  split.
  - assert (Hwf : wf (psi s_projected)) by reflexivity.
    assert (Hz : in_range (ndim (psi s_projected)) 0) by (unfold in_range; simpl; lia).
    assert (Hn : isclose (_norm (psi s_projected)) 0 = false).
    { apply isclose_0_gt. pose proof _norm_s_projected. lra. }
    assert (H0 : isclose (_norm (slice (psi s_projected) false 0)) 0 = false).
    { apply isclose_0_gt. rewrite _norm_slice_projected. lra. }
    split; [exact Hwf|]. split; [exact Hz|]. split; [exact Hn|]. split; [exact H0|].
    destruct (remove_qubit_selects_slice 0 s_projected w_two Hwf Hz Hn)
      as [psi' [E [Hp [_ [_ [Hd [Hu [Hget _]]]]]]]].
    change (axis_of (ndim (psi s_projected)) 0) with 0%nat in Hp, Hget.
    rewrite H0 in Hp, Hget. rewrite _norm_slice_projected in Hp, Hget.
    exists psi'. split; [exact E|]. split; [exact Hp|]. split; [exact Hd|].
    split; [exact Hu|].
    assert (Hl : ndim psi' = 1%nat) by (rewrite Hp; reflexivity).
    split.
    + rewrite (Hget [false]) by (now rewrite Hl).
      change (get (psi s_projected) (list_insert 0 false [false])) with (RtoC (1 / 2)).
      unfold Cdivr, RtoC, C1. cbn [Re Im]. f_equal; field.
    + rewrite (Hget [true]) by (now rewrite Hl).
      change (get (psi s_projected) (list_insert 0 false [true])) with C0.
      unfold Cdivr, C0. cbn [Re Im]. f_equal; field.
  - assert (Hwf : wf (psi s_tiny)) by reflexivity.
    assert (Hz : in_range (ndim (psi s_tiny)) (-1)) by (unfold in_range; simpl; lia).
    assert (Hn : isclose (_norm (psi s_tiny)) 0 = false).
    { apply isclose_0_gt. pose proof _norm_s_tiny. lra. }
    assert (Hnz : _norm (slice (psi s_tiny) false 0) <> 0).
    { rewrite _norm_slice0_tiny. lra. }
    assert (H0 : isclose (_norm (slice (psi s_tiny) false 0)) 0 = true).
    { apply isclose_0_le; rewrite _norm_slice0_tiny; lra. }
    split; [exact Hwf|]. split; [exact Hz|]. split; [exact Hn|].
    split; [exact Hnz|]. split; [exact H0|].
    destruct (remove_qubit_selects_slice (-1) s_tiny w_one Hwf Hz Hn)
      as [psi' [E [Hp [_ [_ [Hd [Hu [Hget _]]]]]]]].
    change (axis_of (ndim (psi s_tiny)) (-1)) with 0%nat in Hp, Hget.
    rewrite H0 in Hp, Hget. rewrite _norm_slice1_tiny in Hp, Hget.
    exists psi'. split; [exact E|]. split; [exact Hp|]. split; [exact Hd|].
    split; [exact Hu|].
    assert (Hl : ndim psi' = 0%nat) by (rewrite Hp; reflexivity).
    rewrite (Hget []) by (now rewrite Hl).
    change (get (psi s_tiny) (list_insert 0 true [])) with C1.
    unfold Cdivr, C1. cbn [Re Im]. f_equal; field.
Defined.

Local Close Scope R_scope.

(** ** [meas_op] *)

Local Open Scope R_scope.

Lemma meas_op_entries (x y z : R) (m : Z) :
  let sg := if Z.even m then 1 else -1 in
  meas_op (x, y, z) m =
  mk_ndarray 2 [mkC ((1 + sg * z) / 2) 0; mkC (sg * x / 2) (- (sg * y) / 2);
                mkC (sg * x / 2) (sg * y / 2); mkC ((1 - sg * z) / 2) 0].
Proof.
  intros sg. unfold meas_op, add, divr, scale. fold sg.
  cbn [fold_left seq nth CLIFFORD data ndim map combine fst snd vec_at Nat.add
       eye2 X_matrix Y_matrix Z_matrix].
  f_equal. apply list4_eq; cx; f_equal; field.
Qed.

(** X17. For every vector, the operators that [meas_op] builds for the two
    outcomes add up to the identity matrix, and the operator depends on the
    outcome only through its parity. *)
Theorem meas_op_complete (vec : R * R * R) (m : Z) :
  add (meas_op vec 0) (meas_op vec 1) = eye2 /\
  meas_op vec m = meas_op vec (m mod 2).
Proof.
  destruct vec as [[x y] z]. split.
  - rewrite !meas_op_entries. cbn [Z.even]. unfold add, eye2.
    cbn [ndim data combine map fst snd]. f_equal.
    apply list4_eq; cx; f_equal; field.
  - rewrite !meas_op_entries. cbv zeta.
    replace (Z.even (m mod 2)) with (Z.even m); [reflexivity|].
    rewrite (Z.div_mod m 2) at 1 by lia.
    rewrite Z.add_comm, Z.even_add_mul_2. reflexivity.
Qed.

(** X18. For a vector of length 1, the operator that [meas_op] builds is a
    projector: it is equal to its conjugate transpose and to its square. *)
Theorem meas_op_projector (x y z : R) (m : Z) :
  x * x + y * y + z * z = 1 ->
  let P := meas_op (x, y, z) m in
  matmul2 P P = P /\
  forall r c : bool, get P [r; c] = Cconj (get P [c; r]).
Proof.
  intros H P. unfold P. rewrite meas_op_entries. cbv zeta. split.
  - unfold matmul2, of_fun. cbn [all_indices map app nth]. f_equal.
    unfold get. cbn [data offset length nth Nat.pow Nat.mul Nat.add Csum fold_right].
    destruct (Z.even m);
      apply list4_eq; unfold Cadd, Cmul, C0; cbn [Re Im]; f_equal; nra.
  - intros r c. unfold get. cbn [data offset length Nat.pow Nat.mul Nat.add].
    destruct r, c; cbn [nth Nat.add]; unfold Cconj; cbn [Re Im]; f_equal; field.
Qed.

Lemma meas_op_projector_witness :
  1 * 1 + 0 * 0 + 0 * 0 = 1 /\
  matmul2 (meas_op (1, 0, 0) 0) (meas_op (1, 0, 0) 0) = meas_op (1, 0, 0) 0 /\
  forall r c : bool,
    get (meas_op (1, 0, 0) 0) [r; c] = Cconj (get (meas_op (1, 0, 0) 0) [c; r]).
Proof.
  assert (H : 1 * 1 + 0 * 0 + 0 * 0 = 1) by ring.
  split; [exact H|]. exact (meas_op_projector 1 0 0 0 H).
Defined.

Local Close Scope R_scope.

(** ** The function [single_qubit_evolution] *)

Lemma transpose_id2 (a : ndarray) :
  wf a -> ndim a = 2 -> transpose a [0; 1] = Ret a.
Proof.
  intros Hwf Hn. unfold transpose. rewrite Hn. cbn [is_perm].
  change (is_perm 2 [0; 1]) with true. cbv iota. f_equal.
  etransitivity; [|apply (of_fun_get a Hwf)]. rewrite Hn.
  apply of_fun_ext. intros idx Hidx.
  destruct idx as [|b0 [|b1 [|b2 idx]]]; try discriminate. reflexivity.
Qed.

Lemma single_qubit_evolution_in_range (op psi : ndarray) (z : Z) :
  wf op -> ndim op = 2 -> in_range (ndim psi) z ->
  single_qubit_evolution (PyArray psi) op z
  = Ret (apply1 op psi (axis_of (ndim psi) z)).
Proof.
  intros Hwf Hop Hz. pose proof (transpose_id2 op Hwf Hop) as Hopt.
  set (n := ndim psi) in *. set (k := axis_of n z).
  assert (Hk : k < n) by now apply axis_of_lt.
  unfold single_qubit_evolution, tensordot_obj, tensordot.
  cbn [length Nat.eqb negb]. rewrite Hop.
  change (norm_axes IndexError 2 [1%Z]) with (Ret (A:=list nat) [1]).
  cbn [obind norm_axes]. fold n. rewrite (norm_axis_in_range IndexError n z Hz).
  fold k. cbn [obind]. change (notin 2 [1] ++ [1]) with [0; 1]. rewrite Hopt.
  cbn [obind]. unfold transpose at 1. fold n. cbn [app].
  rewrite is_perm_axes1 by assumption. cbn [obind].
  unfold moveaxis. cbn [ndim of_fun].
  change (length (notin 2 [1])) with 1.
  assert (Hlen : length (notin n [k]) = n - 1).
  { rewrite notin_single by assumption. poslist. lia. }
  rewrite Hlen. replace (1 + (n - 1)) with n by lia.
  cbn [norm_axes].
  assert (H0 : norm_axis AxisError n 0%Z = Ret 0)
    by (apply (norm_axis_of_nat AxisError n 0); lia).
  rewrite H0, (norm_axis_in_range AxisError n z Hz). fold k.
  cbn [obind has_dup mem existsb orb].
  cbn [length Nat.eqb negb]. fold (order1 n k). unfold transpose. cbn [ndim].
  rewrite is_perm_order1 by assumption.
  f_equal. unfold apply1. fold n. apply of_fun_ext. intros idx Hidx.
  rewrite permute_index_order1 by assumption.
  rewrite get_of_fun by (cbn [length]; rewrite length_map, Hlen; lia).
  f_equal. apply map_ext_in. intros s Hs. apply in_all_indices in Hs.
  destruct s as [|s0 [|s1 s]]; try discriminate.
  cbn [firstn skipn app nth].
  f_equal. rewrite get_of_fun by (cbn [length]; rewrite length_map, Hlen; lia).
  now rewrite permute_index_axes1.
Qed.

Lemma get_apply1 (op psi : ndarray) (k : nat) (idx : index) :
  length idx = ndim psi ->
  get (apply1 op psi k) idx =
  Cadd (Cmul (get op [nth k idx false; false]) (get psi (set1 k false idx)))
       (Cmul (get op [nth k idx false; true]) (get psi (set1 k true idx))).
Proof.
  intros H. unfold apply1. rewrite get_of_fun by assumption.
  cbn [all_indices map app nth Csum fold_right]. now rewrite Cadd_0_r.
Qed.

Lemma get_matmul2 (a b : ndarray) (r c : bool) :
  get (matmul2 a b) [r; c] =
  Cadd (Cmul (get a [r; false]) (get b [false; c]))
       (Cmul (get a [r; true]) (get b [true; c])).
Proof.
  unfold matmul2. rewrite get_of_fun by reflexivity.
  cbn [map nth Csum fold_right]. now rewrite Cadd_0_r.
Qed.

Lemma set1_comm (k1 k2 : nat) (b1 b2 : bool) (idx : index) :
  k1 <> k2 -> set1 k1 b1 (set1 k2 b2 idx) = set1 k2 b2 (set1 k1 b1 idx).
Proof.
  intros Hne. unfold set1 at 1 3. rewrite !length_set1.
  apply map_ext_in. intros m Hm. apply in_seq in Hm.
  rewrite !nth_set1 by lia.
  destruct (Nat.eqb_spec m k1), (Nat.eqb_spec m k2); try reflexivity. lia.
Qed.

Lemma apply1_apply1 (a b psi : ndarray) (k : nat) :
  k < ndim psi ->
  apply1 b (apply1 a psi k) k = apply1 (matmul2 b a) psi k.
Proof.
  intros Hk. unfold apply1 at 1 3. cbn [ndim apply1 of_fun].
  apply of_fun_ext. intros idx Hidx.
  cbn [all_indices map app nth Csum fold_right].
  rewrite !get_apply1 by now rewrite length_set1.
  rewrite !nth_set1, !Nat.eqb_refl by lia.
  rewrite !set1_set1 by lia. rewrite !get_matmul2.
  generalize (get psi (set1 k false idx)) (get psi (set1 k true idx)).
  generalize (get a [false; false]) (get a [false; true])
             (get a [true; false]) (get a [true; true]).
  generalize (get b [nth k idx false; false]) (get b [nth k idx false; true]).
  cx.
Qed.

Lemma apply1_comm (a b psi : ndarray) (k1 k2 : nat) :
  k1 < ndim psi -> k2 < ndim psi -> k1 <> k2 ->
  apply1 a (apply1 b psi k2) k1 = apply1 b (apply1 a psi k1) k2.
Proof.
  intros H1 H2 Hne. unfold apply1 at 1 3. cbn [ndim apply1 of_fun].
  apply of_fun_ext. intros idx Hidx.
  cbn [all_indices map app nth Csum fold_right].
  rewrite !get_apply1 by now rewrite length_set1.
  rewrite !nth_set1 by lia.
  replace (k2 =? k1) with false by (symmetry; apply Nat.eqb_neq; lia).
  replace (k1 =? k2) with false by (symmetry; apply Nat.eqb_neq; lia).
  rewrite (set1_comm k2 k1 false false), (set1_comm k2 k1 false true),
          (set1_comm k2 k1 true false), (set1_comm k2 k1 true true) by lia.
  generalize (get psi (set1 k1 false (set1 k2 false idx)))
             (get psi (set1 k1 true (set1 k2 false idx)))
             (get psi (set1 k1 false (set1 k2 true idx)))
             (get psi (set1 k1 true (set1 k2 true idx))).
  generalize (get a [nth k1 idx false; false]) (get a [nth k1 idx false; true])
             (get b [nth k2 idx false; false]) (get b [nth k2 idx false; true]).
  cx.
Qed.

Lemma wf_X_matrix : wf X_matrix.
Proof. reflexivity. Qed.

Lemma wf_Z_matrix : wf Z_matrix.
Proof. reflexivity. Qed.

Lemma in_range_s_two_0 : in_range (ndim (psi s_two)) 0.
Proof. unfold in_range. simpl. lia. Qed.

Lemma in_range_s_two_m1 : in_range (ndim (psi s_two)) (-1).
Proof. unfold in_range. simpl. lia. Qed.

(** X19. Handed an array, a 2x2 operator with its full buffer and an axis
    number in range (negative ones count from the last axis), the function
    [single_qubit_evolution] returns an array of the same shape whose
    amplitude at an index is the sum over [j] of [op[b, j]] times the old
    amplitude at the index with [j] at the axis, [b] being the bit of the
    index at the axis. *)
Theorem single_qubit_evolution_applies (op psi : ndarray) (z : Z) :
  wf op -> ndim op = 2 -> in_range (ndim psi) z ->
  let k := axis_of (ndim psi) z in
  exists p,
    single_qubit_evolution (PyArray psi) op z = Ret p /\
    wf p /\ ndim p = ndim psi /\
    forall idx, length idx = ndim psi ->
      get p idx =
      Cadd (Cmul (get op [nth k idx false; false]) (get psi (set1 k false idx)))
           (Cmul (get op [nth k idx false; true]) (get psi (set1 k true idx))).
Proof.
  intros Hwf Hop Hz k. exists (apply1 op psi k).
  split; [now apply single_qubit_evolution_in_range|].
  split; [apply wf_of_fun|]. split; [reflexivity|].
  intros idx Hidx. now apply get_apply1.
Qed.

Lemma single_qubit_evolution_applies_witness :
  wf X_matrix /\ ndim X_matrix = 2 /\ in_range (ndim (psi s_two)) (-1) /\
  exists p,
    single_qubit_evolution (PyArray (psi s_two)) X_matrix (-1) = Ret p /\
    wf p /\ ndim p = ndim (psi s_two) /\
    forall idx, length idx = ndim (psi s_two) ->
      get p idx =
      Cadd (Cmul (get X_matrix [nth (axis_of (ndim (psi s_two)) (-1)) idx false; false])
                 (get (psi s_two) (set1 (axis_of (ndim (psi s_two)) (-1)) false idx)))
           (Cmul (get X_matrix [nth (axis_of (ndim (psi s_two)) (-1)) idx false; true])
                 (get (psi s_two) (set1 (axis_of (ndim (psi s_two)) (-1)) true idx))).
Proof.
  split; [exact wf_X_matrix|]. split; [reflexivity|].
  split; [exact in_range_s_two_m1|].
  exact (single_qubit_evolution_applies X_matrix (psi s_two) (-1)
           wf_X_matrix eq_refl in_range_s_two_m1).
Defined.

(** X20. Applying the operator [a] and then the operator [b] to the same
    axis with [single_qubit_evolution] gives what one application of the
    matrix product [b a] gives. *)
Theorem single_qubit_evolution_compose (a b psi : ndarray) (z : Z) :
  wf a -> ndim a = 2 -> wf b -> ndim b = 2 -> in_range (ndim psi) z ->
  exists p1,
    single_qubit_evolution (PyArray psi) a z = Ret p1 /\
    single_qubit_evolution (PyArray p1) b z
    = single_qubit_evolution (PyArray psi) (matmul2 b a) z.
Proof.
  intros Ha Na Hb Nb Hz. exists (apply1 a psi (axis_of (ndim psi) z)).
  split; [now apply single_qubit_evolution_in_range|].
  rewrite (single_qubit_evolution_in_range b) by assumption.
  rewrite (single_qubit_evolution_in_range (matmul2 b a))
    by (try apply wf_of_fun; try reflexivity; assumption).
  cbn [apply1 of_fun ndim]. f_equal.
  apply apply1_apply1. now apply axis_of_lt.
Qed.

Lemma single_qubit_evolution_compose_witness :
  wf X_matrix /\ ndim X_matrix = 2 /\ wf Z_matrix /\ ndim Z_matrix = 2 /\
  in_range (ndim (psi s_two)) 0 /\
  exists p1,
    single_qubit_evolution (PyArray (psi s_two)) X_matrix 0 = Ret p1 /\
    single_qubit_evolution (PyArray p1) Z_matrix 0
    = single_qubit_evolution (PyArray (psi s_two)) (matmul2 Z_matrix X_matrix) 0.
Proof.
  split; [exact wf_X_matrix|]. split; [reflexivity|].
  split; [exact wf_Z_matrix|]. split; [reflexivity|].
  split; [exact in_range_s_two_0|].
  exact (single_qubit_evolution_compose X_matrix Z_matrix (psi s_two) 0
           wf_X_matrix eq_refl wf_Z_matrix eq_refl in_range_s_two_0).
Defined.

(** X21. Operators applied with [single_qubit_evolution] to two different
    axes commute: both orders return the same array. *)
Theorem single_qubit_evolution_commute (a b psi : ndarray) (z1 z2 : Z) :
  wf a -> ndim a = 2 -> wf b -> ndim b = 2 ->
  in_range (ndim psi) z1 -> in_range (ndim psi) z2 ->
  axis_of (ndim psi) z1 <> axis_of (ndim psi) z2 ->
  exists p1 p2 p,
    single_qubit_evolution (PyArray psi) a z1 = Ret p1 /\
    single_qubit_evolution (PyArray p1) b z2 = Ret p /\
    single_qubit_evolution (PyArray psi) b z2 = Ret p2 /\
    single_qubit_evolution (PyArray p2) a z1 = Ret p.
Proof.
  intros Ha Na Hb Nb H1 H2 Hne.
  set (k1 := axis_of (ndim psi) z1) in *. set (k2 := axis_of (ndim psi) z2) in *.
  exists (apply1 a psi k1), (apply1 b psi k2), (apply1 b (apply1 a psi k1) k2).
  split; [now apply single_qubit_evolution_in_range|].
  split; [now rewrite single_qubit_evolution_in_range|].
  split; [now apply single_qubit_evolution_in_range|].
  rewrite single_qubit_evolution_in_range by assumption.
  cbn [apply1 of_fun ndim]. fold k1. f_equal.
  apply apply1_comm; try assumption; now apply axis_of_lt.
Qed.

Lemma single_qubit_evolution_commute_witness :
  wf X_matrix /\ ndim X_matrix = 2 /\ wf Z_matrix /\ ndim Z_matrix = 2 /\
  in_range (ndim (psi s_two)) 0 /\ in_range (ndim (psi s_two)) (-1) /\
  axis_of (ndim (psi s_two)) 0 <> axis_of (ndim (psi s_two)) (-1) /\
  exists p1 p2 p,
    single_qubit_evolution (PyArray (psi s_two)) X_matrix 0 = Ret p1 /\
    single_qubit_evolution (PyArray p1) Z_matrix (-1) = Ret p /\
    single_qubit_evolution (PyArray (psi s_two)) Z_matrix (-1) = Ret p2 /\
    single_qubit_evolution (PyArray p2) X_matrix 0 = Ret p.
Proof.
  assert (Hne : axis_of (ndim (psi s_two)) 0 <> axis_of (ndim (psi s_two)) (-1))
    by (vm_compute; lia).
  split; [exact wf_X_matrix|]. split; [reflexivity|].
  split; [exact wf_Z_matrix|]. split; [reflexivity|].
  split; [exact in_range_s_two_0|]. split; [exact in_range_s_two_m1|].
  split; [exact Hne|].
  exact (single_qubit_evolution_commute X_matrix Z_matrix (psi s_two) 0 (-1)
           wf_X_matrix eq_refl wf_Z_matrix eq_refl
           in_range_s_two_0 in_range_s_two_m1 Hne).
Defined.

(** X22. The function [single_qubit_evolution] raises [IndexError] when the
    axis number is out of range for the array, whatever the operator. *)
Theorem single_qubit_evolution_out_of_range (op psi : ndarray) (z : Z) :
  ~ in_range (ndim psi) z ->
  single_qubit_evolution (PyArray psi) op z = Raise IndexError.
Proof.
  intros Hz. unfold single_qubit_evolution, tensordot_obj, tensordot.
  cbn [length Nat.eqb negb norm_axes].
  rewrite (norm_axis_out_of_range IndexError _ _ Hz).
  destruct (norm_axis IndexError (ndim op) 1) as [k|e] eqn:E; cbn [obind].
  - reflexivity.
  - now rewrite (norm_axis_raise_exn _ _ _ _ E).
Qed.

Lemma single_qubit_evolution_out_of_range_witness :
  ~ in_range (ndim (psi s_two)) 2 /\
  single_qubit_evolution (PyArray (psi s_two)) X_matrix 2 = Raise IndexError.
Proof.
  assert (H : ~ in_range (ndim (psi s_two)) 2) by (unfold in_range; simpl; lia).
  split; [exact H|].
  exact (single_qubit_evolution_out_of_range X_matrix (psi s_two) 2 H).
Defined.

(** ** [expectation_single] *)

Local Open Scope R_scope.

Lemma Csum_add {A} (f g : A -> C) (L : list A) :
  Cadd (Csum (map f L)) (Csum (map g L)) = Csum (map (fun x => Cadd (f x) (g x)) L).
Proof.
  unfold Csum. induction L as [|x L IH]; cbn [map fold_right]; [apply Cadd_0_l|].
  rewrite <- IH.
  generalize (fold_right Cadd C0 (map f L)) (fold_right Cadd C0 (map g L)) (f x) (g x).
  cx.
Qed.

Lemma emul_map {A} (f g : A -> C) (L : list A) :
  emul (map f L) (map g L) = map (fun x => Cmul (f x) (g x)) L.
Proof.
  unfold emul. induction L as [|x L IH]; cbn [map combine fst snd]; [reflexivity|].
  now rewrite <- IH.
Qed.

Lemma wf_divr (a : ndarray) (x : R) : wf a -> wf (divr a x).
Proof. unfold wf, divr. cbn [data ndim]. now rewrite length_map. Qed.

Lemma wf_meas_op (vec : R * R * R) (m : Z) : wf (meas_op vec m).
Proof. destruct vec as [[x y] z]. now rewrite meas_op_entries. Qed.

(** The value [expectation_single] returns: the sum over the indices of the
    conjugate of an amplitude of the normalized tensor times the amplitude of
    the evolved tensor. *)
Lemma expectation_single_value (op : ndarray) (z : Z) (s : statevec) (w : world) :
  wf (psi s) -> wf op -> ndim op = 2%nat -> in_range (ndim (psi s)) z ->
  let p := divr (psi s) (_norm (psi s)) in
  let k := axis_of (ndim (psi s)) z in
  expectation_single op z s w =
  (Ret (Csum (map (fun idx => Cmul (Cconj (get p idx)) (get (apply1 op p k) idx))
                  (all_indices (ndim (psi s))))), s, w).
Proof.
  intros Hwf Hop Nop Hz p k. unfold expectation_single, normalize. munfold.
  fold p. rewrite (single_qubit_evolution_in_range op p z Hop Nop Hz).
  change (ndim p) with (ndim (psi s)). fold k.
  assert (Hp : wf p) by now apply wf_divr.
  unfold dot. rewrite (data_wf p Hp). change (ndim p) with (ndim (psi s)).
  rewrite (data_wf (apply1 op p k) (wf_of_fun _ _)).
  change (ndim (apply1 op p k)) with (ndim (psi s)).
  unfold conj. rewrite map_map, !length_map, Nat.eqb_refl.
  now rewrite emul_map.
Qed.

(** X23. Projector completeness: on a tensor with its full buffer and a norm
    that is not zero, for every vector and every axis number in range, the
    expectation values of the operators of outcome 0 and of outcome 1 are both
    computed, the session and the world are left as they are, and the two
    values add up to 1. *)
Theorem expectation_complete (vec : R * R * R) (z : Z) (s : statevec) (w : world) :
  wf (psi s) -> in_range (ndim (psi s)) z -> _norm (psi s) <> 0 ->
  exists e0 e1,
    expectation_single (meas_op vec 0) z s w = (Ret e0, s, w) /\
    expectation_single (meas_op vec 1) z s w = (Ret e1, s, w) /\
    Cadd e0 e1 = C1.
Proof.
  intros Hwf Hz Hn.
  pose proof (expectation_single_value (meas_op vec 0) z s w Hwf
                (wf_meas_op vec 0) eq_refl Hz) as E0.
  pose proof (expectation_single_value (meas_op vec 1) z s w Hwf
                (wf_meas_op vec 1) eq_refl Hz) as E1.
  cbv zeta in E0, E1.
  set (p := divr (psi s) (_norm (psi s))) in *.
  set (k := axis_of (ndim (psi s)) z) in *.
  eexists. eexists. split; [exact E0|]. split; [exact E1|].
  rewrite Csum_add.
  assert (Hp : wf p) by now apply wf_divr.
  assert (H1 : normsq (data p) = 1).
  { pose proof (_norm_normalized (psi s) Hn) as H. fold p in H.
    rewrite _norm_normsq in H.
    rewrite <- (sqrt_sqrt (normsq (data p))) by apply normsq_nonneg.
    rewrite H. ring. }
  transitivity (RtoC (normsq (data p))); [|now rewrite H1].
  rewrite <- Csum_RtoC, (data_wf p Hp), map_map.
  change (ndim p) with (ndim (psi s)).
  f_equal. apply map_ext_in. intros idx Hidx. apply in_all_indices in Hidx.
  rewrite !get_apply1 by exact Hidx.
  destruct vec as [[x y] z0]. rewrite !meas_op_entries. cbv zeta. cbn [Z.even].
  pose proof (set1_same k idx) as Hs.
  unfold get at 2 4 7 9. cbn [data offset length Nat.pow Nat.mul Nat.add].
  destruct (nth k idx false); cbn [nth Nat.add]; rewrite Hs;
    generalize (get p idx); intros q;
    [generalize (get p (set1 k false idx))|generalize (get p (set1 k true idx))];
    intros q'; destruct q, q';
    unfold Cadd, Cmul, Cconj, RtoC, Cnorm2; cbn [Re Im]; f_equal; field.
Qed.

Lemma expectation_complete_witness :
  wf (psi s_two) /\ in_range (ndim (psi s_two)) 0 /\ _norm (psi s_two) <> 0 /\
  exists e0 e1,
    expectation_single (meas_op (0, 0, 1) 0) 0 s_two w_two = (Ret e0, s_two, w_two) /\
    expectation_single (meas_op (0, 0, 1) 1) 0 s_two w_two = (Ret e1, s_two, w_two) /\
    Cadd e0 e1 = C1.
Proof.
  assert (H1 : wf (psi s_two)) by reflexivity.
  assert (H3 : _norm (psi s_two) <> 0) by (rewrite _norm_s_two; lra).
  split; [exact H1|]. split; [exact in_range_s_two_0|]. split; [exact H3|].
  exact (expectation_complete (0, 0, 1) 0 s_two w_two H1 in_range_s_two_0 H3).
Defined.

Local Close Scope R_scope.

(** ** What [measure] and [apply_correction] check, and when *)

Lemma getitem_valid {A} (l : list A) (i : Z) :
  valid_index l i -> exists x, getitem l i = Ret x.
Proof.
  unfold valid_index, getitem. intros H.
  set (n := Z.of_nat (length l)) in *.
  set (j := if (i <? 0)%Z then (i + n)%Z else i).
  assert (Hj : (0 <= j < n)%Z) by (unfold j; destruct (Z.ltb_spec i 0); lia).
  replace ((0 <=? j)%Z && (j <? n)%Z) with true
    by (symmetry; apply andb_true_iff; split; [apply Z.leb_le|apply Z.ltb_lt]; lia).
  destruct (nth_error l (Z.to_nat j)) as [x|] eqn:E; [now exists x|].
  apply nth_error_None in E. unfold n in Hj. lia.
Qed.

Lemma getitem_invalid {A} (l : list A) (i : Z) :
  ~ valid_index l i -> getitem l i = Raise IndexError.
Proof.
  unfold valid_index, getitem. intros H.
  set (n := Z.of_nat (length l)) in *.
  destruct (Z.ltb_spec i 0);
    destruct (Z.leb_spec 0 (i + n)), (Z.ltb_spec (i + n) n),
             (Z.leb_spec 0 i), (Z.ltb_spec i n); cbn [andb]; try reflexivity; lia.
Qed.

Lemma valid_index_dec {A} (l : list A) (i : Z) : {valid_index l i} + {~ valid_index l i}.
Proof.
  unfold valid_index.
  destruct (Z_le_dec (- Z.of_nat (length l)) i), (Z_lt_dec i (Z.of_nat (length l)));
    [left|right|right|right]; lia.
Qed.

Lemma sum_at_valid (results domain : list Z) (acc : Z) :
  valid_domain results domain -> exists p, sum_at results domain acc = Ret p.
Proof.
  intros H. revert acc. induction H as [|i r Hi Hr IH]; intros acc; cbn [sum_at].
  - now exists acc.
  - destruct (getitem_valid results i Hi) as [v ->]. cbn [obind]. apply IH.
Qed.

Lemma sum_at_invalid (results domain : list Z) (acc : Z) :
  ~ valid_domain results domain -> sum_at results domain acc = Raise IndexError.
Proof.
  revert acc. induction domain as [|i r IH]; intros acc H; cbn [sum_at].
  - exfalso. apply H. constructor.
  - destruct (valid_index_dec results i) as [Hi|Hi].
    + destruct (getitem_valid results i Hi) as [v ->]. cbn [obind].
      apply IH. intros Hr. apply H. now constructor.
    + now rewrite (getitem_invalid results i Hi).
Qed.

Lemma valid_domain_dec (results domain : list Z) :
  {valid_domain results domain} + {~ valid_domain results domain}.
Proof. apply Forall_dec. apply valid_index_dec. Qed.

(** X24. [measure] checks its arguments before it draws: with an index of a
    domain that is out of range for the record, or a frame index out of range
    for the table, it raises [IndexError]; with valid domains and frame but a
    label that is not live it raises [ValueError]; in both cases no sample is
    drawn and the session and the world are as before the call. *)
Theorem measure_checks_before_draw (E : pauli_env) (index : Z) (plane : Plane)
    (angle : R) (s_domain t_domain measurements : list Z) (vop : Z)
    (s : statevec) (w : world) :
  (~ valid_domain measurements s_domain \/ ~ valid_domain measurements t_domain \/
   ~ valid_index (TABLE E) vop ->
     measure E index plane angle s_domain t_domain measurements vop s w
     = (Raise IndexError, s, w)) /\
  (valid_domain measurements s_domain -> valid_domain measurements t_domain ->
   valid_index (TABLE E) vop -> ~ In index (heap w (node_index s)) ->
     measure E index plane angle s_domain t_domain measurements vop s w
     = (Raise ValueError, s, w)).
Proof.
  split.
  - intros H. unfold measure. unfold bind at 1. unfold lift at 1.
    destruct (valid_domain_dec measurements s_domain) as [Vs|Vs].
    2:{ now rewrite (sum_at_invalid _ _ 0 Vs). }
    destruct (sum_at_valid _ _ 0 Vs) as [ss ->].
    unfold bind at 1. unfold lift at 1.
    destruct (valid_domain_dec measurements t_domain) as [Vt|Vt].
    2:{ now rewrite (sum_at_invalid _ _ 0 Vt). }
    destruct (sum_at_valid _ _ 0 Vt) as [ts ->].
    unfold bind at 1. unfold lift at 1.
    destruct H as [H|[H|H]]; try contradiction.
    now rewrite (getitem_invalid _ _ H).
  - intros Vs Vt Vv Hn. unfold measure.
    destruct (sum_at_valid _ _ 0 Vs) as [ss Hs].
    destruct (sum_at_valid _ _ 0 Vt) as [ts Ht].
    destruct (getitem_valid _ _ Vv) as [cl Hcl].
    unfold bind at 1. unfold lift at 1. rewrite Hs.
    unfold bind at 1. unfold lift at 1. rewrite Ht.
    unfold bind at 1. unfold lift at 1. rewrite Hcl.
    cbv zeta. unfold bind at 1. unfold measure_sample. cbv zeta.
    unfold bind at 1. unfold read_nodes at 1.
    unfold bind at 1. unfold lift at 1.
    now rewrite (list_index_not_In _ _ Hn).
Qed.

Lemma measure_checks_before_draw_witness :
  measure E0 0 XY 0 [3%Z] [] [1%Z] 0 s_two w_two = (Raise IndexError, s_two, w_two) /\
  measure E0 7 XY 0 [0%Z] [(-1)%Z] [1%Z] 0 s_two w_two = (Raise ValueError, s_two, w_two).
Proof.
  destruct (measure_checks_before_draw E0 0 XY 0 [3%Z] [] [1%Z] 0 s_two w_two)
    as [H1 _].
  destruct (measure_checks_before_draw E0 7 XY 0 [0%Z] [(-1)%Z] [1%Z] 0 s_two w_two)
    as [_ H2].
  split.
  - apply H1. left. intros H. inversion H as [|? ? Hi _]; subst.
    unfold valid_index in Hi. simpl in Hi. lia.
  - apply H2.
    + repeat constructor; unfold valid_index; simpl; lia.
    + repeat constructor; unfold valid_index; simpl; lia.
    + unfold valid_index. simpl. lia.
    + simpl. intros [E|[E|[]]]; discriminate.
Defined.

(** X25. [apply_correction] reads the record first: with an index of the
    domain out of range it raises [IndexError]; otherwise, with an even parity
    it returns and changes nothing, without looking at the label or the kind,
    so that it returns even for a label that is not live; with an odd parity
    and a label that is not live it raises [ValueError].  In every case the
    session and the world are as before the call. *)
Theorem apply_correction_edge_cases (type : string) (index : Z)
    (domain results : list Z) (s : statevec) (w : world) :
  (~ valid_domain results domain ->
     apply_correction type index domain results s w = (Raise IndexError, s, w)) /\
  (forall parity, sum_at results domain 0 = Ret parity -> (parity mod 2 <> 1)%Z ->
     apply_correction type index domain results s w = (Ret tt, s, w)) /\
  (forall parity, sum_at results domain 0 = Ret parity -> (parity mod 2 = 1)%Z ->
     ~ In index (heap w (node_index s)) ->
     apply_correction type index domain results s w = (Raise ValueError, s, w)).
Proof.
  repeat split.
  - intros H. unfold apply_correction. munfold. now rewrite (sum_at_invalid _ _ 0 H).
  - intros parity Hp Hodd. unfold apply_correction. munfold. rewrite Hp.
    now destruct (Z.eqb_spec (parity mod 2) 1).
  - intros parity Hp Hodd Hn. unfold apply_correction. munfold. rewrite Hp, Hodd.
    cbn [Z.eqb Pos.eqb]. now rewrite (list_index_not_In _ _ Hn).
Qed.

Lemma apply_correction_edge_cases_witness :
  apply_correction "X" 0 [5%Z] [1%Z] s_two w_two = (Raise IndexError, s_two, w_two) /\
  apply_correction "X" 7 [0%Z; (-1)%Z] [1%Z] s_two w_two = (Ret tt, s_two, w_two) /\
  apply_correction "X" 7 [0%Z] [1%Z] s_two w_two = (Raise ValueError, s_two, w_two).
Proof.
  destruct (apply_correction_edge_cases "X" 0 [5%Z] [1%Z] s_two w_two) as [H1 _].
  destruct (apply_correction_edge_cases "X" 7 [0%Z; (-1)%Z] [1%Z] s_two w_two)
    as [_ [H2 _]].
  destruct (apply_correction_edge_cases "X" 7 [0%Z] [1%Z] s_two w_two) as [_ [_ H3]].
  split; [|split].
  - apply H1. intros H. inversion H as [|? ? Hi _]; subst.
    unfold valid_index in Hi. simpl in Hi. lia.
  - apply (H2 2%Z); [reflexivity|discriminate].
  - apply (H3 1%Z); [reflexivity|reflexivity|].
    simpl. intros [E|[E|[]]]; discriminate.
Defined.

(** ** [multi_qubit_evolution] *)

Lemma transpose_id4 (a : ndarray) :
  wf a -> ndim a = 4 -> transpose a [0; 1; 2; 3] = Ret a.
Proof.
  intros Hwf Hn. unfold transpose. rewrite Hn.
  change (is_perm 4 [0; 1; 2; 3]) with true. cbv iota. f_equal.
  etransitivity; [|apply (of_fun_get a Hwf)]. rewrite Hn.
  apply of_fun_ext. intros idx Hidx.
  destruct idx as [|b0 [|b1 [|b2 [|b3 [|b4 idx]]]]]; try discriminate. reflexivity.
Qed.

(** X26. Given an operator of first length 4 with 16 entries and two axis
    numbers in range that name different axes [c] and [t],
    [multi_qubit_evolution] returns, keeps the labels and the world, and the
    new amplitude at an index is the sum over the two bits [s0], [s1] of the
    entry of the operator at row [(idx[c], idx[t])] and column [(s0, s1)]
    times the old amplitude at the index with [s0] at [c] and [s1] at [t]. *)
Theorem multi_qubit_evolution_two_axes (flat : list C) (za zb : Z)
    (s : statevec) (w : world) :
  let n := ndim (psi s) in
  let c := axis_of n za in
  let t := axis_of n zb in
  let T := mk_ndarray 4 flat in
  length flat = 16 -> in_range n za -> in_range n zb -> c <> t ->
  exists s',
    multi_qubit_evolution (mk_oparray 4 flat) [za; zb] s w = (inr tt, s', w) /\
    node_index s' = node_index s /\ wf (psi s') /\ ndim (psi s') = n /\
    forall idx, length idx = n ->
      get (psi s') idx =
      Csum (map (fun s2 =>
                   Cmul (get T (nth c idx false :: nth t idx false :: s2))
                        (get (psi s) (set2 c t (nth 0 s2 false) (nth 1 s2 false) idx)))
                (all_indices 2)).
Proof.
  intros n c t T Hlen Ha Hb Hne.
  assert (HT : transpose T [0; 1; 2; 3] = Ret T) by (apply transpose_id4; [exact Hlen|reflexivity]).
  destruct (tensordot_moveaxis2 T (psi s) za zb c t eq_refl HT
              (norm_axis_in_range _ _ _ Ha) (norm_axis_in_range _ _ _ Hb) Hne)
    as [p1 [H1 H2]].
  unfold multi_qubit_evolution. cbn [op_len op_flat].
  change (Nat.log2 4) with 2. unfold reshape. rewrite Hlen.
  change (16 =? 2 ^ (2 * 2)) with true. munfold.
  change (map (fun i => Z.of_nat (2 + i)) (seq 0 (length [za; zb]))) with [2%Z; 3%Z].
  change (map Z.of_nat (seq 0 (length [za; zb]))) with [0%Z; 1%Z].
  change (mk_ndarray (2 * 2) flat) with T. rewrite H1, H2.
  eexists. split; [reflexivity|]. cbn [psi node_index].
  split; [reflexivity|]. split; [apply wf_of_fun|]. split; [reflexivity|].
  intros idx Hidx. unfold apply2. now rewrite get_of_fun.
Qed.

Lemma multi_qubit_evolution_two_axes_witness :
  length (data CZ_TENSOR) = 16 /\
  in_range (ndim (psi s_two)) 0 /\ in_range (ndim (psi s_two)) (-1) /\
  axis_of (ndim (psi s_two)) 0 <> axis_of (ndim (psi s_two)) (-1) /\
  exists s',
    multi_qubit_evolution (mk_oparray 4 (data CZ_TENSOR)) [0%Z; (-1)%Z] s_two w_two
      = (inr tt, s', w_two) /\
    node_index s' = node_index s_two /\ wf (psi s') /\
    ndim (psi s') = ndim (psi s_two) /\
    forall idx, length idx = ndim (psi s_two) ->
      get (psi s') idx =
      Csum (map (fun s2 =>
                   Cmul (get (mk_ndarray 4 (data CZ_TENSOR))
                           (nth (axis_of (ndim (psi s_two)) 0) idx false
                            :: nth (axis_of (ndim (psi s_two)) (-1)) idx false :: s2))
                        (get (psi s_two)
                           (set2 (axis_of (ndim (psi s_two)) 0)
                                 (axis_of (ndim (psi s_two)) (-1))
                                 (nth 0 s2 false) (nth 1 s2 false) idx)))
                (all_indices 2)).
Proof.
  assert (Hne : axis_of (ndim (psi s_two)) 0 <> axis_of (ndim (psi s_two)) (-1))
    by (vm_compute; lia).
  split; [reflexivity|]. split; [exact in_range_s_two_0|].
  split; [exact in_range_s_two_m1|]. split; [exact Hne|].
  exact (multi_qubit_evolution_two_axes (data CZ_TENSOR) 0 (-1) s_two w_two
           eq_refl in_range_s_two_0 in_range_s_two_m1 Hne).
Defined.

(** X27. [swap] and [entangle] are [multi_qubit_evolution] with the fixed
    SWAP and CZ matrices: on every session and for all axis numbers, errors
    included, [swap(q)] does what [multi_qubit_evolution] does with the 16
    entries of [SWAP_TENSOR] and the axes [q]; and once [entangle] has found
    its two labels at the positions [c] and [t], it does what
    [multi_qubit_evolution] does with the entries of [CZ_TENSOR] and the axes
    [c] and [t]. *)
Theorem swap_entangle_as_multi_qubit_evolution (s : statevec) (w : world) :
  (forall a b : Z,
     multi_qubit_evolution (mk_oparray 4 (data SWAP_TENSOR)) [a; b] s w
     = as_ext (swap (a, b) s w)) /\
  (forall (a b : Z) (c t : nat),
     list_index (heap w (node_index s)) a = Ret c ->
     list_index (heap w (node_index s)) b = Ret t ->
     multi_qubit_evolution (mk_oparray 4 (data CZ_TENSOR))
       [Z.of_nat c; Z.of_nat t] s w
     = as_ext (entangle a b s w)).
Proof.
  split.
  - intros a b. unfold multi_qubit_evolution, swap. cbn [op_len op_flat fst snd].
    change (Nat.log2 4) with 2. munfold.
    change (reshape (data SWAP_TENSOR) (2 * 2)) with (Ret SWAP_TENSOR).
    cbv beta iota.
    change (map (fun i => Z.of_nat (2 + i)) (seq 0 (length [a; b]))) with [2%Z; 3%Z].
    change (map Z.of_nat (seq 0 (length [a; b]))) with [0%Z; 1%Z].
    destruct (tensordot SWAP_TENSOR (psi s) [2%Z; 3%Z] [a; b]) as [p1|e];
      [|reflexivity].
    now destruct (moveaxis p1 [0%Z; 1%Z] [a; b]).
  - intros a b c t Ha Hb. unfold multi_qubit_evolution, entangle.
    cbn [op_len op_flat]. change (Nat.log2 4) with 2. munfold. rewrite Ha, Hb.
    change (reshape (data CZ_TENSOR) (2 * 2)) with (Ret CZ_TENSOR).
    cbv beta iota.
    change (map (fun i => Z.of_nat (2 + i)) (seq 0 (length [Z.of_nat c; Z.of_nat t])))
      with [2%Z; 3%Z].
    change (map Z.of_nat (seq 0 (length [Z.of_nat c; Z.of_nat t]))) with [0%Z; 1%Z].
    destruct (tensordot CZ_TENSOR (psi s) [2%Z; 3%Z] [Z.of_nat c; Z.of_nat t])
      as [p1|e]; [|reflexivity].
    now destruct (moveaxis p1 [0%Z; 1%Z] [Z.of_nat c; Z.of_nat t]).
Qed.

Lemma swap_entangle_as_multi_qubit_evolution_witness :
  list_index (heap w_labels (node_index s_labels)) 10 = Ret 0 /\
  list_index (heap w_labels (node_index s_labels)) 20 = Ret 1 /\
  multi_qubit_evolution (mk_oparray 4 (data CZ_TENSOR))
    [Z.of_nat 0; Z.of_nat 1] s_labels w_labels
  = as_ext (entangle 10 20 s_labels w_labels).
Proof.
  assert (Ha : list_index (heap w_labels (node_index s_labels)) 10 = Ret 0)
    by reflexivity.
  assert (Hb : list_index (heap w_labels (node_index s_labels)) 20 = Ret 1)
    by reflexivity.
  split; [exact Ha|]. split; [exact Hb|].
  exact (proj2 (swap_entangle_as_multi_qubit_evolution s_labels w_labels)
           10%Z 20%Z 0 1 Ha Hb).
Defined.

(** X28. [multi_qubit_evolution] raises [OverflowError] for an operator of
    first length 0, and [ValueError] when the number of entries of the
    operator is not [4 ^ d], [d] being the integer logarithm of its first
    length; in both cases the session and the world are as before the call. *)
Theorem multi_qubit_evolution_error_cases (op : oparray) (qargs : list Z)
    (s : statevec) (w : world) :
  (op_len op = 0 -> multi_qubit_evolution op qargs s w = (inl OverflowError, s, w)) /\
  (op_len op <> 0 -> length (op_flat op) <> 2 ^ (2 * Nat.log2 (op_len op)) ->
     multi_qubit_evolution op qargs s w = (inl (Exn ValueError), s, w)).
Proof.
  split.
  - intros H. unfold multi_qubit_evolution. now rewrite H.
  - intros H0 Hl. unfold multi_qubit_evolution.
    destruct (op_len op) as [|m] eqn:E; [contradiction|].
    unfold reshape. munfold.
    destruct (Nat.eqb_spec (length (op_flat op)) (2 ^ (2 * Nat.log2 (S m))));
      [contradiction|reflexivity].
Qed.

Lemma multi_qubit_evolution_error_cases_witness :
  multi_qubit_evolution (mk_oparray 0 []) [0%Z] s_two w_two
    = (inl OverflowError, s_two, w_two) /\
  multi_qubit_evolution (mk_oparray 3 (data CZ_TENSOR)) [0%Z] s_two w_two
    = (inl (Exn ValueError), s_two, w_two).
Proof.
  destruct (multi_qubit_evolution_error_cases (mk_oparray 0 []) [0%Z] s_two w_two)
    as [H1 _].
  destruct (multi_qubit_evolution_error_cases (mk_oparray 3 (data CZ_TENSOR)) [0%Z]
              s_two w_two) as [_ H2].
  split.
  - apply H1. reflexivity.
  - apply H2; cbn; lia.
Defined.

(** X29. With a 2x2 operator and one axis number in range,
    [multi_qubit_evolution] does to the session's array what the function
    [single_qubit_evolution] of the module does to an array: both return,
    and the session's new array is the array the function returns; the
    labels and the world are kept. *)
Theorem multi_qubit_evolution_one_axis (op : ndarray) (z : Z)
    (s : statevec) (w : world) :
  wf op -> ndim op = 2 -> in_range (ndim (psi s)) z ->
  exists p,
    single_qubit_evolution (PyArray (psi s)) op z = Ret p /\
    p = apply1 op (psi s) (axis_of (ndim (psi s)) z) /\
    multi_qubit_evolution (mk_oparray 2 (data op)) [z] s w
    = (inr tt, mk_statevec p (node_index s), w).
Proof.
  intros Hwf Hop Hz.
  pose proof (single_qubit_evolution_in_range op (psi s) z Hwf Hop Hz) as H.
  exists (apply1 op (psi s) (axis_of (ndim (psi s)) z)).
  split; [exact H|]. split; [reflexivity|].
  destruct op as [d fl]. cbn [ndim data] in *. subst d.
  unfold wf in Hwf. cbn [ndim data] in Hwf.
  unfold single_qubit_evolution, tensordot_obj in H.
  unfold multi_qubit_evolution. cbn [op_len op_flat].
  change (Nat.log2 2) with 1. unfold reshape. rewrite Hwf.
  change (2 ^ 2 =? 2 ^ (2 * 1)) with true. munfold.
  change (map (fun i => Z.of_nat (1 + i)) (seq 0 (length [z]))) with [1%Z].
  change (map Z.of_nat (seq 0 (length [z]))) with [0%Z].
  change (mk_ndarray (2 * 1) fl) with (mk_ndarray 2 fl).
  destruct (tensordot (mk_ndarray 2 fl) (psi s) [1%Z] [z]) as [p1|e];
    cbn [obind] in H; [|discriminate].
  now rewrite H.
Qed.

Lemma multi_qubit_evolution_one_axis_witness :
  wf X_matrix /\ ndim X_matrix = 2 /\ in_range (ndim (psi s_two)) (-1) /\
  exists p,
    single_qubit_evolution (PyArray (psi s_two)) X_matrix (-1) = Ret p /\
    p = apply1 X_matrix (psi s_two) (axis_of (ndim (psi s_two)) (-1)) /\
    multi_qubit_evolution (mk_oparray 2 (data X_matrix)) [(-1)%Z] s_two w_two
    = (inr tt, mk_statevec p (node_index s_two), w_two).
Proof.
  split; [exact wf_X_matrix|]. split; [reflexivity|].
  split; [exact in_range_s_two_m1|].
  exact (multi_qubit_evolution_one_axis X_matrix (-1) s_two w_two
           wf_X_matrix eq_refl in_range_s_two_m1).
Defined.
